(** * Snowlink: lineage graph, schema drift detection and sync orchestration

    A shallow embedding of the three core components of the Snowlink agent
    ([src/agent/lineage_tracker.py], [src/agent/schema_drift.py] and
    [src/agent/orchestrator.py]) together with the properties that the
    specification states about them.

    Conventions of the embedding:
    - a Python [dict] keyed by strings is a [gmap string _], a Python [set]
      of strings is a [gset string], a Python [list] is a [list];
    - a dict read from JSON whose keys may be missing is a record with
      [option] fields ([None] = the key is absent);
    - code that can raise returns a value of [exn + A]; code that also
      mutates an object threads that object through the [Eff] monad;
    - readings of the wall clock ([datetime.now()], [time.time()]) are an
      explicit argument where they are stored in the graph and are left out
      of result records otherwise. *)

From Stdlib Require Import ZArith String Ascii List Lia DecimalString.
From stdpp Require Import base option list gmap strings fin_maps fin_sets.

Local Open Scope string_scope.
Local Open Scope Z_scope.
Local Open Scope list_scope.

(** ** Python exceptions and effects *)

Module Py.

Inductive exn : Type :=
| KeyError (key : string)
| ValueError (msg : string)
| OSError (msg : string)
| RuntimeError (msg : string).

(** [str(e)]: a [KeyError] prints the repr of its key. *)
Definition str_exn (e : exn) : string :=
  match e with
  | KeyError k => "'" +:+ k +:+ "'"
  | ValueError m | OSError m | RuntimeError m => m
  end.

(** Computations that may raise. *)
Definition result (A : Type) : Type := (exn + A)%type.

Definition ok {A} (a : A) : result A := inr a.
Definition raise {A} (e : exn) : result A := inl e.

Definition rbind {A B} (m : result A) (k : A → result B) : result B :=
  match m with
  | inl e => inl e
  | inr a => k a
  end.

(** [d[key]] on a dict whose key may be missing. *)
Definition subscript {A} (key : string) (field : option A) : result A :=
  match field with
  | Some a => ok a
  | None => raise (KeyError key)
  end.

(** [[f(x) for x in xs]] where [f] may raise: stops at the first exception. *)
Fixpoint rmap {A B} (f : A → result B) (xs : list A) : result (list B) :=
  match xs with
  | [] => ok []
  | x :: xs' =>
      rbind (f x) (λ y, rbind (rmap f xs') (λ ys, ok (y :: ys)))
  end.

(** Computations that may raise and that mutate a state of type [S]; the
    state reached when the exception is raised is kept, as the mutations of
    a Python object are. *)
Definition Eff (S A : Type) : Type := S → result A * S.

Definition ret {S A} (a : A) : Eff S A := λ s, (inr a, s).
Definition throw {S A} (e : exn) : Eff S A := λ s, (inl e, s).
Definition bind {S A B} (m : Eff S A) (k : A → Eff S B) : Eff S B :=
  λ s, match m s with
       | (inl e, s') => (inl e, s')
       | (inr a, s') => k a s'
       end.
Definition get {S} : Eff S S := λ s, (inr s, s).
Definition modify {S} (f : S → S) : Eff S unit := λ s, (inr tt, f s).
Definition lift {S A} (r : result A) : Eff S A := λ s, (r, s).

(** [try: body except Exception as e: handler(e)]. *)
Definition try_except {S A} (body : Eff S A) (handler : exn → Eff S A) : Eff S A :=
  λ s, match body s with
       | (inl e, s') => handler e s'
       | (inr a, s') => (inr a, s')
       end.

(** [for x in xs: body(x)]. *)
Fixpoint for_each {S A} (xs : list A) (body : A → Eff S unit) : Eff S unit :=
  match xs with
  | [] => ret tt
  | x :: xs' => bind (body x) (λ _, for_each xs' body)
  end.

(** [sum(1 for x in xs if p(x))]. *)
Fixpoint count_if {A} (p : A → bool) (xs : list A) : nat :=
  match xs with
  | [] => 0
  | x :: xs' => (if p x then 1 else 0) + count_if p xs'
  end.

(** ASCII letters are mapped as [str.upper] maps them; every other
    character is kept. *)
Definition upper_ascii (c : ascii) : ascii :=
  let n := nat_of_ascii c in
  if (97 <=? n)%nat && (n <=? 122)%nat then ascii_of_nat (n - 32) else c.

Fixpoint upper (s : string) : string :=
  match s with
  | EmptyString => EmptyString
  | String c s' => String (upper_ascii c) (upper s')
  end.

End Py.

Notation "'let*' x ':=' m 'in' k" := (Py.bind m (λ x, k))
  (at level 10, x name, m at level 100, k at level 200, only parsing).
Notation "m '>>' k" := (Py.bind m (λ _, k))
  (at level 90, right associativity, only parsing).
Notation "'let?' x ':=' m 'in' k" := (Py.rbind m (λ x, k))
  (at level 10, x name, m at level 100, k at level 200, only parsing).

(** ** The lineage graph ([src/agent/lineage_tracker.py]) *)

Module Lineage.
Import Py.

Record LineageNode : Type := mkNode {
  node_id : string;
  node_type : string;
  node_name : string;
  node_metadata : list (string * option string);
  node_created_at : string
}.

Record LineageEdge : Type := mkEdge {
  source_id : string;
  target_id : string;
  relationship : string;
  edge_metadata : list (string * option string);
  edge_created_at : string
}.

(** The tracker object: the two in-memory collections, and the two JSON
    files under [storage_path] ([None] = the file does not exist).
    [writable] tells whether opening the files for writing succeeds. *)
Record LineageTracker : Type := mkTracker {
  nodes : gmap string LineageNode;
  edges : list LineageEdge;
  nodes_file : option (gmap string LineageNode);
  edges_file : option (list LineageEdge);
  writable : bool
}.

Definition with_nodes (f : gmap string LineageNode → gmap string LineageNode)
    (t : LineageTracker) : LineageTracker :=
  mkTracker (f (nodes t)) (edges t) (nodes_file t) (edges_file t) (writable t).

Definition with_edges (f : list LineageEdge → list LineageEdge)
    (t : LineageTracker) : LineageTracker :=
  mkTracker (nodes t) (f (edges t)) (nodes_file t) (edges_file t) (writable t).

(** [__init__] followed by [_load]. *)
Definition init (nf : option (gmap string LineageNode))
    (ef : option (list LineageEdge)) (w : bool) : LineageTracker :=
  mkTracker (default ∅ nf) (default [] ef) nf ef w.

(** [_save] rewrites both files; the message stands for the text of the
    [OSError] that [open(..., "w")] raises. *)
Definition _save : Eff LineageTracker unit :=
  λ t, if writable t
       then (inr tt, mkTracker (nodes t) (edges t)
                       (Some (nodes t)) (Some (edges t)) (writable t))
       else (inl (OSError "cannot write lineage files"), t).

Definition table_key (database schema table_name : string) : string :=
  upper ("table:" +:+ database +:+ "." +:+ schema +:+ "." +:+ table_name).

Definition doc_key (source_type source_id : string) : string :=
  "doc:" +:+ source_type +:+ ":" +:+ source_id.

Definition add_table (now : string) (table_name : string)
    (database schema : string) (owner description : option string)
    : Eff LineageTracker string :=
  let key := table_key database schema table_name in
  modify (with_nodes (insert key
    (mkNode key "table" (upper table_name)
       [("database", Some database); ("schema", Some schema);
        ("owner", owner); ("description", description)] now))) >>
  _save >>
  ret key.

Definition add_document (now : string) (source_type source_id title : string)
    (url : option string) : Eff LineageTracker string :=
  let key := doc_key source_type source_id in
  modify (with_nodes (insert key
    (mkNode key "document" title
       [("source_type", Some source_type); ("source_id", Some source_id);
        ("url", url)] now))) >>
  _save >>
  ret key.

(** The search loop of [add_edge]: is there an edge for this ordered pair? *)
Definition same_pair (a b : string) (e : LineageEdge) : bool :=
  bool_decide (source_id e = a) && bool_decide (target_id e = b).

Definition add_edge (now : string) (a b rel : string)
    (metadata : option (list (string * option string)))
    : Eff LineageTracker unit :=
  let* t := get in
  if existsb (same_pair a b) (edges t)
  then ret tt
  else
    modify (with_edges (λ es, es ++ [mkEdge a b rel (default [] metadata) now])) >>
    _save.

Definition link_table_to_document (now : string) (table_name source_type
    source_id database schema : string) : Eff LineageTracker unit :=
  add_edge now (table_key database schema table_name)
    (doc_key source_type source_id) "documented_in" None.

(** One entry of the list returned by [get_upstream] / [get_downstream]. *)
Record Dep : Type := mkDep {
  dep_id : string;
  dep_name : string;
  dep_type : string;
  dep_relationship : string;
  dep_depth : Z
}.

(** The closure variables [visited] and [result] of one traversal. *)
Definition TState : Type := (gset string * list Dep)%type.

(** [for edge in self.edges: body(edge)] over the traversal state; [None]
    only when a nested call ran out of fuel. *)
Fixpoint for_edges (body : LineageEdge → TState → option TState)
    (es : list LineageEdge) (st : TState) : option TState :=
  match es with
  | [] => Some st
  | e :: es' =>
      match body e st with
      | Some st' => for_edges body es' st'
      | None => None
      end
  end.

Section Traverse.
(** [get_downstream] and [get_upstream] are the same text up to the two
    edge fields being exchanged: [near] is the field compared with the
    current node and [far] the field that is reported and followed. *)
Variables near far : LineageEdge → string.
Variable t : LineageTracker.
Variable depth : Z.

(** The nested function [traverse]. The recursion of the source is not
    structural, so the embedding counts nested calls with [fuel]; the
    recursion limit of the interpreter is outside the model. *)
Fixpoint traverse (fuel : nat) (current_id : string) (current_depth : Z)
    (st : TState) : option TState :=
  match fuel with
  | O => None
  | S fuel' =>
      if bool_decide (current_depth > depth) || bool_decide (current_id ∈ st.1)
      then Some st
      else
        for_edges
          (λ edge st,
             if bool_decide (near edge = current_id) then
               match nodes t !! far edge with
               | Some node =>
                   traverse fuel' (far edge) (current_depth + 1)
                     (st.1,
                      st.2 ++ [mkDep (node_id node) (node_name node)
                                 (node_type node) (relationship edge)
                                 current_depth])
               | None => Some st
               end
             else Some st)
          (edges t) ({[current_id]} ∪ st.1, st.2)
  end.

Definition run (fuel : nat) (node : string) : option (list Dep) :=
  snd <$> traverse fuel node 1 (∅, []).

(** Edges that lead to [x] from a node of [V]. *)
Definition leads (x : string) (V : gset string) (e : LineageEdge) : bool :=
  bool_decide (far e = x) && bool_decide (near e ∈ V).
End Traverse.

(** The entry [d] of a traversal result reports node [x]. *)
Definition reports (x : string) (d : Dep) : bool := bool_decide (dep_id d = x).

(** What one call of [traverse] adds to the state [(V, R)] it starts from:
    the visited set only grows, the result is extended, and the entries
    added for a node [x] are covered by the edges that lead to [x] from the
    nodes visited by this call, plus [extra x]. *)
Definition extends (near far : LineageEdge → string) (t : LineageTracker)
    (V : gset string) (R : list Dep) (extra : string → nat) (st' : TState)
    : Prop :=
  V ⊆ st'.1 ∧
  ∃ Δ, st'.2 = R ++ Δ ∧
    ∀ x, (count_if (reports x) Δ
          ≤ count_if (leads near far x (st'.1 ∖ V)) (edges t) + extra x)%nat.

(** Nested calls go at most [depth + 1] levels deep. *)
Definition fuel_for (depth : Z) : nat := Z.to_nat depth + 2.

Definition get_upstream (t : LineageTracker) (node : string) (depth : Z)
    : option (list Dep) :=
  run target_id source_id t depth (fuel_for depth) node.

Definition get_downstream (t : LineageTracker) (node : string) (depth : Z)
    : option (list Dep) :=
  run source_id target_id t depth (fuel_for depth) node.

(** The number of entries of a result that report node [x], and the number
    of edges that enter or leave [x]. *)
Definition occurrences (x : string) (r : list Dep) : nat :=
  count_if (reports x) r.

Definition in_degree (t : LineageTracker) (x : string) : nat :=
  count_if (λ e, bool_decide (target_id e = x)) (edges t).

Definition out_degree (t : LineageTracker) (x : string) : nat :=
  count_if (λ e, bool_decide (source_id e = x)) (edges t).

(** Every node is stored under its own id, as the [add_*] methods do. *)
Definition keys_consistent (t : LineageTracker) : Prop :=
  map_Forall (λ k n, node_id n = k) (nodes t).

(** The edges recorded for the ordered pair [(a, b)]. *)
Definition edges_between (a b : string) (t : LineageTracker)
    : list LineageEdge :=
  List.filter (same_pair a b) (edges t).

End Lineage.

(** ** Schema snapshots (the dicts produced by extraction and by
       [SnowflakeClient.get_existing_schema]) *)

Module Schema.
Import Py.

Record Column : Type := mkColumn {
  column_name : option string;
  data_type : option string;
  nullable : option bool;
  column_description : option string
}.

Record Table : Type := mkTable {
  table_name : option string;
  owner : option string;
  description : option string;
  columns : option (list Column)
}.

Record Snapshot : Type := mkSnapshot {
  tables : option (list Table)
}.

(** [schema.get("tables", [])] and [table.get("columns", [])]. *)
Definition tables_or_empty (s : Snapshot) : list Table := default [] (tables s).
Definition columns_or_empty (t : Table) : list Column := default [] (columns t).

(** The fields that the code reads with a subscript are present. *)
Definition column_named (c : Column) : bool := bool_decide (is_Some (column_name c)).

Definition table_named (t : Table) : bool :=
  bool_decide (is_Some (table_name t)) && forallb column_named (columns_or_empty t).

Definition well_formed (s : Snapshot) : bool :=
  forallb table_named (tables_or_empty s).

(** The canonical (upper-case) names of the tables of a snapshot and of the
    columns of a table, in order. *)
Definition upper_table_names (s : Snapshot) : list string :=
  omap (λ t, upper <$> table_name t) (tables_or_empty s).


(** The snapshot in which every optional field that is absent is written
    out with the value that the drift detector reads for it: no
    ["tables"] as an empty list, no ["columns"] as an empty list, no
    ["data_type"] as the empty string, no ["nullable"] as [True]. *)
Definition fill_column (c : Column) : Column :=
  mkColumn (column_name c) (Some (default "" (data_type c)))
    (Some (default true (nullable c))) (column_description c).

Definition fill_table (t : Table) : Table :=
  mkTable (table_name t) (owner t) (description t)
    (Some (fill_column <$> columns_or_empty t)).

Definition fill_defaults (s : Snapshot) : Snapshot :=
  mkSnapshot (Some (fill_table <$> tables_or_empty s)).

End Schema.

(** ** The drift detector ([src/agent/schema_drift.py]) *)

Module Drift.
Import Py Schema.

Inductive DriftType : Type :=
| TABLE_MISSING_IN_SNOWFLAKE
| TABLE_MISSING_IN_DOCS
| COLUMN_MISSING_IN_SNOWFLAKE
| COLUMN_MISSING_IN_DOCS
| TYPE_MISMATCH
| DESCRIPTION_MISMATCH
| NULLABLE_MISMATCH.

Inductive DriftSeverity : Type := HIGH | MEDIUM | LOW.

#[global] Instance DriftType_eq_dec : EqDecision DriftType.
Proof. solve_decision. Defined.
#[global] Instance DriftSeverity_eq_dec : EqDecision DriftSeverity.
Proof. solve_decision. Defined.

Record DriftIssue : Type := mkIssue {
  drift_type : DriftType;
  severity : DriftSeverity;
  issue_table : string;
  issue_column : option string;
  expected_value : option string;
  actual_value : option string;
  message : string
}.

Record DriftReport : Type := mkReport {
  documented_tables : nat;
  snowflake_tables : nat;
  total_issues : nat;
  high_severity : nat;
  medium_severity : nat;
  low_severity : nat;
  issues : list DriftIssue
}.

Definition has_severity (s : DriftSeverity) (i : DriftIssue) : bool :=
  bool_decide (severity i = s).

(** An issue that is neither of LOW severity nor a description mismatch. *)
Definition graded (i : DriftIssue) : Prop :=
  severity i ≠ LOW ∧ drift_type i ≠ DESCRIPTION_MISMATCH.

(** [_types_compatible] *)
Definition type_groups : list (list string) :=
  [ ["VARCHAR"; "STRING"; "TEXT"; "CHAR"; "CHARACTER"];
    ["INT"; "INTEGER"; "BIGINT"; "SMALLINT"; "NUMBER"];
    ["FLOAT"; "DOUBLE"; "REAL"; "DECIMAL"; "NUMERIC"];
    ["BOOL"; "BOOLEAN"];
    ["DATE"; "DATETIME"; "TIMESTAMP"; "TIMESTAMP_NTZ"; "TIMESTAMP_LTZ"] ].

Definition _types_compatible (type1 type2 : string) : bool :=
  existsb (λ group, bool_decide (type1 ∈ group) && bool_decide (type2 ∈ group))
    type_groups
  || bool_decide (type1 = type2).

(** [{c["column_name"].upper(): c for c in cols}]: a later column replaces
    an earlier one of the same upper-cased name. *)
Fixpoint columns_by_name (acc : gmap string Column) (cols : list Column)
    : result (gmap string Column) :=
  match cols with
  | [] => ok acc
  | c :: cols' =>
      let? n := subscript "column_name" (column_name c) in
      columns_by_name (<[upper n := c]> acc) cols'
  end.

(** [str(b)] for a boolean. *)
Definition str_bool (b : bool) : string := if b then "True" else "False".

Definition column_missing_in_snowflake (table_name col_name : string) : DriftIssue :=
  mkIssue COLUMN_MISSING_IN_SNOWFLAKE HIGH table_name (Some col_name) None None
    ("Column " +:+ table_name +:+ "." +:+ col_name +:+
     " is documented but does not exist").

Definition column_missing_in_docs (table_name col_name : string) : DriftIssue :=
  mkIssue COLUMN_MISSING_IN_DOCS MEDIUM table_name (Some col_name) None None
    ("Column " +:+ table_name +:+ "." +:+ col_name +:+
     " exists but is not documented").

Definition type_mismatch (table_name col_name doc_type actual_type : string)
    : DriftIssue :=
  mkIssue TYPE_MISMATCH HIGH table_name (Some col_name)
    (Some doc_type) (Some actual_type)
    ("Type mismatch for " +:+ table_name +:+ "." +:+ col_name +:+
     ": documented as " +:+ doc_type +:+ ", actual is " +:+ actual_type).

Definition nullable_mismatch (table_name col_name : string)
    (doc_nullable actual_nullable : bool) : DriftIssue :=
  mkIssue NULLABLE_MISMATCH MEDIUM table_name (Some col_name)
    (Some (str_bool doc_nullable)) (Some (str_bool actual_nullable))
    ("Nullable mismatch for " +:+ table_name +:+ "." +:+ col_name).

(** [(col.get("data_type") or "").upper()] *)
Definition type_of (c : Column) : string := upper (default "" (data_type c)).

(** [col.get("nullable", True)] *)
Definition nullable_of (c : Column) : bool := default true (nullable c).

(** [doc_type and actual_type and doc_type != actual_type], and then
    [not self._types_compatible(doc_type, actual_type)]. *)
Definition type_conflict (doc_type actual_type : string) : bool :=
  bool_decide (doc_type ≠ "") && bool_decide (actual_type ≠ "")
  && bool_decide (doc_type ≠ actual_type)
  && negb (_types_compatible doc_type actual_type).

(** The body of the loop over the common columns. *)
Definition compare_common_column (table_name col_name : string)
    (doc_col actual_col : Column) : list DriftIssue :=
  let doc_type := type_of doc_col in
  let actual_type := type_of actual_col in
  (if type_conflict doc_type actual_type
   then [type_mismatch table_name col_name doc_type actual_type]
   else [])
  ++
  (if bool_decide (nullable_of doc_col ≠ nullable_of actual_col)
   then [nullable_mismatch table_name col_name
           (nullable_of doc_col) (nullable_of actual_col)]
   else []).

(** [d[key]] on a dict built by the code itself. *)
Definition lookup_key (key : string) (d : gmap string Column) : result Column :=
  match d !! key with
  | Some c => ok c
  | None => raise (KeyError key)
  end.

(** [_compare_columns]. The three loops run over Python sets; [elements]
    fixes one iteration order, on which no property below depends. *)
Definition _compare_columns (table_name : string) (doc_table actual_table : Table)
    : result (list DriftIssue) :=
  let? doc_columns := columns_by_name ∅ (columns_or_empty doc_table) in
  let? actual_columns := columns_by_name ∅ (columns_or_empty actual_table) in
  let? common :=
    rmap (λ col_name,
            let? doc_col := lookup_key col_name doc_columns in
            let? actual_col := lookup_key col_name actual_columns in
            ok (compare_common_column table_name col_name doc_col actual_col))
         (elements (dom doc_columns ∩ dom actual_columns)) in
  ok (map (column_missing_in_snowflake table_name)
        (elements (dom doc_columns ∖ dom actual_columns))
      ++ map (column_missing_in_docs table_name)
           (elements (dom actual_columns ∖ dom doc_columns))
      ++ concat common).

(** [{t["table_name"].upper() for t in schema.get("tables", [])}] *)
Definition upper_name (t : Table) : result string :=
  let? n := subscript "table_name" (table_name t) in ok (upper n).

Definition table_names (s : Snapshot) : result (gset string) :=
  let? names := rmap upper_name (tables_or_empty s) in
  ok (list_to_set names).

(** [next((t for t in tabs if t["table_name"].upper() == name), None)] *)
Fixpoint first_named (name : string) (tabs : list Table) : result (option Table) :=
  match tabs with
  | [] => ok None
  | t :: tabs' =>
      let? n := upper_name t in
      if bool_decide (n = name) then ok (Some t) else first_named name tabs'
  end.

Definition table_missing_in_snowflake (table_name : string) : DriftIssue :=
  mkIssue TABLE_MISSING_IN_SNOWFLAKE HIGH table_name None None None
    ("Table " +:+ table_name +:+
     " is documented but does not exist in Snowflake").

Definition table_missing_in_docs (table_name : string) : DriftIssue :=
  mkIssue TABLE_MISSING_IN_DOCS MEDIUM table_name None None None
    ("Table " +:+ table_name +:+ " exists in Snowflake but is not documented").

(** The tables asked from Snowflake: the argument, or all documented ones. *)
Definition requested_tables (doc_table_names : gset string)
    (snowflake_tables : option (list string)) : list string :=
  match snowflake_tables with
  | Some l => l
  | None => elements doc_table_names
  end.

(** The "Calculate totals" block. *)
Definition with_totals (ndoc nlive : nat) (iss : list DriftIssue) : DriftReport :=
  mkReport ndoc nlive (length iss)
    (count_if (has_severity HIGH) iss)
    (count_if (has_severity MEDIUM) iss)
    (count_if (has_severity LOW) iss)
    iss.

(** The body of the loop over the common tables. *)
Definition compare_common_table (documented_schema actual_schema : Snapshot)
    (table_name : string) : result (list DriftIssue) :=
  let? doc_tabs := subscript "tables" (tables documented_schema) in
  let? doc_table := first_named table_name doc_tabs in
  let? actual_tabs := subscript "tables" (tables actual_schema) in
  let? actual_table := first_named table_name actual_tabs in
  match doc_table, actual_table with
  | Some d, Some a => _compare_columns table_name d a
  | _, _ => ok []
  end.

Section Compare.
(** [self.snowflake_client.get_existing_schema] *)
Variable get_existing_schema : list string → result Snapshot.

Definition compare (documented_schema : Snapshot)
    (snowflake_tables : option (list string)) : result DriftReport :=
  let ndoc := length (tables_or_empty documented_schema) in
  let? doc_table_names := table_names documented_schema in
  let? actual_schema :=
    get_existing_schema (requested_tables doc_table_names snowflake_tables) in
  let? actual_table_names := table_names actual_schema in
  let? per_table :=
    rmap (compare_common_table documented_schema actual_schema)
      (elements (doc_table_names ∩ actual_table_names)) in
  ok (with_totals ndoc (size actual_table_names)
        (map table_missing_in_snowflake
           (elements (doc_table_names ∖ actual_table_names))
         ++ map table_missing_in_docs
              (elements (actual_table_names ∖ doc_table_names))
         ++ concat per_table)).
End Compare.

End Drift.

(** ** The sync orchestrator ([src/agent/orchestrator.py]) *)

Module Orchestrator.
Import Py Schema.

Record SyncResult : Type := mkSyncResult {
  success : bool;
  source_type : string;
  source_id : string;
  tables_found : nat;
  tables_updated : nat;
  columns_updated : nat;
  drift_issues : nat;
  quality_failures : nat;
  errors : list string;
  warnings : list string
}.

Record BatchSyncResult : Type := mkBatch {
  total_sources : nat;
  successful : nat;
  failed : nat;
  results : list SyncResult
}.

(** What [ConfluenceWatcher.get_page] and [JiraWatcher.get_issue] return;
    [title] is the ["summary"] of a Jira issue. *)
Record Document : Type := mkDocument {
  content : string;
  title : string;
  url : string
}.

(** The dict returned by [SnowflakeClient.write_comments]. *)
Record SfResult : Type := mkSfResult {
  sf_tables_updated : nat;
  sf_columns_updated : nat;
  sf_errors : list string
}.

Record QualityReport : Type := mkQuality {
  total_checks : nat;
  passed : nat;
  quality_failed : nat
}.

(** The calls that a job makes to its collaborators, as recorded in the
    world's log. *)
Inductive Call : Type :=
| audit_sync_start (source_type source_id : string)
| audit_sync_complete (source_type source_id : string) (tables columns : nat)
| audit_sync_failed (source_type source_id error : string)
| audit_comment_written (table_name : string) (comment : string)
| audit_dbt_generated (source_id : string) (tables : list string)
| notify_sync_complete (source_type source_id : string) (tables columns : nat)
| notify_sync_failed (source_type source_id error : string)
| notify_drift_detected (total high medium : nat)
| notify_quality_failed (total passed failed : nat)
| get_page (page_id : string)
| get_issue (issue_key : string)
| load_prompt (prompt_name : string)
| extract_schema (source_type source_id : string)
| vector_add_document (source_type source_id : string) (tables : list string)
| drift_compare
| write_comments
| dbt_generate
| er_generate
| post_diagram_to_page (page_id : string)
| quality_generate_checks
| quality_run_checks (tables : list string).

(** The orchestrator object: which optional components were configured,
    and how each collaborator answers. The collaborators are outside the
    core; each is a function from the call to its outcome. The two
    watchers catch every exception themselves and return [None]. *)
Record Orchestrator : Type := mkOrchestrator {
  has_vector_store : bool;
  has_drift_detector : bool;
  has_quality_checker : bool;
  has_notifications : bool;
  has_audit : bool;
  dbt_enabled : bool;
  er_diagrams_enabled : bool;
  quality_run_on_sync : bool;
  confluence_get_page : string → option Document;
  jira_get_issue : string → option Document;
  prompt_file : string → result string;
  extractor : string → string → string → result (option Snapshot);
  vector_store_add : string → string → list string → result unit;
  snowflake_get_existing_schema : list string → result Snapshot;
  snowflake_write_comments : Snapshot → result SfResult;
  dbt_gen : Snapshot → result unit;
  er_gen : Snapshot → result (option string * option string);
  quality_generate : Snapshot → result unit;
  quality_run : list string → result QualityReport;
  audit : Call → result unit;
  notifications : Call → result unit;
  clock : string
}.

(** What a job can change: the lineage tracker ([None] when lineage is not
    enabled) and the log of collaborator calls. *)
Record World : Type := mkWorld {
  lineage : option Lineage.LineageTracker;
  calls : list Call
}.

Definition JobState : Type := (World * SyncResult)%type.

(** A collaborator call: it is logged, then it returns or raises. *)
Definition invoke {A} (c : Call) (outcome : result A) : Eff JobState A :=
  λ st, (outcome, (mkWorld (lineage st.1) (calls st.1 ++ [c]), st.2)).

Definition update (f : SyncResult → SyncResult) : Eff JobState unit :=
  λ st, (inr tt, (st.1, f st.2)).

(** Reading the [result] object. *)
Definition get_result : Eff JobState SyncResult := λ st, (inr st.2, st).

Definition when {S} (b : bool) (m : Eff S unit) : Eff S unit :=
  if b then m else ret tt.

(** [if self.lineage: body], with [body] acting on the tracker. *)
Definition if_lineage (body : Eff Lineage.LineageTracker unit) : Eff JobState unit :=
  λ st, match lineage st.1 with
        | None => (inr tt, st)
        | Some t =>
            let (out, t') := body t in
            (out, (mkWorld (Some t') (calls st.1), st.2))
        end.

Definition set_success (b : bool) (r : SyncResult) : SyncResult :=
  mkSyncResult b (source_type r) (source_id r) (tables_found r)
    (tables_updated r) (columns_updated r) (drift_issues r)
    (quality_failures r) (errors r) (warnings r).

Definition set_tables_found (n : nat) (r : SyncResult) : SyncResult :=
  mkSyncResult (success r) (source_type r) (source_id r) n
    (tables_updated r) (columns_updated r) (drift_issues r)
    (quality_failures r) (errors r) (warnings r).

Definition set_updated (nt nc : nat) (r : SyncResult) : SyncResult :=
  mkSyncResult (success r) (source_type r) (source_id r) (tables_found r)
    nt nc (drift_issues r) (quality_failures r) (errors r) (warnings r).

Definition set_drift_issues (n : nat) (r : SyncResult) : SyncResult :=
  mkSyncResult (success r) (source_type r) (source_id r) (tables_found r)
    (tables_updated r) (columns_updated r) n
    (quality_failures r) (errors r) (warnings r).

Definition set_quality_failures (n : nat) (r : SyncResult) : SyncResult :=
  mkSyncResult (success r) (source_type r) (source_id r) (tables_found r)
    (tables_updated r) (columns_updated r) (drift_issues r)
    n (errors r) (warnings r).

Definition add_errors (es : list string) (r : SyncResult) : SyncResult :=
  mkSyncResult (success r) (source_type r) (source_id r) (tables_found r)
    (tables_updated r) (columns_updated r) (drift_issues r)
    (quality_failures r) (errors r ++ es) (warnings r).

Definition add_warning (w : string) (r : SyncResult) : SyncResult :=
  mkSyncResult (success r) (source_type r) (source_id r) (tables_found r)
    (tables_updated r) (columns_updated r) (drift_issues r)
    (quality_failures r) (errors r) (warnings r ++ [w]).

(** [SyncResult(success=False, source_type=..., source_id=...)] *)
Definition new_result (source_type source_id : string) : SyncResult :=
  mkSyncResult false source_type source_id 0 0 0 0 0 [] [].

(** [not schema or not schema.get("tables")] *)
Definition no_tables (schema : option Snapshot) : bool :=
  match schema with
  | None => true
  | Some s => match tables s with
              | None | Some [] => true
              | Some (_ :: _) => false
              end
  end.

(** [[t["table_name"] for t in schema["tables"]]] *)
Definition names_of (tabs : list Table) : result (list string) :=
  rmap (λ t, subscript "table_name" (table_name t)) tabs.

(** [str(n)] for a count. *)
Definition str_nat (n : nat) : string :=
  DecimalString.NilZero.string_of_uint (Nat.to_uint n).

(** [s[:n]] *)
Fixpoint prefix (n : nat) (s : string) : string :=
  match n, s with
  | S n', String c s' => String c (prefix n' s')
  | _, _ => EmptyString
  end.

Section Job.
Variable self : Orchestrator.

(** The lineage block of both jobs: the body of its loop over the
    tables, the calls made on the tracker, and the block itself. *)
Definition register_table (source_type source_id : string) (table : Table)
    : Eff Lineage.LineageTracker unit :=
  let* n := lift (subscript "table_name" (table_name table)) in
  Lineage.add_table (clock self) n "ANALYTICS" "PUBLIC"
    (owner table) (description table) >>
  let* n' := lift (subscript "table_name" (table_name table)) in
  Lineage.link_table_to_document (clock self) n' source_type source_id
    "ANALYTICS" "PUBLIC".

Definition lineage_block (source_type source_id : string) (doc : Document)
    (tabs : list Table) : Eff Lineage.LineageTracker unit :=
  Lineage.add_document (clock self) source_type source_id (title doc)
    (Some (url doc)) >>
  for_each tabs (register_table source_type source_id).

Definition track_lineage (source_type source_id : string) (doc : Document)
    (tabs : list Table) : Eff JobState unit :=
  if_lineage (lineage_block source_type source_id doc tabs).

(** The vector-store block of both jobs. *)
Definition index_document (source_type source_id : string) (doc : Document)
    (tabs : list Table) : Eff JobState unit :=
  when (has_vector_store self)
    (let* table_names := lift (names_of tabs) in
     invoke (vector_add_document source_type source_id table_names)
       (vector_store_add self source_type source_id table_names)).

(** Fetched content to extracted schema, common to both jobs. *)
Definition extract (source_type source_id : string) (doc : Document)
    : Eff JobState (option Snapshot) :=
  invoke (load_prompt "extract_schema.txt")
    (prompt_file self "extract_schema.txt") >>
  invoke (extract_schema source_type source_id)
    (extractor self (content doc) source_type source_id).

(** The body of the [try] block of [sync_confluence_page]; an early
    [return result] ends the block. *)
Definition confluence_body (page_id : string)
    (dry_run skip_drift_check skip_quality_check post_diagram : bool)
    : Eff JobState unit :=
  let* page_data := invoke (get_page page_id) (ok (confluence_get_page self page_id)) in
  match page_data with
  | None => throw (ValueError ("Failed to fetch page " +:+ page_id))
  | Some page_data =>
  let* schema := extract "confluence" page_id page_data in
  if no_tables schema then
    update (add_warning "No tables found in content") >>
    update (set_success true)
  else
  let schema := default (mkSnapshot None) schema in
  let tabs := tables_or_empty schema in
  update (set_tables_found (length tabs)) >>
  index_document "confluence" page_id page_data tabs >>
  track_lineage "confluence" page_id page_data tabs >>
  when (has_drift_detector self && negb skip_drift_check)
    (let* drift_report :=
       invoke drift_compare
         (Drift.compare (snowflake_get_existing_schema self) schema None) in
     update (set_drift_issues (Drift.total_issues drift_report)) >>
     when (bool_decide (0 < Drift.high_severity drift_report)%nat)
       (update (add_warning
          ("Schema drift: " +:+ str_nat (Drift.high_severity drift_report)
           +:+ " high severity issues")) >>
        when (has_notifications self)
          (let c := notify_drift_detected (Drift.total_issues drift_report)
                      (Drift.high_severity drift_report)
                      (Drift.medium_severity drift_report) in
           invoke c (notifications self c)))) >>
  if dry_run then update (set_success true)
  else
  let* sf_result := invoke write_comments (snowflake_write_comments self schema) in
  update (set_updated (sf_tables_updated sf_result) (sf_columns_updated sf_result)) >>
  update (add_errors (sf_errors sf_result)) >>
  when (has_audit self)
    (for_each tabs (λ table,
       let* n := lift (subscript "table_name" (table_name table)) in
       let c := audit_comment_written n
                  (prefix 100 (default "" (description table))) in
       invoke c (audit self c))) >>
  when (dbt_enabled self)
    (invoke dbt_generate (dbt_gen self schema) >>
     when (has_audit self)
       (let* table_names := lift (names_of tabs) in
        let c := audit_dbt_generated page_id table_names in
        invoke c (audit self c))) >>
  when (er_diagrams_enabled self)
    (let* diagram := invoke er_generate (er_gen self schema) in
     match diagram with
     | (Some _, Some diagram_content) =>
         when (post_diagram && negb (bool_decide (diagram_content = "")))
           (invoke (post_diagram_to_page page_id) (ok tt))
     | _ => ret tt
     end) >>
  when (has_quality_checker self && negb skip_quality_check
        && quality_run_on_sync self)
    (invoke quality_generate_checks (quality_generate self schema) >>
     let* table_names := lift (names_of tabs) in
     let* quality_report :=
       invoke (quality_run_checks table_names) (quality_run self table_names) in
     update (set_quality_failures (quality_failed quality_report)) >>
     when (bool_decide (0 < quality_failed quality_report)%nat
           && has_notifications self)
       (let c := notify_quality_failed (total_checks quality_report)
                   (passed quality_report) (quality_failed quality_report) in
        invoke c (notifications self c))) >>
  update (set_success true) >>
  let* r := get_result in
  when (has_audit self)
    (let c := audit_sync_complete "confluence" page_id
                (tables_updated r) (columns_updated r) in
     invoke c (audit self c)) >>
  when (has_notifications self && bool_decide (0 < tables_updated r)%nat)
    (let c := notify_sync_complete "confluence" page_id
                (tables_updated r) (columns_updated r) in
     invoke c (notifications self c))
  end.

(** The body of the [try] block of [sync_jira_issue]. *)
Definition jira_body (issue_key : string) (dry_run skip_drift_check : bool)
    : Eff JobState unit :=
  let* issue_data := invoke (get_issue issue_key) (ok (jira_get_issue self issue_key)) in
  match issue_data with
  | None => throw (ValueError ("Failed to fetch issue " +:+ issue_key))
  | Some issue_data =>
  let* schema := extract "jira" issue_key issue_data in
  if no_tables schema then
    update (add_warning "No tables found in content") >>
    update (set_success true)
  else
  let schema := default (mkSnapshot None) schema in
  let tabs := tables_or_empty schema in
  update (set_tables_found (length tabs)) >>
  index_document "jira" issue_key issue_data tabs >>
  track_lineage "jira" issue_key issue_data tabs >>
  when (has_drift_detector self && negb skip_drift_check)
    (let* drift_report :=
       invoke drift_compare
         (Drift.compare (snowflake_get_existing_schema self) schema None) in
     update (set_drift_issues (Drift.total_issues drift_report))) >>
  if dry_run then update (set_success true)
  else
  let* sf_result := invoke write_comments (snowflake_write_comments self schema) in
  update (set_updated (sf_tables_updated sf_result) (sf_columns_updated sf_result)) >>
  invoke dbt_generate (dbt_gen self schema) >>
  invoke er_generate (er_gen self schema) >>
  update (set_success true) >>
  let* r := get_result in
  when (has_audit self)
    (let c := audit_sync_complete "jira" issue_key
                (tables_updated r) (columns_updated r) in
     invoke c (audit self c)) >>
  when (has_notifications self && bool_decide (0 < tables_updated r)%nat)
    (let c := notify_sync_complete "jira" issue_key
                (tables_updated r) (columns_updated r) in
     invoke c (notifications self c))
  end.

(** The frame shared by the two jobs: the start is audited before the
    [try]; an exception of the body is caught by [except Exception],
    recorded in [result.errors], audited and notified; [result] is
    returned unless the start record or the handler itself raises. *)
Definition on_failure (source_type source_id : string) (e : exn)
    : Eff JobState unit :=
  let failed := audit_sync_failed source_type source_id (str_exn e) in
  let notice := notify_sync_failed source_type source_id (str_exn e) in
  update (add_errors [str_exn e]) >>
  when (has_audit self) (invoke failed (audit self failed)) >>
  when (has_notifications self) (invoke notice (notifications self notice)).

Definition guarded (source_type source_id : string) (body : Eff JobState unit)
    : Eff World SyncResult :=
  λ w,
    let start := audit_sync_start source_type source_id in
    let (out, st) :=
      (when (has_audit self) (invoke start (audit self start)) >>
       try_except body (on_failure source_type source_id) >>
       get_result) (w, new_result source_type source_id) in
    (out, st.1).

Definition sync_confluence_page (page_id : string)
    (dry_run skip_drift_check skip_quality_check post_diagram : bool)
    : Eff World SyncResult :=
  guarded "confluence" page_id
    (confluence_body page_id dry_run skip_drift_check skip_quality_check
       post_diagram).

Definition sync_jira_issue (issue_key : string)
    (dry_run skip_drift_check : bool) : Eff World SyncResult :=
  guarded "jira" issue_key (jira_body issue_key dry_run skip_drift_check).

(** The nested [sync_source] of [batch_sync], also the body of its
    sequential loop. *)
Definition sync_source (dry_run : bool) (source : string * string)
    : Eff World SyncResult :=
  if bool_decide (source.1 = "confluence")
  then sync_confluence_page source.2 dry_run false false false
  else sync_jira_issue source.2 dry_run false.

Definition sources (confluence_pages jira_issues : option (list string))
    : list (string * string) :=
  map (pair "confluence") (default [] confluence_pages)
  ++ map (pair "jira") (default [] jira_issues).

(** One round of the collecting loop. *)
Definition tally (b : BatchSyncResult) (r : SyncResult) : BatchSyncResult :=
  mkBatch (total_sources b)
    (if success r then S (successful b) else successful b)
    (if success r then failed b else S (failed b))
    (results b ++ [r]).

(** Sequential execution: a job that raises ends the batch. *)
Fixpoint run_sequential (dry_run : bool) (srcs : list (string * string))
    (b : BatchSyncResult) : Eff World BatchSyncResult :=
  match srcs with
  | [] => ret b
  | s :: srcs' =>
      let* r := sync_source dry_run s in
      run_sequential dry_run srcs' (tally b r)
  end.

(** Parallel execution. Every submitted job runs; the model takes the
    schedule in which the pool runs them one after the other in
    submission order. A future holds the job's result or its exception. *)
Fixpoint submit_all (dry_run : bool) (srcs : list (string * string))
    : World → list (result SyncResult) * World :=
  λ w, match srcs with
       | [] => ([], w)
       | s :: srcs' =>
           let (future, w') := sync_source dry_run s w in
           let (futures, w'') := submit_all dry_run srcs' w' in
           (future :: futures, w'')
       end.

(** [future.result()] returns the result or raises the job's exception. *)
Fixpoint collect (futures : list (result SyncResult)) (b : BatchSyncResult)
    : result BatchSyncResult :=
  match futures with
  | [] => ok b
  | future :: futures' =>
      let? r := future in collect futures' (tally b r)
  end.

Definition batch_sync (confluence_pages jira_issues : option (list string))
    (dry_run parallel : bool) : Eff World BatchSyncResult :=
  let srcs := sources confluence_pages jira_issues in
  let batch_result := mkBatch (length srcs) 0 0 [] in
  match srcs with
  | [] => ret batch_result
  | _ :: _ =>
      if parallel
      then λ w, let (futures, w') := submit_all dry_run srcs w in
                (collect futures batch_result, w')
      else run_sequential dry_run srcs batch_result
  end.

(** The two kinds of sync job with their arguments, for statements that
    hold for both. *)
Inductive Job : Type :=
| ConfluencePage (page_id : string)
    (dry_run skip_drift_check skip_quality_check post_diagram : bool)
| JiraIssue (issue_key : string) (dry_run skip_drift_check : bool).

Definition run_job (j : Job) : Eff World SyncResult :=
  match j with
  | ConfluencePage page_id dry_run skip_drift skip_quality post =>
      sync_confluence_page page_id dry_run skip_drift skip_quality post
  | JiraIssue issue_key dry_run skip_drift =>
      sync_jira_issue issue_key dry_run skip_drift
  end.

Definition job_body (j : Job) : Eff JobState unit :=
  match j with
  | ConfluencePage page_id dry_run skip_drift skip_quality post =>
      confluence_body page_id dry_run skip_drift skip_quality post
  | JiraIssue issue_key dry_run skip_drift =>
      jira_body issue_key dry_run skip_drift
  end.

Definition job_source (j : Job) : string * string :=
  match j with
  | ConfluencePage page_id _ _ _ _ => ("confluence", page_id)
  | JiraIssue issue_key _ _ => ("jira", issue_key)
  end.

(** The job that [batch_sync] runs for a source. *)
Definition job_of (dry_run : bool) (source : string * string) : Job :=
  if bool_decide (source.1 = "confluence")
  then ConfluencePage source.2 dry_run false false false
  else JiraIssue source.2 dry_run false.

(** The watcher call of a job, what it returns, and the exception that
    the job raises when it returns [None]. *)
Definition fetch_call (j : Job) : Call :=
  match j with
  | ConfluencePage page_id _ _ _ _ => get_page page_id
  | JiraIssue issue_key _ _ => get_issue issue_key
  end.

Definition fetched (j : Job) : option Document :=
  match j with
  | ConfluencePage page_id _ _ _ _ => confluence_get_page self page_id
  | JiraIssue issue_key _ _ => jira_get_issue self issue_key
  end.

Definition fetch_error (j : Job) : exn :=
  match j with
  | ConfluencePage page_id _ _ _ _ =>
      ValueError ("Failed to fetch page " +:+ page_id)
  | JiraIssue issue_key _ _ =>
      ValueError ("Failed to fetch issue " +:+ issue_key)
  end.

(** The calls logged when the start of a job is audited, and when its
    failure with exception [e] is recorded. *)
Definition start_calls (j : Job) : list Call :=
  if has_audit self
  then [audit_sync_start (job_source j).1 (job_source j).2] else [].

Definition failure_calls (j : Job) (e : exn) : list Call :=
  (if has_audit self
   then [audit_sync_failed (job_source j).1 (job_source j).2 (str_exn e)]
   else [])
  ++ (if has_notifications self
      then [notify_sync_failed (job_source j).1 (job_source j).2 (str_exn e)]
      else []).

(** The result of a job whose fetch fails. *)
Definition failed_fetch (j : Job) : SyncResult :=
  mkSyncResult false (job_source j).1 (job_source j).2 0 0 0 0 0
    [str_exn (fetch_error j)] [].

(** The state of a job when it reaches the vector-store and lineage
    blocks, from the state [st] in which its [try] block started. *)
Definition before_lineage (j : Job) (tabs : list Table) (st : JobState)
    : JobState :=
  (mkWorld (lineage st.1)
     (calls st.1 ++ [fetch_call j; load_prompt "extract_schema.txt";
                     extract_schema (job_source j).1 (job_source j).2]),
   set_tables_found (length tabs) st.2).

(** The job returned a result, and the result says success. *)
Definition succeeded (out : result SyncResult) : bool :=
  match out with
  | inr r => success r
  | inl _ => false
  end.

(** The sinks accept every call of a list. *)
Definition sink (c : Call) : result unit :=
  match c with
  | audit_sync_start _ _ | audit_sync_complete _ _ _ _
  | audit_sync_failed _ _ _ | audit_comment_written _ _
  | audit_dbt_generated _ _ => audit self c
  | notify_sync_complete _ _ _ _ | notify_sync_failed _ _ _
  | notify_drift_detected _ _ _ | notify_quality_failed _ _ _ =>
      notifications self c
  | _ => ok tt
  end.

Definition accepted (cs : list Call) : Prop :=
  Forall (λ c, sink c = inr tt) cs.
End Job.

(** *** What a job can observe of the world

    The answers of the collaborators do not depend on the world; of the
    lineage tracker a job only observes whether it exists and whether its
    files can be written. *)

Definition same_disk (w w' : World) : Prop :=
  Lineage.writable <$> lineage w = Lineage.writable <$> lineage w'.

Definition alike (st st' : JobState) : Prop :=
  same_disk st.1 st'.1 ∧ st.2 = st'.2.

(** A step of a job that returns the same outcome from states that look
    alike, leaves states that look alike, and keeps the disk as it is. *)
Definition stable {A} (m : Eff JobState A) : Prop :=
  ∀ st st', alike st st' →
    (m st).1 = (m st').1 ∧ alike (m st).2 (m st').2
    ∧ same_disk st.1 (m st).2.1.

(** A tracker operation that does not change [writable]. *)
Definition keeps_flag {A} (m : Eff Lineage.LineageTracker A) : Prop :=
  ∀ t, Lineage.writable (m t).2 = Lineage.writable t.

(** How the loop of the lineage block ends when the files are writable:
    as the reading of the table names ends. *)
Fixpoint names_present (tabs : list Table) : result unit :=
  match tabs with
  | [] => inr tt
  | table :: tabs' =>
      match table_name table with
      | Some _ => names_present tabs'
      | None => inl (KeyError "table_name")
      end
  end.

End Orchestrator.

(** ** Concrete graphs, snapshots and orchestrators used in the examples *)

Module Fixtures.
Import Py.

Definition node (k : string) : Lineage.LineageNode :=
  Lineage.mkNode k "table" k [] "2024-01-01T00:00:00".

Definition edge (a b rel : string) : Lineage.LineageEdge :=
  Lineage.mkEdge a b rel [] "2024-01-01T00:00:00".

Definition graph_of (ks : list string) (es : list Lineage.LineageEdge)
    : Lineage.LineageTracker :=
  Lineage.mkTracker (foldr (λ k m, <[k := node k]> m) ∅ ks) es None None true.

(** A -> B -> D and A -> C -> D: D is reachable from A along two paths. *)
Definition diamond : Lineage.LineageTracker :=
  graph_of ["A"; "B"; "C"; "D"]
    [edge "A" "B" "reads_from"; edge "A" "C" "reads_from";
     edge "B" "D" "reads_from"; edge "C" "D" "derives_from"].

(** The cycle A -> B -> C -> A. *)
Definition cycle : Lineage.LineageTracker :=
  graph_of ["A"; "B"; "C"]
    [edge "A" "B" "reads_from"; edge "B" "C" "reads_from";
     edge "C" "A" "reads_from"].

(** A graph that already holds an edge from A to B. *)
Definition linked : Lineage.LineageTracker :=
  graph_of ["A"; "B"] [edge "A" "B" "r0"].

Definition unlinked : Lineage.LineageTracker := graph_of ["A"; "B"] [].

(** The documentation describes CUSTOMERS(id varchar, email varchar); the
    warehouse holds CUSTOMERS(ID INTEGER, EMAIL STRING, NAME TEXT). *)
Definition column (n ty : string) : Schema.Column :=
  Schema.mkColumn (Some n) (Some ty) None None.

Definition documented_customers : Schema.Table :=
  Schema.mkTable (Some "customers") None (Some "Customer master data")
    (Some [column "id" "varchar"; column "email" "VARCHAR"]).

Definition live_customers : Schema.Table :=
  Schema.mkTable (Some "CUSTOMERS") None None
    (Some [column "ID" "INTEGER"; column "EMAIL" "STRING"; column "NAME" "TEXT"]).

Definition documented : Schema.Snapshot :=
  Schema.mkSnapshot (Some [documented_customers]).

Definition live : Schema.Snapshot := Schema.mkSnapshot (Some [live_customers]).

Definition live_client : list string → result Schema.Snapshot := λ _, inr live.

Definition drift_report : Drift.DriftReport :=
  Eval vm_compute in
    match Drift.compare live_client documented None with
    | inr r => r
    | inl _ => Drift.with_totals 0 0 []
    end.




(** An orchestrator with every optional component enabled. Page and issue
    "bad" cannot be fetched; the extraction of source "empty" finds no
    table, every other one finds [documented]. *)
Definition source_document : Orchestrator.Document :=
  Orchestrator.mkDocument "text of the source" "Customers"
    "https://wiki.example/customers".

Definition fetch (source_id : string) : option Orchestrator.Document :=
  if bool_decide (source_id = "bad") then None else Some source_document.

Definition extraction (content source_type source_id : string)
    : result (option Schema.Snapshot) :=
  if bool_decide (source_id = "empty")
  then inr (Some (Schema.mkSnapshot (Some [])))
  else inr (Some documented).

Definition agent_with (audit : Orchestrator.Call → result unit)
    : Orchestrator.Orchestrator :=
  Orchestrator.mkOrchestrator true true true true true true true true
    fetch fetch (λ _, inr "prompt") extraction (λ _ _ _, inr tt)
    live_client (λ _, inr (Orchestrator.mkSfResult 1 2 []))
    (λ _, inr tt) (λ _, inr (Some "er_diagram.mmd", Some "erDiagram"))
    (λ _, inr tt) (λ _, inr (Orchestrator.mkQuality 3 3 0))
    audit (λ _, inr tt) "2024-01-01T00:00:00".

Definition agent : Orchestrator.Orchestrator := agent_with (λ _, inr tt).

(** The audit database rejects the record of a failed sync. *)
Definition audit_down (c : Orchestrator.Call) : result unit :=
  match c with
  | Orchestrator.audit_sync_failed _ _ _ => inl (OSError "database is locked")
  | _ => inr tt
  end.

Definition world : Orchestrator.World :=
  Orchestrator.mkWorld (Some (Lineage.init None None true)) [].

(** The lineage files cannot be written. *)
Definition world_read_only : Orchestrator.World :=
  Orchestrator.mkWorld (Some (Lineage.init None None false)) [].

(** Two jobs, and the states that the second one goes through when the
    lineage files cannot be written. *)
Definition empty_page : Orchestrator.Job :=
  Orchestrator.ConfluencePage "empty" false false false false.

Definition customers_page : Orchestrator.Job :=
  Orchestrator.ConfluencePage "42" false false false false.

Definition before_block : Orchestrator.JobState :=
  Orchestrator.before_lineage customers_page (Schema.tables_or_empty documented)
    (Orchestrator.mkWorld (Orchestrator.lineage world_read_only)
       (Orchestrator.calls world_read_only
        ++ Orchestrator.start_calls agent customers_page),
     Orchestrator.new_result "confluence" "42").

Definition indexed : Orchestrator.JobState :=
  (Orchestrator.index_document agent "confluence" "42" source_document
     (Schema.tables_or_empty documented) before_block).2.

Definition tracked : Orchestrator.JobState :=
  (Orchestrator.track_lineage agent "confluence" "42" source_document
     (Schema.tables_or_empty documented) indexed).2.

(** The results of the first and third job of the batch, each run alone. *)
Definition first_alone : Orchestrator.SyncResult :=
  Eval vm_compute in
    match (Orchestrator.sync_source agent false ("confluence", "1") world).1 with
    | inr r => r
    | inl _ => Orchestrator.new_result "" ""
    end.

Definition third_alone : Orchestrator.SyncResult :=
  Eval vm_compute in
    match (Orchestrator.sync_source agent false ("jira", "J-3") world).1 with
    | inr r => r
    | inl _ => Orchestrator.new_result "" ""
    end.
End Fixtures.

(** ** The rest of the lineage tracker ([src/agent/lineage_tracker.py]) *)

Module LineageApi.
Import Py Lineage.

Definition column_key (database schema table_name column_name : string) : string :=
  upper ("column:" +:+ database +:+ "." +:+ schema +:+ "." +:+ table_name
         +:+ "." +:+ column_name).

Definition transform_key (transformation_type name : string) : string :=
  "transform:" +:+ transformation_type +:+ ":" +:+ name.

(** [add_column]: the node is stored, the edge to the parent table is added
    through [add_edge], then the files are written. One reading of the clock
    stands for the readings of one method call. *)
Definition add_column (now : string) (table_name column_name : string)
    (data_type : option string) (database schema : string)
    : Eff LineageTracker string :=
  let node_id := column_key database schema table_name column_name in
  let table_id := table_key database schema table_name in
  modify (with_nodes (insert node_id
    (mkNode node_id "column" (upper column_name)
       [("table", Some (upper table_name)); ("data_type", data_type);
        ("database", Some database); ("schema", Some schema)] now))) >>
  add_edge now node_id table_id "belongs_to" None >>
  _save >>
  ret node_id.

Definition add_transformation (now : string) (name transformation_type : string)
    (file_path : option string) : Eff LineageTracker string :=
  let node_id := transform_key transformation_type name in
  modify (with_nodes (insert node_id
    (mkNode node_id "transformation" name
       [("transformation_type", Some transformation_type);
        ("file_path", file_path)] now))) >>
  _save >>
  ret node_id.

Definition link_transformation (now : string) (transformation_name : string)
    (source_tables target_tables : list string) (transformation_type : string)
    : Eff LineageTracker unit :=
  let transform_id := transform_key transformation_type transformation_name in
  for_each source_tables (λ source,
    add_edge now transform_id (table_key "ANALYTICS" "PUBLIC" source)
      "reads_from" None) >>
  for_each target_tables (λ target,
    add_edge now (table_key "ANALYTICS" "PUBLIC" target) transform_id
      "derives_from" None).

(** The dict returned by [impact_analysis]. *)
Record Impact : Type := mkImpact {
  impact_table : string;
  total_impacted : nat;
  impacted_tables : list Dep;
  impacted_transformations : list Dep;
  impacted_documents : list Dep
}.

Definition of_type (ty : string) (d : Dep) : bool := bool_decide (dep_type d = ty).

(** [impact_analysis], with the default depth 3 of [get_downstream]. *)
Definition impact_analysis (t : LineageTracker) (table_name database schema : string)
    : option Impact :=
  downstream ← get_downstream t (table_key database schema table_name) 3;
  Some (mkImpact table_name (length downstream)
          (List.filter (of_type "table") downstream)
          (List.filter (of_type "transformation") downstream)
          (List.filter (of_type "document") downstream)).

(** The counting loops of [get_stats]:
    [counts[k] = counts.get(k, 0) + 1] for every key of the list. *)
Definition count_key (counts : gmap string nat) (k : string) : gmap string nat :=
  <[k := (default 0 (counts !! k) + 1)%nat]> counts.

Definition tally_keys (ks : list string) : gmap string nat :=
  foldl count_key ∅ ks.

Record Stats : Type := mkStats {
  total_nodes : nat;
  total_edges : nat;
  nodes_by_type : gmap string nat;
  edges_by_relationship : gmap string nat
}.

Definition get_stats (t : LineageTracker) : Stats :=
  mkStats (size (nodes t)) (length (edges t))
    (tally_keys (node_type <$> (map_to_list (nodes t)).*2))
    (tally_keys (relationship <$> edges t)).

(** The sum of the counts of one dict of [get_stats]. *)
Definition sum_counts (counts : gmap string nat) : nat :=
  map_fold (λ _ c acc, (c + acc)%nat) 0%nat counts.

(** The node types the tracker's own methods create entries for in
    [impact_analysis]. *)
Definition impact_type (ty : string) : Prop :=
  ty = "table" ∨ ty = "transformation" ∨ ty = "document".

(** The methods that change the graph, as values, so that a property can be
    stated for every sequence of calls. *)
Inductive Method : Type :=
| AddTable (table_name database schema : string) (owner description : option string)
| AddColumn (table_name column_name : string) (data_type : option string)
    (database schema : string)
| AddDocument (source_type source_id title : string) (url : option string)
| AddTransformation (name transformation_type : string) (file_path : option string)
| AddEdge (source target relationship : string)
    (metadata : option (list (string * option string)))
| LinkTableToDocument (table_name source_type source_id database schema : string)
| LinkTransformation (transformation_name : string)
    (source_tables target_tables : list string) (transformation_type : string).

Definition invoke_method (now : string) (m : Method) : Eff LineageTracker unit :=
  match m with
  | AddTable n db sc o d => add_table now n db sc o d >> ret tt
  | AddColumn n c ty db sc => add_column now n c ty db sc >> ret tt
  | AddDocument st sid ti u => add_document now st sid ti u >> ret tt
  | AddTransformation n ty fp => add_transformation now n ty fp >> ret tt
  | AddEdge a b rel md => add_edge now a b rel md
  | LinkTableToDocument n st sid db sc => link_table_to_document now n st sid db sc
  | LinkTransformation n srcs tgts ty => link_transformation now n srcs tgts ty
  end.

(** The tracker after a sequence of calls, each with its clock reading; a
    call that raises leaves the tracker as it was when the exception was
    raised, and the caller goes on. *)
Definition after_calls (ms : list (string * Method)) (t : LineageTracker)
    : LineageTracker :=
  foldl (λ t m, (invoke_method m.1 m.2 t).2) t ms.

(** At most one edge for every ordered pair of node ids. *)
Definition pairs_unique (t : LineageTracker) : Prop :=
  NoDup ((λ e, (source_id e, target_id e)) <$> edges t).

(** The files hold what memory holds: loading them again gives the same
    graph. *)
Definition persisted (t : LineageTracker) : Prop :=
  nodes (init (nodes_file t) (edges_file t) (writable t)) = nodes t
  ∧ edges (init (nodes_file t) (edges_file t) (writable t)) = edges t.

(** An entry of a traversal result that reports the far end of an edge of
    the graph, with the data of the node stored for it, at a depth between
    [lo] and [hi]. *)
Definition entry_of (far : LineageEdge → string) (t : LineageTracker)
    (lo hi : Z) (d : Dep) : Prop :=
  lo ≤ dep_depth d ≤ hi
  ∧ ∃ e n, e ∈ edges t ∧ nodes t !! far e = Some n
           ∧ d = mkDep (node_id n) (node_name n) (node_type n)
                   (relationship e) (dep_depth d).

(** A computation on the tracker that keeps the invariant [I], whether it
    returns or raises. *)
Definition preserves (I : LineageTracker → Prop) {A} (m : Eff LineageTracker A)
    : Prop :=
  ∀ t, I t → I (m t).2.

(** A computation that, when it returns normally, leaves the files equal to
    memory; and one that does so when they were equal before. *)
Definition lands_persisted {A} (m : Eff LineageTracker A) : Prop :=
  ∀ t a t', m t = (inr a, t') → persisted t'.

Definition keeps_persisted {A} (m : Eff LineageTracker A) : Prop :=
  ∀ t a t', persisted t → m t = (inr a, t') → persisted t'.

End LineageApi.
(** ** The warehouse client ([src/agent/snowflake_client.py]) *)

Module Snowflake.
Import Py Schema.

(** The rows that the queries on [INFORMATION_SCHEMA] select. A comment can
    be NULL. *)
Record TableRow : Type := mkTableRow {
  TABLE_NAME : string;
  TABLE_COMMENT : option string
}.

Record ColumnRow : Type := mkColumnRow {
  COLUMN_NAME : string;
  DATA_TYPE : string;
  IS_NULLABLE : string;
  COLUMN_COMMENT : option string
}.

(** The client: its configuration and its connection. Each query of the
    code is a function of the values spliced into its text (database,
    schema, table and column name), so the connection answers on these
    values; [COMMENT] statements are passed as text. The answers do not
    depend on the statements sent before. *)
Record Client : Type := mkClient {
  database : string;
  schema : string;
  dry_run : bool;
  select_table : string → string → string → result (list TableRow);
  select_columns : string → string → string → result (list ColumnRow);
  count_tables : string → string → string → result nat;
  count_columns : string → string → string → string → result nat;
  execute_comment : string → result unit;
  commit : result unit
}.

(** [value.replace("'", "''")] *)
Fixpoint double_quotes (value : string) : string :=
  match value with
  | EmptyString => EmptyString
  | String c rest =>
      if bool_decide (c = "'"%char)
      then String "'" (String "'" (double_quotes rest))
      else String c (double_quotes rest)
  end.

Definition _escape_string (value : option string) : string :=
  match value with
  | None => ""
  | Some v => double_quotes v
  end.

(** [s.replace("''", "'")], the inverse reading: pairs of quotes are taken
    from left to right. *)
Fixpoint single_quotes (s : string) : string :=
  match s with
  | EmptyString => EmptyString
  | String c rest =>
      match rest with
      | String c' rest' =>
          if bool_decide (c = "'"%char) && bool_decide (c' = "'"%char)
          then String "'" (single_quotes rest')
          else String c (single_quotes rest)
      | EmptyString => String c EmptyString
      end
  end.

(** The number of quote characters of a string. *)
Fixpoint quotes (s : string) : nat :=
  match s with
  | EmptyString => 0
  | String c rest => (if bool_decide (c = "'"%char) then 1 else 0) + quotes rest
  end.

Section Client.
Variable self : Client.

(** [schema_name or self.schema] *)
Definition schema_or_default (schema_name : option string) : string :=
  match schema_name with
  | Some s => if bool_decide (s = "") then schema self else s
  | None => schema self
  end.

(** [result[0] > 0] on the one row of a [COUNT( * )] query. *)
Definition _table_exists (table_name : string) (schema_name : option string)
    : result bool :=
  let? n := count_tables self (database self) (schema_or_default schema_name)
              (upper table_name) in
  ok (bool_decide (0 < n)%nat).

Definition _column_exists (table_name column_name : string)
    (schema_name : option string) : result bool :=
  let? n := count_columns self (database self) (schema_or_default schema_name)
              (upper table_name) (upper column_name) in
  ok (bool_decide (0 < n)%nat).

(** *** [get_existing_schema] *)

Definition column_of (col : ColumnRow) : Column :=
  mkColumn (Some (COLUMN_NAME col)) (Some (DATA_TYPE col))
    (Some (bool_decide (IS_NULLABLE col = "YES")))
    (Some (default "" (COLUMN_COMMENT col))).

Definition table_of (table_row : TableRow) (cols : list ColumnRow) : Table :=
  mkTable (Some (TABLE_NAME table_row)) None
    (Some (default "" (TABLE_COMMENT table_row)))
    (Some (column_of <$> cols)).

(** The loop over [table_names]: [fetchone()] is the first row, a name
    without a row is passed over, an exception of a query ends the call. *)
Fixpoint fetch_tables (table_names : list string) : result (list Table) :=
  match table_names with
  | [] => ok []
  | table_name :: rest =>
      let? rows := select_table self (database self) (schema self)
                     (upper table_name) in
      match head rows with
      | None => fetch_tables rest
      | Some table_row =>
          let? cols := select_columns self (database self) (schema self)
                         (upper table_name) in
          let? more := fetch_tables rest in
          ok (table_of table_row cols :: more)
      end
  end.

Definition get_existing_schema (table_names : list string) : result Snapshot :=
  let? tables := fetch_tables table_names in
  ok (mkSnapshot (Some tables)).

(** *** [write_comments] *)

(** A table dict as [write_comments] reads it: the fields of the drift
    detector's table and ["schema_name"], which can be absent, null (what
    [model_dump] of the extractor writes when the document names no schema)
    or a string. *)
Record DocTable : Type := mkDocTable {
  fields : Table;
  schema_name : option (option string)
}.

(** The result dict; ["error"] is set by the outer handler only. *)
Record WriteResult : Type := mkWriteResult {
  success : bool;
  tables_updated : nat;
  columns_updated : nat;
  errors : list string;
  skipped : list string;
  error : option string
}.

(** What one call does: the result dict, the [COMMENT] statements passed to
    [cursor.execute], in order, and whether [conn.commit()] returned. *)
Record Session : Type := mkSession {
  outcome : WriteResult;
  sent : list string;
  committed : bool
}.

(** What can be raised inside [write_comments]: an exception of the
    connection or of a subscript, or the [AttributeError] of [None.upper()].
    The handlers read [str(e)] only. *)
Inductive Raised : Type :=
| Exn (e : exn)
| AttributeError (msg : string).

Definition str_raised (e : Raised) : string :=
  match e with
  | Exn e => str_exn e
  | AttributeError msg => msg
  end.

Definition M (A : Type) : Type := Session → (Raised + A) * Session.

Definition mret {A} (a : A) : M A := λ s, (inr a, s).
Definition mthrow {A} (e : Raised) : M A := λ s, (inl e, s).
Definition mbind {A B} (m : M A) (k : A → M B) : M B :=
  λ s, match m s with
       | (inl e, s') => (inl e, s')
       | (inr a, s') => k a s'
       end.
Definition mraise_or {A} (r : Raised + A) : M A := λ s, (r, s).
Definition mlift {A} (r : result A) : M A :=
  mraise_or (match r with inl e => inl (Exn e) | inr a => inr a end).
Definition mtry {A} (body : M A) (handler : Raised → M A) : M A :=
  λ s, match body s with
       | (inl e, s') => handler e s'
       | (inr a, s') => (inr a, s')
       end.
Fixpoint mfor {A} (xs : list A) (body : A → M unit) : M unit :=
  match xs with
  | [] => mret tt
  | x :: xs' => mbind (body x) (λ _, mfor xs' body)
  end.

Definition update (f : WriteResult → WriteResult) : M unit :=
  λ s, (inr tt, mkSession (f (outcome s)) (sent s) (committed s)).

Definition table_done (r : WriteResult) : WriteResult :=
  mkWriteResult (success r) (S (tables_updated r)) (columns_updated r)
    (errors r) (skipped r) (error r).
Definition column_done (r : WriteResult) : WriteResult :=
  mkWriteResult (success r) (tables_updated r) (S (columns_updated r))
    (errors r) (skipped r) (error r).
Definition add_error (msg : string) (r : WriteResult) : WriteResult :=
  mkWriteResult (success r) (tables_updated r) (columns_updated r)
    (errors r ++ [msg]) (skipped r) (error r).
Definition skip (msg : string) (r : WriteResult) : WriteResult :=
  mkWriteResult (success r) (tables_updated r) (columns_updated r)
    (errors r) (skipped r ++ [msg]) (error r).
Definition fail_with (msg : string) (r : WriteResult) : WriteResult :=
  mkWriteResult false (tables_updated r) (columns_updated r)
    (errors r) (skipped r) (Some msg).

(** [cursor.execute(sql)] for a [COMMENT] statement. *)
Definition execute (sql : string) : M unit :=
  λ s, (match execute_comment self sql with
        | inl e => inl (Exn e)
        | inr _ => inr tt
        end,
        mkSession (outcome s) (sent s ++ [sql]) (committed s)).

(** [conn.commit()] *)
Definition do_commit : M unit :=
  λ s, match commit self with
       | inl e => (inl (Exn e), s)
       | inr _ => (inr tt, mkSession (outcome s) (sent s) true)
       end.

Definition full_name (table_schema table_name : string) : string :=
  database self +:+ "." +:+ table_schema +:+ "." +:+ table_name.

Definition comment_on_table (full_table_name table_desc : string) : string :=
  "COMMENT ON TABLE " +:+ full_table_name +:+ " IS '" +:+ table_desc +:+ "'".

Definition comment_on_column (full_table_name column_name column_desc : string)
    : string :=
  "COMMENT ON COLUMN " +:+ full_table_name +:+ "." +:+ column_name +:+ " IS '"
  +:+ column_desc +:+ "'".

(** [table.get("schema_name", self.schema).upper()] *)
Definition table_schema_of (table : DocTable) : Raised + string :=
  match schema_name table with
  | None => inr (upper (schema self))
  | Some None => inl (AttributeError "'NoneType' object has no attribute 'upper'")
  | Some (Some s) => inr (upper s)
  end.

(** The body of the loop over the columns of a table. *)
Definition write_column (table_name table_schema full_table_name : string)
    (column : Column) : M unit :=
  mbind (mlift (subscript "column_name" (column_name column))) (λ n,
  let column_name := upper n in
  let column_desc := _escape_string (column_description column) in
  if bool_decide (column_desc = "") then mret tt
  else
    mbind (mlift (_column_exists table_name column_name (Some table_schema)))
      (λ found,
    if negb found then
      update (skip ("Column " +:+ table_name +:+ "." +:+ column_name
                    +:+ " does not exist"))
    else if dry_run self then mret tt
    else
      mtry
        (mbind (execute (comment_on_column full_table_name column_name column_desc))
           (λ _, update column_done))
        (λ e, update (add_error ("Column " +:+ table_name +:+ "." +:+ column_name
                                 +:+ ": " +:+ str_raised e))))).

(** The table comment of the loop over the tables. *)
Definition write_table_comment (table_name full_table_name table_desc : string)
    : M unit :=
  if bool_decide (table_desc = "") then mret tt
  else if dry_run self then mret tt
  else
    mtry
      (mbind (execute (comment_on_table full_table_name table_desc))
         (λ _, update table_done))
      (λ e, update (add_error ("Table " +:+ table_name +:+ ": " +:+ str_raised e))).

(** The body of the loop over the tables. *)
Definition write_table (table : DocTable) : M unit :=
  mbind (mlift (subscript "table_name" (table_name (fields table)))) (λ n,
  let table_name := upper n in
  mbind (mraise_or (table_schema_of table)) (λ table_schema,
  let full_table_name := full_name table_schema table_name in
  mbind (mlift (_table_exists table_name (Some table_schema))) (λ found,
  if negb found then
    update (skip ("Table " +:+ full_table_name +:+ " does not exist"))
  else
    mbind (write_table_comment table_name full_table_name
             (_escape_string (description (fields table)))) (λ _,
    mfor (columns_or_empty (fields table))
      (write_column table_name table_schema full_table_name))))).

Definition fresh : Session :=
  mkSession (mkWriteResult true 0 0 [] [] None) [] false.

(** [write_comments]. Opening the connection and the cursor, before the
    [try] block, is taken to succeed; no exception leaves the [try] block,
    so the [retry] decorator runs the body once. *)
Definition write_comments (schema : option (list DocTable)) : Session :=
  (mtry
     (mbind (mfor (default [] schema) write_table)
        (λ _, if dry_run self then mret tt else do_commit))
     (λ e, update (fail_with (str_raised e)))
     fresh).2.

(** The statements that [write_comments] may send for a table: the comment
    on a table that the existence check found and whose description is not
    empty, and the comments on those of its columns that the check found and
    whose description is not empty. *)
Definition statement_for (table : DocTable) (sql : string) : Prop :=
  ∃ n table_schema,
    table_name (fields table) = Some n
    ∧ table_schema_of table = inr table_schema
    ∧ _table_exists (upper n) (Some table_schema) = inr true
    ∧ ((_escape_string (description (fields table)) ≠ ""
        ∧ sql = comment_on_table (full_name table_schema (upper n))
                  (_escape_string (description (fields table))))
       ∨ ∃ column c,
           column ∈ columns_or_empty (fields table)
           ∧ column_name column = Some c
           ∧ _escape_string (column_description column) ≠ ""
           ∧ _column_exists (upper n) (upper c) (Some table_schema) = inr true
           ∧ sql = comment_on_column (full_name table_schema (upper n)) (upper c)
                     (_escape_string (column_description column))).

(** A step of the call that keeps a property of the session, whether it
    returns or raises. *)
Definition keeps (P : Session → Prop) {A} (m : M A) : Prop :=
  ∀ s, P s → P (m s).2.

(** The bookkeeping of a call in progress. *)
Definition in_progress (s : Session) : Prop :=
  success (outcome s) = true ∧ error (outcome s) = None ∧ committed s = false
  ∧ length (sent s)
    = (tables_updated (outcome s) + columns_updated (outcome s)
       + length (errors (outcome s)))%nat
  ∧ (dry_run self = true → sent s = []).

End Client.

(** The documented snapshot that the drift detector reads from the dict
    passed to [write_comments]. *)
Definition documented (schema : option (list DocTable)) : Snapshot :=
  mkSnapshot (map fields <$> schema).

(** A connection that answers the table query for a name with rows of that
    name only. *)
Definition answers_by_name (self : Client) : Prop :=
  ∀ n rows table_row,
    select_table self (database self) (schema self) n = inr rows →
    head rows = Some table_row → TABLE_NAME table_row = n.

End Snowflake.
(** ** Properties of a running job ([src/agent/orchestrator.py]) *)

Module Pipeline.
Import Py Schema Orchestrator.

(** A step of a job that keeps a property of the job's state, whether it
    returns or raises; and a step that establishes a property when it
    returns. *)
Definition holds (P : JobState → Prop) {A} (m : Eff JobState A) : Prop :=
  ∀ st, P st → P (m st).2.

Definition ends (P : JobState → Prop) {A} (m : Eff JobState A) : Prop :=
  ∀ st a st', m st = (inr a, st') → P st'.

(** Two steps that leave the same lineage tracker from the same state. *)
Definition same_lineage {A B} (m1 : Eff JobState A) (m2 : Eff JobState B) : Prop :=
  ∀ st, lineage (m1 st).2.1 = lineage (m2 st).2.1.

(** The [dry_run] argument of a job, and the job with another one. *)
Definition is_dry_run (j : Job) : bool :=
  match j with
  | ConfluencePage _ dry_run _ _ _ => dry_run
  | JiraIssue _ dry_run _ => dry_run
  end.

Definition with_dry_run (dry_run : bool) (j : Job) : Job :=
  match j with
  | ConfluencePage page_id _ skip_drift skip_quality post =>
      ConfluencePage page_id dry_run skip_drift skip_quality post
  | JiraIssue issue_key _ skip_drift => JiraIssue issue_key dry_run skip_drift
  end.

(** The calls of the pipeline steps that come after the [if dry_run:]
    exit: the write to the warehouse, the artifacts, the quality checks
    and the records of completion. *)
Definition after_dry_run_exit (c : Call) : bool :=
  match c with
  | write_comments | audit_comment_written _ _
  | dbt_generate | audit_dbt_generated _ _
  | er_generate | post_diagram_to_page _
  | quality_generate_checks | quality_run_checks _ | notify_quality_failed _ _ _
  | audit_sync_complete _ _ _ _ | notify_sync_complete _ _ _ _ => true
  | _ => false
  end.

(** Since the log was [before], the job made none of these calls and
    counted no update. *)
Definition quiet_since (before : list Call) (st : JobState) : Prop :=
  (∃ new, calls st.1 = before ++ new
          ∧ Forall (λ c, after_dry_run_exit c = false) new)
  ∧ tables_updated st.2 = 0%nat ∧ columns_updated st.2 = 0%nat.

(** What the lineage block of a job leaves in the graph: the node of the
    document, the node of a documented table, and the edge between them. *)
Definition registered_document (t : Lineage.LineageTracker)
    (source_type source_id title : string) : Prop :=
  ∃ node, Lineage.nodes t !! Lineage.doc_key source_type source_id = Some node
          ∧ Lineage.node_type node = "document"
          ∧ Lineage.node_name node = title.

Definition registered_table (t : Lineage.LineageTracker) (table_name : string)
    : Prop :=
  ∃ node, Lineage.nodes t !! Lineage.table_key "ANALYTICS" "PUBLIC" table_name
          = Some node
          ∧ Lineage.node_type node = "table"
          ∧ Lineage.node_name node = upper table_name.

Definition linked_to_document (t : Lineage.LineageTracker)
    (table_name source_type source_id : string) : Prop :=
  ∃ e, e ∈ Lineage.edges t
       ∧ Lineage.source_id e = Lineage.table_key "ANALYTICS" "PUBLIC" table_name
       ∧ Lineage.target_id e = Lineage.doc_key source_type source_id.

(** The source that a result names. *)
Definition identify (r : SyncResult) : string * string :=
  (source_type r, source_id r).

End Pipeline.
(** ** The text report of the drift detector ([generate_report]) *)

Module DriftText.
Import Py Schema Drift.

(** [c * n] for a one-character string. *)
Fixpoint times (n : nat) (c : ascii) : string :=
  match n with
  | O => EmptyString
  | S n' => String c (times n' c)
  end.

Definition newline : string := String (ascii_of_nat 10) EmptyString.

(** [severity.value.upper()] *)
Definition severity_value (s : DriftSeverity) : string :=
  match s with
  | HIGH => "high"
  | MEDIUM => "medium"
  | LOW => "low"
  end.

Definition issue_line (i : DriftIssue) : string := "  - " +:+ message i.

(** One round of the loop over the severities. *)
Definition severity_lines (report : DriftReport) (s : DriftSeverity) : list string :=
  let severity_issues := List.filter (has_severity s) (issues report) in
  match severity_issues with
  | [] => []
  | _ :: _ =>
      (newline +:+ "[" +:+ upper (severity_value s) +:+ "]")
      :: map issue_line severity_issues
  end.

(** The list [lines]; [generated_at] is the clock reading stored in the
    report. *)
Definition report_lines (generated_at : string) (report : DriftReport)
    : list string :=
  [ times 70 "="; "SCHEMA DRIFT REPORT"; "Generated: " +:+ generated_at;
    times 70 "="; "";
    "Documented Tables: " +:+ Orchestrator.str_nat (documented_tables report);
    "Snowflake Tables:  " +:+ Orchestrator.str_nat (snowflake_tables report);
    "";
    "Total Issues:      " +:+ Orchestrator.str_nat (total_issues report);
    "  High Severity:   " +:+ Orchestrator.str_nat (high_severity report);
    "  Medium Severity: " +:+ Orchestrator.str_nat (medium_severity report);
    "  Low Severity:    " +:+ Orchestrator.str_nat (low_severity report);
    "" ]
  ++ match issues report with
     | [] => ["No drift detected. Schema is in sync!"]
     | _ :: _ =>
         [times 70 "-"; "ISSUES:"; times 70 "-"]
         ++ severity_lines report HIGH
         ++ severity_lines report MEDIUM
         ++ severity_lines report LOW
     end.

(** ["\n".join(lines)] *)
Fixpoint join_lines (lines : list string) : string :=
  match lines with
  | [] => ""
  | [l] => l
  | l :: rest => l +:+ newline +:+ join_lines rest
  end.

Definition generate_report (generated_at : string) (report : DriftReport)
    : string :=
  join_lines (report_lines generated_at report).

(** The lines of the report that list an issue: those that start with
    two spaces, a dash and a space. *)
Definition lists_an_issue (line : string) : bool :=
  bool_decide (Orchestrator.prefix 4 line = "  - ").

End DriftText.
(** ** More examples *)

Module Examples.
Import Py.

(** A tracker with no files yet, and a sequence of calls of every method,
    the last two for the same pair of nodes. *)
Definition fresh_tracker : Lineage.LineageTracker := Lineage.init None None true.

Definition first_call : LineageApi.Method :=
  LineageApi.AddTable "customers" "ANALYTICS" "PUBLIC" None
    (Some "Customer master data").

Definition method_calls : list (string * LineageApi.Method) :=
  [("2024-01-01T00:00:01", first_call);
   ("2024-01-01T00:00:02",
    LineageApi.AddColumn "customers" "id" (Some "NUMBER") "ANALYTICS" "PUBLIC");
   ("2024-01-01T00:00:03",
    LineageApi.AddDocument "confluence" "42" "Customers" None);
   ("2024-01-01T00:00:04",
    LineageApi.LinkTableToDocument "customers" "confluence" "42"
      "ANALYTICS" "PUBLIC");
   ("2024-01-01T00:00:05",
    LineageApi.AddTransformation "stg_customers" "dbt" None);
   ("2024-01-01T00:00:06",
    LineageApi.LinkTransformation "stg_customers" ["customers"]
      ["customers_clean"] "dbt");
   ("2024-01-01T00:00:07", LineageApi.AddEdge "A" "B" "r1" None);
   ("2024-01-01T00:00:08", LineageApi.AddEdge "A" "B" "r2" None)].

(** A warehouse that holds CUSTOMERS(ID NUMBER, EMAIL VARCHAR) in
    ANALYTICS.PUBLIC and nothing else, and that accepts every statement. *)
Definition customers_row : Snowflake.TableRow :=
  Snowflake.mkTableRow "CUSTOMERS" None.

Definition customers_columns : list Snowflake.ColumnRow :=
  [Snowflake.mkColumnRow "ID" "NUMBER" "NO" (Some "Customer id");
   Snowflake.mkColumnRow "EMAIL" "VARCHAR" "YES" None].

Definition is_customers (database schema table_name : string) : bool :=
  bool_decide (database = "ANALYTICS") && bool_decide (schema = "PUBLIC")
  && bool_decide (table_name = "CUSTOMERS").

Definition warehouse_with (dry_run : bool) : Snowflake.Client :=
  Snowflake.mkClient "ANALYTICS" "PUBLIC" dry_run
    (λ d s n, inr (if is_customers d s n then [customers_row] else []))
    (λ d s n, inr (if is_customers d s n then customers_columns else []))
    (λ d s n, inr (if is_customers d s n then 1 else 0)%nat)
    (λ d s n c, inr (if is_customers d s n
                        && (bool_decide (c = "ID") || bool_decide (c = "EMAIL"))
                     then 1 else 0)%nat)
    (λ _, inr tt) (inr tt).

Definition warehouse : Snowflake.Client := warehouse_with false.

Definition existing : Schema.Snapshot :=
  Eval vm_compute in
    match Snowflake.get_existing_schema warehouse ["customers"; "orders"] with
    | inr s => s
    | inl _ => Schema.mkSnapshot None
    end.

(** The documentation describes customers and orders. *)
Definition documented_two : Schema.Snapshot :=
  Schema.mkSnapshot
    (Some [Fixtures.documented_customers;
           Schema.mkTable (Some "orders") None (Some "Orders") None]).

Definition warehouse_report : Drift.DriftReport :=
  Eval vm_compute in
    match Drift.compare (Snowflake.get_existing_schema warehouse)
            documented_two None with
    | inr r => r
    | inl _ => Drift.with_totals 0 0 []
    end.

(** The same documentation as [write_comments] reads it: the first table
    names no schema, the second one has a null ["schema_name"]. *)
Definition customers_entry : Snowflake.DocTable :=
  Snowflake.mkDocTable
    (Schema.mkTable (Some "customers") None (Some "Customer's master data")
       (Some [Schema.mkColumn (Some "id") (Some "NUMBER") None
                (Some "Customer id")]))
    None.

Definition orders_entry : Snowflake.DocTable :=
  Snowflake.mkDocTable
    (Schema.mkTable (Some "orders") None (Some "Orders") None) (Some None).

Definition table_comment : string :=
  "COMMENT ON TABLE ANALYTICS.PUBLIC.CUSTOMERS IS 'Customer''s master data'".

(** A dry run of the page with tables, a page that cannot be fetched, and
    a batch with both. *)
Definition dry_customers_page : Orchestrator.Job :=
  Orchestrator.ConfluencePage "42" true false false false.

Definition bad_page : Orchestrator.Job :=
  Orchestrator.ConfluencePage "bad" false false false false.

Definition bad_result : Orchestrator.SyncResult :=
  Eval vm_compute in
    match (Orchestrator.run_job Fixtures.agent bad_page Fixtures.world).1 with
    | inr r => r
    | inl _ => Orchestrator.new_result "" ""
    end.

Definition batch : Orchestrator.BatchSyncResult :=
  Eval vm_compute in
    match (Orchestrator.batch_sync Fixtures.agent (Some ["1"; "bad"])
             (Some ["J-3"]) false true Fixtures.world).1 with
    | inr b => b
    | inl _ => Orchestrator.mkBatch 0 0 0 []
    end.

End Examples.
(** ** Facts about plain list counting *)

Module CountFacts.
Import Py.

Lemma count_if_app {A} (p : A → bool) l1 l2 :
  count_if p (l1 ++ l2) = (count_if p l1 + count_if p l2)%nat.
Proof. induction l1 as [|x l1 IH]; simpl; [done | rewrite IH; lia]. Qed.

Lemma count_if_split {A} (p q r : A → bool) l :
  (∀ x, p x = true → q x = true → False) →
  (∀ x, p x = true → r x = true) →
  (∀ x, q x = true → r x = true) →
  (count_if p l + count_if q l ≤ count_if r l)%nat.
Proof.
  intros Hd Hp Hq. induction l as [|x l IH]; simpl; [lia|].
  specialize (Hd x). specialize (Hp x). specialize (Hq x).
  destruct (p x); destruct (q x); destruct (r x); simpl; try lia; exfalso;
    first [ by apply Hd | by specialize (Hp eq_refl) | by specialize (Hq eq_refl) ].
Qed.

Lemma count_if_mono {A} (p q : A → bool) l :
  (∀ x, p x = true → q x = true) → (count_if p l ≤ count_if q l)%nat.
Proof.
  intros H. induction l as [|x l IH]; simpl; [lia|].
  specialize (H x). destruct (p x), (q x); try lia; by specialize (H eq_refl).
Qed.

Lemma count_if_filter {A} (p : A → bool) l :
  count_if p l = length (List.filter p l).
Proof. induction l as [|x l IH]; simpl; [done|]. destruct (p x); simpl; lia. Qed.
End CountFacts.

(** ** Facts about the lineage graph *)

Module LineageFacts.
Import Py Lineage CountFacts.

Section TraverseFacts.
Variables near far : LineageEdge → string.
Variable t : LineageTracker.
Variable depth : Z.

Local Abbreviation traverse := (traverse near far t depth).

Lemma for_edges_total body :
  (∀ e st, is_Some (body e st)) → ∀ es st, is_Some (for_edges body es st).
Proof.
  intros Hb es. induction es as [|e es IH]; intros st; simpl; [eauto|].
  destruct (Hb e st) as [st' ->]. apply IH.
Qed.

Lemma for_edges_mono body1 body2 :
  (∀ e st st', body1 e st = Some st' → body2 e st = Some st') →
  ∀ es st st',
    for_edges body1 es st = Some st' → for_edges body2 es st = Some st'.
Proof.
  intros Hb es. induction es as [|e es IH]; intros st st'; simpl; [done|].
  destruct (body1 e st) as [st1|] eqn:E1; [|done].
  rewrite (Hb _ _ _ E1). apply IH.
Qed.

(** The depth guard stops the recursion before the fuel does. *)
Lemma traverse_total fuel : ∀ cur cd st,
  (Z.to_nat (depth - cd + 1) < fuel)%nat → is_Some (traverse fuel cur cd st).
Proof.
  induction fuel as [|fuel IH]; intros cur cd st Hf; [lia|]. simpl.
  destruct (bool_decide (cd > depth)) eqn:Hd; simpl; [eauto|].
  apply bool_decide_eq_false in Hd.
  destruct (bool_decide (cur ∈ st.1)); [eauto|].
  apply for_edges_total. intros e st0.
  destruct (bool_decide (near e = cur)); [|eauto].
  destruct (nodes t !! far e); [|eauto].
  apply IH. lia.
Qed.

Lemma traverse_fuel_S fuel : ∀ cur cd st st',
  traverse fuel cur cd st = Some st' → traverse (S fuel) cur cd st = Some st'.
Proof.
  induction fuel as [|fuel IH]; intros cur cd st st' H; [done|].
  simpl in H. cbn [Lineage.traverse].
  destruct (bool_decide (cd > depth) || bool_decide (cur ∈ st.1)); [done|].
  revert H. apply for_edges_mono. intros e st0 st1.
  destruct (bool_decide (near e = cur)); [|done].
  destruct (nodes t !! far e); [|done]. apply IH.
Qed.

(** More fuel never changes a result. *)
Lemma traverse_fuel_le fuel fuel' cur cd st st' :
  (fuel ≤ fuel')%nat →
  traverse fuel cur cd st = Some st' → traverse fuel' cur cd st = Some st'.
Proof.
  induction 1 as [|m _ IH]; [done|]. intros H. by apply traverse_fuel_S, IH.
Qed.

Lemma run_total fuel node :
  (fuel_for depth ≤ fuel)%nat → is_Some (run near far t depth fuel node).
Proof.
  intros Hf. unfold run.
  destruct (traverse_total fuel node 1 (∅, [])) as [st ->]; [|by eexists].
  unfold fuel_for in Hf. lia.
Qed.

Lemma run_fuel_le fuel fuel' node r :
  (fuel ≤ fuel')%nat →
  run near far t depth fuel node = Some r →
  run near far t depth fuel' node = Some r.
Proof.
  unfold run. intros Hle H.
  destruct (traverse fuel node 1 (∅, [])) as [st|] eqn:E; [|done].
  by rewrite (traverse_fuel_le _ _ _ _ _ _ Hle E).
Qed.

Hypothesis Hkeys : keys_consistent t.

Local Abbreviation extends := (Lineage.extends near far t).

Lemma leads_split x (A B C : gset string) :
  A ## B → A ⊆ C → B ⊆ C →
  (count_if (leads near far x A) (edges t)
   + count_if (leads near far x B) (edges t)
   ≤ count_if (leads near far x C) (edges t))%nat.
Proof.
  intros Hd HA HB. apply count_if_split; unfold leads; intros e;
    rewrite !andb_true_iff, !bool_decide_eq_true; set_solver.
Qed.

Lemma leads_singleton x cur es :
  count_if (λ e, bool_decide (far e = x) && bool_decide (near e = cur)) es
  = count_if (leads near far x {[cur]}) es.
Proof.
  induction es as [|e es IHe]; simpl; [done|].
  rewrite IHe. unfold leads.
  by rewrite (bool_decide_ext (near e = cur) (near e ∈ ({[cur]} : gset string)))
    by set_solver.
Qed.

Lemma extends_refl V R extra : extends V R extra (V, R).
Proof.
  split; [done|]. exists []. rewrite app_nil_r. split; [done|].
  intros x; simpl; lia.
Qed.

Lemma traverse_extends fuel : ∀ cur cd V R st',
  traverse fuel cur cd (V, R) = Some st' → extends V R (λ _, 0%nat) st'.
Proof.
  induction fuel as [|fuel IH]; intros cur cd V R st' H; [done|].
  simpl in H.
  destruct (bool_decide (cd > depth) || bool_decide (cur ∈ V)) eqn:Hg.
  { injection H as <-. apply extends_refl. }
  apply orb_false_iff in Hg as [_ Hcur]. apply bool_decide_eq_false in Hcur.
  (* the loop, started anywhere in the edge list *)
  assert (Hloop : ∀ es V0 R0 st1, cur ∈ V0 →
    for_edges
      (λ edge st,
         if bool_decide (near edge = cur) then
           match nodes t !! far edge with
           | Some node =>
               traverse fuel (far edge) (cd + 1)
                 (st.1, st.2 ++ [mkDep (node_id node) (node_name node)
                                  (node_type node) (relationship edge) cd])
           | None => Some st
           end
         else Some st) es (V0, R0) = Some st1 →
    extends V0 R0
      (λ x, count_if
              (λ e, bool_decide (far e = x) && bool_decide (near e = cur)) es)
      st1).
  { clear H. induction es as [|e es IHes]; intros V0 R0 st1 Hin Hrun;
      simpl in Hrun.
    - injection Hrun as <-. apply extends_refl.
    - destruct (bool_decide (near e = cur)) eqn:Hn; simpl.
      + destruct (nodes t !! far e) as [node|] eqn:Hnode.
        * destruct (traverse fuel (far e) (cd + 1) _) as [[V1 R1]|] eqn:Hrec;
            [|done].
          apply IH in Hrec as [HV1 (Δ1 & HR1 & Hc1)]. simpl in *.
          apply IHes in Hrun as [HV2 (Δ2 & HR2 & Hc2)]; [|set_solver].
          simpl in *. split; [set_solver|].
          exists ([mkDep (node_id node) (node_name node) (node_type node)
                     (relationship e) cd] ++ Δ1 ++ Δ2).
          split. { rewrite HR2, HR1. by rewrite <- !app_assoc. }
          intros x. rewrite !count_if_app. simpl.
          specialize (Hc1 x). specialize (Hc2 x).
          assert (Hsplit := leads_split x (V1 ∖ V0) (st1.1 ∖ V1) (st1.1 ∖ V0)).
          assert (V1 ∖ V0 ## st1.1 ∖ V1) as Hd by set_solver.
          assert (V1 ∖ V0 ⊆ st1.1 ∖ V0) as Hs1 by set_solver.
          assert (st1.1 ∖ V1 ⊆ st1.1 ∖ V0) as Hs2 by set_solver.
          specialize (Hsplit Hd Hs1 Hs2).
          assert (Hrep : reports x (mkDep (node_id node) (node_name node)
                     (node_type node) (relationship e) cd)
                     = bool_decide (far e = x)).
          { unfold reports; simpl. by rewrite (Hkeys _ _ Hnode). }
          rewrite Hrep, Hn.
          destruct (bool_decide (far e = x)); simpl; lia.
        * apply IHes in Hrun as [HV2 (Δ2 & HR2 & Hc2)]; [|done].
          split; [done|]. exists Δ2. split; [done|]. intros x.
          specialize (Hc2 x). destruct (bool_decide (far e = x)); simpl; lia.
      + apply IHes in Hrun as [HV2 (Δ2 & HR2 & Hc2)]; [|done].
        split; [done|]. exists Δ2. split; [done|]. intros x.
        specialize (Hc2 x). simpl. rewrite Hn, andb_false_r. simpl. lia. }
  apply Hloop in H as [HV (Δ & HR & Hc)]; [|set_solver]. simpl in *.
  split; [set_solver|]. exists Δ. split; [done|]. intros x.
  specialize (Hc x). rewrite leads_singleton in Hc.
  assert (Hsplit := leads_split x (st'.1 ∖ ({[cur]} ∪ V)) {[cur]} (st'.1 ∖ V)).
  assert (st'.1 ∖ ({[cur]} ∪ V) ## ({[cur]} : gset string)) as Hd by set_solver.
  assert (st'.1 ∖ ({[cur]} ∪ V) ⊆ st'.1 ∖ V) as Hs1 by set_solver.
  assert (({[cur]} : gset string) ⊆ st'.1 ∖ V) as Hs2 by set_solver.
  specialize (Hsplit Hd Hs1 Hs2). lia.
Qed.

(** A finished traversal reports [x] at most once for each edge that
    leads to [x]. *)
Lemma run_once_per_edge fuel node r x :
  run near far t depth fuel node = Some r →
  (occurrences x r ≤ count_if (λ e, bool_decide (far e = x)) (edges t))%nat.
Proof.
  unfold run. intros H.
  destruct (traverse fuel node 1 (∅, [])) as [st|] eqn:E; [|done].
  injection H as <-.
  apply traverse_extends in E as [_ (Δ & HR & Hc)].
  simpl in HR. rewrite HR. unfold occurrences.
  etransitivity; [apply Hc|]. rewrite Nat.add_0_r.
  apply count_if_mono. intros e. unfold leads.
  rewrite andb_true_iff. tauto.
Qed.
End TraverseFacts.

(** The traversal always returns: the fuel of [get_downstream] and
    [get_upstream] is never exhausted, whatever the graph. *)
Lemma get_downstream_total t node depth : is_Some (get_downstream t node depth).
Proof. by apply run_total. Qed.

Lemma get_upstream_total t node depth : is_Some (get_upstream t node depth).
Proof. by apply run_total. Qed.

(** The cycle of the specification: [get_downstream "A" 5] returns, with B
    and C reported once each (and A itself once, reached from C). *)
Example cycle_downstream :
  dep_id <$> default [] (get_downstream Fixtures.cycle "A" 5) = ["B"; "C"; "A"].
Proof. vm_compute. reflexivity. Qed.

(** C1: the traversal breaks the claim on a diamond. Both functions keep a
    [visited] set for the call, but append the far node of an edge to the
    result before the nested call tests it, so the set bounds the expansion
    and not the reporting: in A -> B -> D, A -> C -> D the node D is
    reported twice, at depth 2, by [get_downstream "A"], and A is reported
    twice by [get_upstream "D"]. *)
Lemma diamond_reported_twice :
  (∃ r, get_downstream Fixtures.diamond "A" 3 = Some r
        ∧ dep_id <$> r = ["B"; "D"; "C"; "D"]
        ∧ dep_depth <$> r = [1; 2; 1; 2]
        ∧ ¬ NoDup (dep_id <$> r))
  ∧ (∃ r, get_upstream Fixtures.diamond "D" 3 = Some r
          ∧ dep_id <$> r = ["B"; "A"; "C"; "A"]
          ∧ ¬ NoDup (dep_id <$> r)).
Proof.
  split.
  - destruct (get_downstream Fixtures.diamond "A" 3) as [r|] eqn:E;
      [|by vm_compute in E].
    exists r. split; [done|].
    assert (Hd : dep_id <$> r = ["B"; "D"; "C"; "D"])
      by (vm_compute in E; injection E as <-; reflexivity).
    assert (Hp : dep_depth <$> r = [1; 2; 1; 2])
      by (vm_compute in E; injection E as <-; reflexivity).
    rewrite Hd. repeat split; [done|].
    intros H. apply NoDup_cons in H as [_ H]. apply NoDup_cons in H as [H _].
    apply H. set_solver.
  - destruct (get_upstream Fixtures.diamond "D" 3) as [r|] eqn:E;
      [|by vm_compute in E].
    exists r. split; [done|].
    assert (Hd : dep_id <$> r = ["B"; "A"; "C"; "A"])
      by (vm_compute in E; injection E as <-; reflexivity).
    rewrite Hd. split; [done|].
    intros H. apply NoDup_cons in H as [_ H]. apply NoDup_cons in H as [H _].
    apply H. set_solver.
Qed.

(** What the traversal does ensure: on every graph, cyclic or not,
    [get_downstream] and [get_upstream] return a list for every node and
    depth, and more fuel does not change it; when the nodes are stored
    under their own ids, a node is reported at most once for each edge that
    enters it (for [get_upstream]: that leaves it), which bounds the
    repetitions shown above. *)
Theorem traversal_terminates_once_per_edge t node depth :
  (∃ r, get_downstream t node depth = Some r
        ∧ (∀ fuel, (fuel_for depth ≤ fuel)%nat →
             run source_id target_id t depth fuel node = Some r)
        ∧ (keys_consistent t → ∀ x, (occurrences x r ≤ in_degree t x)%nat))
  ∧ (∃ r, get_upstream t node depth = Some r
          ∧ (∀ fuel, (fuel_for depth ≤ fuel)%nat →
               run target_id source_id t depth fuel node = Some r)
          ∧ (keys_consistent t → ∀ x, (occurrences x r ≤ out_degree t x)%nat)).
Proof.
  split.
  - destruct (get_downstream_total t node depth) as [r Hr]. exists r.
    split; [done|]. split.
    + intros fuel Hf. by apply (run_fuel_le _ _ _ _ (fuel_for depth)).
    + intros Hkeys x. by apply (run_once_per_edge _ _ _ _ Hkeys _ _ _ _ Hr).
  - destruct (get_upstream_total t node depth) as [r Hr]. exists r.
    split; [done|]. split.
    + intros fuel Hf. by apply (run_fuel_le _ _ _ _ (fuel_for depth)).
    + intros Hkeys x. by apply (run_once_per_edge _ _ _ _ Hkeys _ _ _ _ Hr).
Qed.

Lemma diamond_keys_consistent : keys_consistent Fixtures.diamond.
Proof.
  unfold keys_consistent, Fixtures.diamond, Fixtures.graph_of; simpl.
  repeat (apply map_Forall_insert_2; [reflexivity|]). apply map_Forall_empty.
Defined.

Lemma traversal_terminates_once_per_edge_witness :
  keys_consistent Fixtures.diamond
  ∧ (∃ r, get_downstream Fixtures.diamond "A" 3 = Some r
          ∧ ∀ x, (occurrences x r ≤ in_degree Fixtures.diamond x)%nat)
  ∧ (∃ r, get_upstream Fixtures.diamond "D" 3 = Some r
          ∧ ∀ x, (occurrences x r ≤ out_degree Fixtures.diamond x)%nat).
Proof.
  split; [exact diamond_keys_consistent|]. split.
  - destruct (traversal_terminates_once_per_edge Fixtures.diamond "A" 3)
      as [(r & Hr & _ & Hocc) _].
    exists r. split; [exact Hr | exact (Hocc diamond_keys_consistent)].
  - destruct (traversal_terminates_once_per_edge Fixtures.diamond "D" 3)
      as [_ (r & Hr & _ & Hocc)].
    exists r. split; [exact Hr | exact (Hocc diamond_keys_consistent)].
Defined.

(** *** [add_edge] *)

Lemma existsb_same_pair_app a b es e :
  existsb (same_pair a b) (es ++ [e])
  = existsb (same_pair a b) es || same_pair a b e.
Proof. rewrite existsb_app. simpl. by rewrite orb_false_r. Qed.

(** Once an edge exists for the pair, [add_edge] changes nothing, in memory
    or on disk, and does not raise. *)
Lemma add_edge_existing now a b rel md t :
  existsb (same_pair a b) (edges t) = true →
  add_edge now a b rel md t = (inr tt, t).
Proof. intros H. unfold add_edge, bind, get, ret. by rewrite H. Qed.

Lemma add_edge_fresh now a b rel md t :
  existsb (same_pair a b) (edges t) = false →
  edges (add_edge now a b rel md t).2
  = edges t ++ [mkEdge a b rel (default [] md) now].
Proof.
  intros H. unfold add_edge, bind, get, ret, modify, _save. rewrite H. simpl.
  by destruct (writable t).
Qed.

Lemma same_pair_refl a b rel md now : same_pair a b (mkEdge a b rel md now) = true.
Proof. unfold same_pair; simpl. by rewrite !bool_decide_eq_true_2. Qed.

(** After a first call, the pair has an edge, whatever the state was. *)
Lemma add_edge_ensures now a b rel md t :
  existsb (same_pair a b) (edges (add_edge now a b rel md t).2) = true.
Proof.
  destruct (existsb (same_pair a b) (edges t)) eqn:E.
  - by rewrite add_edge_existing.
  - rewrite add_edge_fresh by done. rewrite existsb_same_pair_app.
    by rewrite same_pair_refl, orb_true_r.
Qed.

(** The second of two calls for the same pair is a no-op on every graph,
    whatever its label. *)
Lemma add_edge_second_noop now1 now2 a b r1 r2 md1 md2 t :
  add_edge now2 a b r2 md2 (add_edge now1 a b r1 md1 t).2
  = (inr tt, (add_edge now1 a b r1 md1 t).2).
Proof. apply add_edge_existing, add_edge_ensures. Qed.

Lemma filter_none {A} (p : A → bool) l :
  existsb p l = false → List.filter p l = [].
Proof.
  induction l as [|x l IH]; simpl; [done|].
  destruct (p x); simpl; [done | apply IH].
Qed.

(** C6, as stated, fails on a graph that already links the pair: both calls
    are no-ops and the one edge keeps its old label, not the label "r1" of
    the first call. *)
Lemma add_edge_keeps_older_label :
  let t1 := (add_edge "now" "A" "B" "r1" None Fixtures.linked).2 in
  let t2 := (add_edge "now" "A" "B" "r2" None t1).2 in
  relationship <$> edges_between "A" "B" t2 = ["r0"]
  ∧ relationship <$> edges_between "A" "B" t2 ≠ ["r1"].
Proof. vm_compute. split; [reflexivity | discriminate]. Qed.

(** C6 (amended): on every graph that holds no edge from a to b yet,
    [add_edge a b r1] followed by [add_edge a b r2] leaves exactly one edge
    from a to b, the one of the first call with its label r1; the second
    call changes nothing and does not raise, whatever its label. *)
Theorem add_edge_twice_keeps_first now1 now2 a b r1 r2 md1 md2 t :
  edges_between a b t = [] →
  let t1 := (add_edge now1 a b r1 md1 t).2 in
  let out2 := add_edge now2 a b r2 md2 t1 in
  out2 = (inr tt, t1)
  ∧ edges_between a b out2.2 = [mkEdge a b r1 (default [] md1) now1]
  ∧ edges out2.2 = edges t ++ [mkEdge a b r1 (default [] md1) now1].
Proof.
  intros Hnone t1 out2.
  assert (Hfresh : existsb (same_pair a b) (edges t) = false).
  { destruct (existsb (same_pair a b) (edges t)) eqn:E; [|done].
    apply existsb_exists in E as (e & Hin & He).
    assert (In e (edges_between a b t)) as Hf by (by apply filter_In).
    rewrite Hnone in Hf. destruct Hf. }
  assert (Hout : out2 = (inr tt, t1)) by apply add_edge_second_noop.
  split; [done|]. rewrite Hout. simpl. unfold t1.
  rewrite add_edge_fresh by done. split; [|done].
  unfold edges_between. rewrite add_edge_fresh by done.
  rewrite List.filter_app. fold (edges_between a b t). rewrite Hnone. simpl.
  by rewrite same_pair_refl.
Qed.

Lemma add_edge_twice_keeps_first_witness :
  edges_between "A" "B" Fixtures.unlinked = []
  ∧ (let t1 := (add_edge "t1" "A" "B" "r1" None Fixtures.unlinked).2 in
     let out2 := add_edge "t2" "A" "B" "r2" None t1 in
     out2 = (inr tt, t1)
     ∧ edges_between "A" "B" out2.2 = [mkEdge "A" "B" "r1" (default [] None) "t1"]
     ∧ edges out2.2
       = edges Fixtures.unlinked ++ [mkEdge "A" "B" "r1" (default [] None) "t1"]).
Proof.
  split; [reflexivity|].
  exact (add_edge_twice_keeps_first "t1" "t2" "A" "B" "r1" "r2" None None
           Fixtures.unlinked eq_refl).
Defined.
End LineageFacts.

(** ** Facts about the drift detector *)

Module DriftFacts.
Import Py Schema Drift CountFacts.

(** Inversion of a successful [let?]. *)
Lemma rbind_ok {A B} (m : result A) (k : A → result B) b :
  rbind m k = inr b → ∃ a, m = inr a ∧ k a = inr b.
Proof. destruct m as [e|a]; simpl; [done | eauto]. Qed.

Ltac unbind H :=
  let a := fresh "a" in
  let Ha := fresh "Ha" in
  apply rbind_ok in H as (a & Ha & H).

Lemma rmap_ok_Forall2 {A B} (f : A → result B) xs ys :
  rmap f xs = inr ys → Forall2 (λ x y, f x = inr y) xs ys.
Proof.
  revert ys. induction xs as [|x xs IH]; intros ys H; simpl in H.
  - injection H as <-. constructor.
  - unbind H. unbind H. injection H as <-. constructor; [done | by apply IH].
Qed.

Lemma rmap_total {A B} (f : A → result B) xs :
  (∀ x, x ∈ xs → ∃ y, f x = inr y) → ∃ ys, rmap f xs = inr ys.
Proof.
  induction xs as [|x xs IH]; intros H; simpl; [by eexists|].
  destruct (H x) as [y ->]; [set_solver|]. simpl.
  destruct IH as [ys ->]; [intros; apply H; set_solver|]. simpl. by eexists.
Qed.

Lemma rmap_concat_Forall {A B} (P : B → Prop) (f : A → result (list B)) xs ys :
  (∀ x y, f x = inr y → Forall P y) → rmap f xs = inr ys → Forall P (concat ys).
Proof.
  intros Hf H. apply rmap_ok_Forall2 in H.
  induction H as [|x y xs ys Hxy _ IH]; simpl; [constructor|].
  apply Forall_app. split; [by eapply Hf | done].
Qed.


(** The shape of every report that [compare] returns. *)
Lemma compare_ok g doc st r :
  compare g doc st = inr r →
  ∃ dn live an per,
    table_names doc = inr dn
    ∧ g (requested_tables dn st) = inr live
    ∧ table_names live = inr an
    ∧ rmap (compare_common_table doc live) (elements (dn ∩ an)) = inr per
    ∧ r = with_totals (length (tables_or_empty doc)) (size an)
            (map table_missing_in_snowflake (elements (dn ∖ an))
             ++ map table_missing_in_docs (elements (an ∖ dn))
             ++ concat per).
Proof.
  unfold compare. intros H.
  apply rbind_ok in H as (dn & Hdn & H).
  apply rbind_ok in H as (live & Hlive & H).
  apply rbind_ok in H as (an & Han & H).
  apply rbind_ok in H as (per & Hper & H).
  injection H as <-. by exists dn, live, an, per.
Qed.

Lemma compare_columns_ok T d a iss :
  _compare_columns T d a = inr iss →
  ∃ dm am common,
    columns_by_name ∅ (columns_or_empty d) = inr dm
    ∧ columns_by_name ∅ (columns_or_empty a) = inr am
    ∧ rmap (λ col_name,
              let? doc_col := lookup_key col_name dm in
              let? actual_col := lookup_key col_name am in
              ok (compare_common_column T col_name doc_col actual_col))
           (elements (dom dm ∩ dom am)) = inr common
    ∧ iss = map (column_missing_in_snowflake T) (elements (dom dm ∖ dom am))
            ++ map (column_missing_in_docs T) (elements (dom am ∖ dom dm))
            ++ concat common.
Proof.
  unfold _compare_columns. intros H.
  apply rbind_ok in H as (dm & Hdm & H).
  apply rbind_ok in H as (am & Ham & H).
  apply rbind_ok in H as (common & Hc & H).
  injection H as <-. by exists dm, am, common.
Qed.

(** *** Counts *)

Lemma severity_partition iss :
  (count_if (has_severity HIGH) iss + count_if (has_severity MEDIUM) iss
   + count_if (has_severity LOW) iss = length iss)%nat.
Proof.
  induction iss as [|i iss IH]; simpl; [done|].
  unfold has_severity at 1 3 5. destruct (severity i); simpl; lia.
Qed.

(** C7: the totals of a returned report are consistent with its issue
    list. *)
Theorem compare_totals_consistent g doc st r :
  compare g doc st = inr r →
  total_issues r = length (issues r)
  ∧ (high_severity r + medium_severity r + low_severity r = total_issues r)%nat.
Proof.
  intros H. apply compare_ok in H as (dn & live & an & per & _ & _ & _ & _ & ->).
  simpl. split; [done|]. apply severity_partition.
Qed.

Lemma compare_totals_consistent_witness :
  compare Fixtures.live_client Fixtures.documented None = inr Fixtures.drift_report
  ∧ total_issues Fixtures.drift_report = length (issues Fixtures.drift_report)
  ∧ (high_severity Fixtures.drift_report + medium_severity Fixtures.drift_report
     + low_severity Fixtures.drift_report
     = total_issues Fixtures.drift_report)%nat.
Proof.
  assert (H : compare Fixtures.live_client Fixtures.documented None
              = inr Fixtures.drift_report) by (vm_compute; reflexivity).
  split; [exact H|].
  exact (compare_totals_consistent Fixtures.live_client Fixtures.documented None
           Fixtures.drift_report H).
Defined.

(** *** No low severity, no description mismatch *)

Lemma Forall_graded_map {A} (f : A → DriftIssue) xs :
  (∀ x, graded (f x)) → Forall graded (map f xs).
Proof.
  intros H. apply Forall_forall. intros i Hi.
  apply list_elem_of_In, in_map_iff in Hi as (x & <- & _). apply H.
Qed.

Lemma common_column_graded T c dc ac :
  Forall graded (compare_common_column T c dc ac).
Proof.
  unfold compare_common_column. apply Forall_app. split.
  - destruct (type_conflict _ _); repeat constructor; done.
  - destruct (bool_decide _); repeat constructor; done.
Qed.

Lemma compare_columns_graded T d a iss :
  _compare_columns T d a = inr iss → Forall graded iss.
Proof.
  intros H. apply compare_columns_ok in H as (dm & am & common & _ & _ & Hc & ->).
  apply Forall_app. split; [by apply Forall_graded_map|].
  apply Forall_app. split; [by apply Forall_graded_map|].
  eapply rmap_concat_Forall; [|exact Hc]. intros c y Hy. simpl in Hy.
  apply rbind_ok in Hy as (dc & _ & Hy). apply rbind_ok in Hy as (ac & _ & Hy).
  injection Hy as <-. apply common_column_graded.
Qed.

Lemma common_table_graded doc live T iss :
  compare_common_table doc live T = inr iss → Forall graded iss.
Proof.
  unfold compare_common_table. intros H.
  apply rbind_ok in H as (dt & _ & H). apply rbind_ok in H as (d & _ & H).
  apply rbind_ok in H as (lt & _ & H). apply rbind_ok in H as (a & _ & H).
  destruct d as [d|], a as [a|]; try (injection H as <-; constructor).
  by eapply compare_columns_graded.
Qed.

Lemma count_if_none {A} (p : A → bool) (P : A → Prop) l :
  (∀ x, P x → p x = false) → Forall P l → count_if p l = 0%nat.
Proof.
  intros Hp H. induction H as [|x l Hx _ IH]; simpl; [done|].
  by rewrite (Hp x Hx), IH.
Qed.

(** C10: a returned report holds no LOW issue and no description-mismatch
    issue, and its [low_severity] is 0. *)
Theorem compare_never_low g doc st r :
  compare g doc st = inr r →
  Forall (λ i, severity i ≠ LOW ∧ drift_type i ≠ DESCRIPTION_MISMATCH) (issues r)
  ∧ low_severity r = 0%nat.
Proof.
  intros H. apply compare_ok in H as (dn & live & an & per & _ & _ & _ & Hper & ->).
  simpl.
  assert (Hall : Forall graded
    (map table_missing_in_snowflake (elements (dn ∖ an))
     ++ map table_missing_in_docs (elements (an ∖ dn)) ++ concat per)).
  { apply Forall_app. split; [by apply Forall_graded_map|].
    apply Forall_app. split; [by apply Forall_graded_map|].
    eapply rmap_concat_Forall; [|exact Hper]. apply common_table_graded. }
  split; [exact Hall|].
  eapply count_if_none; [|exact Hall].
  intros i [Hi _]. unfold has_severity. by apply bool_decide_eq_false.
Qed.

Lemma compare_never_low_witness :
  compare Fixtures.live_client Fixtures.documented None = inr Fixtures.drift_report
  ∧ Forall (λ i, severity i ≠ LOW ∧ drift_type i ≠ DESCRIPTION_MISMATCH)
      (issues Fixtures.drift_report)
  ∧ low_severity Fixtures.drift_report = 0%nat.
Proof.
  assert (H : compare Fixtures.live_client Fixtures.documented None
              = inr Fixtures.drift_report) by (vm_compute; reflexivity).
  split; [exact H|].
  exact (compare_never_low Fixtures.live_client Fixtures.documented None
           Fixtures.drift_report H).
Defined.

(** *** Snapshots whose tables and columns are named *)

Lemma table_named_inv t :
  table_named t →
  ∃ n, table_name t = Some n ∧ forallb column_named (columns_or_empty t).
Proof.
  unfold table_named. intros H. apply andb_True in H as [Hn Hc].
  apply bool_decide_unpack in Hn as [n Hn]. eauto.
Qed.

Lemma upper_names_ok tabs :
  forallb table_named tabs →
  rmap upper_name tabs = inr (omap (λ t, upper <$> table_name t) tabs).
Proof.
  induction tabs as [|t tabs IH]; simpl; [done|].
  intros H. apply andb_True in H as [Ht Htabs].
  apply table_named_inv in Ht as (n & Hn & _).
  unfold upper_name at 1. rewrite Hn. simpl. by rewrite IH.
Qed.

Lemma table_names_ok s :
  well_formed s → table_names s = inr (list_to_set (upper_table_names s)).
Proof.
  intros H. unfold table_names. by rewrite upper_names_ok.
Qed.

Lemma first_named_ok T tabs :
  forallb table_named tabs →
  ∃ o, first_named T tabs = inr o
       ∧ match o with
         | Some t => t ∈ tabs ∧ upper <$> table_name t = Some T
         | None => T ∉ omap (λ t, upper <$> table_name t) tabs
         end.
Proof.
  induction tabs as [|t tabs IH]; simpl.
  - intros _. exists None. split; [done|]. apply not_elem_of_nil.
  - intros H. apply andb_True in H as [Ht Htabs].
    apply table_named_inv in Ht as (n & Hn & _).
    unfold upper_name. rewrite Hn. simpl.
    destruct (bool_decide (upper n = T)) eqn:E.
    + apply bool_decide_eq_true in E. exists (Some t).
      split; [done|]. split; [left|]. by rewrite Hn, <- E.
    + apply bool_decide_eq_false in E.
      destruct (IH Htabs) as (o & -> & Ho). exists o. split; [done|].
      destruct o as [t'|].
      * destruct Ho. split; [by right | done].
      * intros Hin. apply elem_of_cons in Hin as [-> | Hin]; [done | by apply Ho].
Qed.

Lemma columns_by_name_ok cols : ∀ acc,
  forallb column_named cols →
  ∃ m, columns_by_name acc cols = inr m
       ∧ ∀ k, m !! k =
              match last (filter (λ c, upper <$> column_name c = Some k) cols) with
              | Some c => Some c
              | None => acc !! k
              end.
Proof.
  induction cols as [|c cols IH]; intros acc H; simpl.
  - exists acc. split; [done|]. intros k. done.
  - apply andb_True in H as [Hc Hcols].
    apply bool_decide_unpack in Hc as [n Hn]. rewrite Hn. simpl.
    destruct (IH (<[upper n := c]> acc) Hcols) as (m & -> & Hm).
    exists m. split; [done|]. intros k. rewrite Hm.
    rewrite filter_cons. rewrite Hn. simpl.
    destruct (decide (Some (upper n) = Some k)) as [E|E].
    + injection E as <-.
      destruct (filter _ cols) as [|c' l] eqn:Ef; simpl.
      * by rewrite lookup_insert_eq.
      * rewrite last_cons. by destruct (last l).
    + destruct (last (filter _ cols)); [done|].
      rewrite lookup_insert_ne; [done | congruence].
Qed.

Lemma lookup_key_dom k (m : gmap string Column) :
  k ∈ dom m → ∃ c, lookup_key k m = inr c ∧ m !! k = Some c.
Proof.
  intros H. apply elem_of_dom in H as [c Hc]. exists c.
  unfold lookup_key. by rewrite Hc.
Qed.

Lemma compare_columns_total T d a :
  forallb column_named (columns_or_empty d) →
  forallb column_named (columns_or_empty a) →
  ∃ iss, _compare_columns T d a = inr iss.
Proof.
  intros Hd Ha. unfold _compare_columns.
  destruct (columns_by_name_ok _ ∅ Hd) as (dm & -> & _).
  destruct (columns_by_name_ok _ ∅ Ha) as (am & -> & _). simpl.
  edestruct (rmap_total (λ col_name,
              let? doc_col := lookup_key col_name dm in
              let? actual_col := lookup_key col_name am in
              ok (compare_common_column T col_name doc_col actual_col))
           (elements (dom dm ∩ dom am))) as [common ->].
  - intros k Hk. apply elem_of_elements, elem_of_intersection in Hk as [H1 H2].
    destruct (lookup_key_dom _ _ H1) as (dc & -> & _).
    destruct (lookup_key_dom _ _ H2) as (ac & -> & _). simpl. by eexists.
  - simpl. by eexists.
Qed.

Lemma table_in_named t tabs :
  forallb table_named tabs → t ∈ tabs → table_named t.
Proof.
  intros H Ht. apply forallb_True in H. rewrite Forall_forall in H. by apply H.
Qed.

Lemma elem_upper_names_present T s :
  T ∈ upper_table_names s → ∃ tabs, tables s = Some tabs.
Proof.
  unfold upper_table_names, tables_or_empty. destruct (tables s); [eauto|].
  simpl. intros H. by apply elem_of_nil in H.
Qed.

Lemma common_table_total doc live T :
  well_formed doc → well_formed live →
  T ∈ upper_table_names doc → T ∈ upper_table_names live →
  ∃ iss, compare_common_table doc live T = inr iss.
Proof.
  intros Hd Hl Td Tl. unfold compare_common_table.
  destruct (elem_upper_names_present _ _ Td) as [dtabs Hdt].
  destruct (elem_upper_names_present _ _ Tl) as [ltabs Hlt].
  unfold well_formed, tables_or_empty in Hd, Hl. rewrite Hdt in Hd. rewrite Hlt in Hl.
  simpl in Hd, Hl. rewrite Hdt, Hlt. simpl.
  destruct (first_named_ok T dtabs Hd) as (od & -> & Hod). simpl.
  destruct (first_named_ok T ltabs Hl) as (ol & -> & Hol). simpl.
  destruct od as [d|]; [|by eexists]. destruct ol as [a|]; [|by eexists].
  destruct Hod as [Hdin _]. destruct Hol as [Hain _].
  apply (table_in_named _ _ Hd), table_named_inv in Hdin as (? & _ & Hdc).
  apply (table_in_named _ _ Hl), table_named_inv in Hain as (? & _ & Hac).
  by apply compare_columns_total.
Qed.

Lemma compare_total_at g doc live st :
  well_formed doc →
  g (requested_tables (list_to_set (upper_table_names doc)) st) = inr live →
  well_formed live →
  ∃ r, compare g doc st = inr r.
Proof.
  intros Hd Hg Hl. unfold compare. rewrite (table_names_ok _ Hd). simpl.
  rewrite Hg. simpl. rewrite (table_names_ok _ Hl). simpl.
  edestruct (rmap_total (compare_common_table doc live)) as [per ->].
  - intros T HT. apply elem_of_elements, elem_of_intersection in HT as [H1 H2].
    apply elem_of_list_to_set in H1, H2. by apply common_table_total.
  - simpl. by eexists.
Qed.

(** *** A snapshot compared with itself *)

Lemma rmap_all_nil {A B} (f : A → result (list B)) xs :
  (∀ x, x ∈ xs → f x = inr []) →
  ∃ ys, rmap f xs = inr ys ∧ concat ys = [].
Proof.
  induction xs as [|x xs IH]; intros H; simpl; [by exists []|].
  rewrite (H x) by set_solver. simpl.
  destruct IH as (ys & -> & Hys); [intros; apply H; set_solver|].
  simpl. exists ([] :: ys). by split.
Qed.

Lemma common_column_same T k c : compare_common_column T k c c = [].
Proof.
  unfold compare_common_column, type_conflict.
  rewrite (bool_decide_eq_false_2 (type_of c ≠ type_of c)) by (intros H; by apply H).
  rewrite (bool_decide_eq_false_2 (nullable_of c ≠ nullable_of c))
    by (intros H; by apply H).
  by rewrite andb_false_r.
Qed.

Lemma compare_columns_same T t :
  forallb column_named (columns_or_empty t) → _compare_columns T t t = inr [].
Proof.
  intros H. unfold _compare_columns.
  destruct (columns_by_name_ok _ ∅ H) as (m & -> & _). simpl.
  edestruct (rmap_all_nil (λ col_name,
              let? doc_col := lookup_key col_name m in
              let? actual_col := lookup_key col_name m in
              ok (compare_common_column T col_name doc_col actual_col))
           (elements (dom m ∩ dom m))) as (common & -> & Hc).
  - intros k Hk. apply elem_of_elements, elem_of_intersection in Hk as [Hk _].
    destruct (lookup_key_dom _ _ Hk) as (c & -> & _). simpl.
    by rewrite common_column_same.
  - simpl. rewrite Hc, difference_diag_L, elements_empty. done.
Qed.

Lemma common_table_same A T :
  well_formed A → T ∈ upper_table_names A → compare_common_table A A T = inr [].
Proof.
  intros Hwf HT. unfold compare_common_table.
  destruct (elem_upper_names_present _ _ HT) as [tabs Htabs].
  unfold well_formed, tables_or_empty in Hwf. rewrite Htabs in Hwf. simpl in Hwf.
  rewrite Htabs. simpl.
  destruct (first_named_ok T tabs Hwf) as (o & -> & Ho). simpl.
  destruct o as [t|]; [|done]. destruct Ho as [Hin _].
  apply (table_in_named _ _ Hwf), table_named_inv in Hin as (? & _ & Hc).
  by apply compare_columns_same.
Qed.

(** C4: a snapshot compared with a live schema identical to it yields a
    report without issues. *)
Theorem compare_same_no_issues g A st :
  well_formed A →
  g (requested_tables (list_to_set (upper_table_names A)) st) = inr A →
  ∃ r, compare g A st = inr r ∧ issues r = [] ∧ total_issues r = 0%nat.
Proof.
  intros Hwf Hg. unfold compare. rewrite (table_names_ok _ Hwf). simpl.
  rewrite Hg. simpl. rewrite (table_names_ok _ Hwf). simpl.
  edestruct (rmap_all_nil (compare_common_table A A)) as (per & -> & Hper).
  - intros T HT. apply elem_of_elements, elem_of_intersection in HT as [HT _].
    apply elem_of_list_to_set in HT. by apply common_table_same.
  - simpl. eexists. split; [done|].
    rewrite Hper, difference_diag_L, elements_empty. by split.
Qed.

Lemma compare_same_no_issues_witness :
  well_formed Fixtures.documented
  ∧ ∃ r, compare (λ _, inr Fixtures.documented) Fixtures.documented None = inr r
         ∧ issues r = [] ∧ total_issues r = 0%nat.
Proof.
  assert (Hwf : well_formed Fixtures.documented) by (vm_compute; exact I).
  split; [exact Hwf|].
  exact (compare_same_no_issues (λ _, inr Fixtures.documented)
           Fixtures.documented None Hwf eq_refl).
Defined.

(** *** Unique names *)





(** *** Where type-mismatch issues come from *)







(** *** Absent optional fields are read as their defaults *)



Lemma upper_table_names_fill s :
  upper_table_names (fill_defaults s) = upper_table_names s.
Proof.
  unfold upper_table_names, fill_defaults, tables_or_empty. simpl.
  induction (default [] (tables s)) as [|t l IH]; csimpl; [done|].
  by rewrite IH.
Qed.


Lemma well_formed_fill s : well_formed s → well_formed (fill_defaults s).
Proof.
  unfold well_formed, fill_defaults, tables_or_empty. simpl.
  induction (default [] (tables s)) as [|t l IH]; csimpl; [done|].
  intros H. apply andb_True in H as [Ht Hl]. apply andb_True. split; [|by apply IH].
  unfold table_named in *. apply andb_True in Ht as [Hn Hc].
  apply andb_True. split; [done|]. unfold columns_or_empty in *. simpl.
  unfold columns_or_empty.
  induction (default [] (columns t)) as [|c cs IHc]; csimpl; [done|].
  simpl in Hc. apply andb_True in Hc as [Hc1 Hc2]. apply andb_True.
  split; [done | by apply IHc].
Qed.









End DriftFacts.

(** ** Facts about the sync orchestrator *)

Module OrchestratorFacts.
Import Py Schema Orchestrator.

#[local] Arguments no_tables : simpl never.
#[local] Arguments sync_source : simpl never.

Section JobFacts.
Variable self : Orchestrator.

Lemma accepted_start j :
  accepted self (start_calls self j) →
  ∀ st, when (has_audit self)
          (invoke (audit_sync_start (job_source j).1 (job_source j).2)
             (audit self (audit_sync_start (job_source j).1 (job_source j).2))) st
        = (inr tt, (mkWorld (lineage st.1) (calls st.1 ++ start_calls self j), st.2)).
Proof.
  unfold accepted, start_calls, when. intros H [w r].
  destruct (has_audit self); simpl.
  - apply Forall_cons in H as [H _]. simpl in H. unfold invoke. simpl. by rewrite H.
  - unfold ret. rewrite app_nil_r. by destruct w.
Qed.

Lemma accepted_failure j e :
  accepted self (failure_calls self j e) →
  ∀ st, on_failure self (job_source j).1 (job_source j).2 e st
        = (inr tt, (mkWorld (lineage st.1) (calls st.1 ++ failure_calls self j e),
                    add_errors [str_exn e] st.2)).
Proof.
  unfold accepted, failure_calls, on_failure, when. intros H [w r].
  destruct (has_audit self), (has_notifications self); simpl in *;
    unfold bind, update, invoke, ret; simpl.
  - apply Forall_cons in H as [H1 H]. apply Forall_cons in H as [H2 _].
    simpl in H1, H2. rewrite H1, H2. by rewrite <- app_assoc.
  - apply Forall_cons in H as [H1 _]. simpl in H1. by rewrite H1.
  - apply Forall_cons in H as [H1 _]. simpl in H1. by rewrite H1.
  - rewrite app_nil_r. by destruct w.
Qed.

(** How a job ends, from how the body of its [try] block ends. *)
Lemma guarded_returns j body w st' :
  accepted self (start_calls self j) →
  body (mkWorld (lineage w) (calls w ++ start_calls self j),
        new_result (job_source j).1 (job_source j).2) = (inr tt, st') →
  guarded self (job_source j).1 (job_source j).2 body w = (inr st'.2, st'.1).
Proof.
  intros Hs Hb. unfold guarded, bind at 1.
  rewrite (accepted_start j Hs). simpl.
  unfold bind, try_except. rewrite Hb. done.
Qed.

Lemma guarded_catches j body w e st' :
  accepted self (start_calls self j) →
  body (mkWorld (lineage w) (calls w ++ start_calls self j),
        new_result (job_source j).1 (job_source j).2) = (inl e, st') →
  accepted self (failure_calls self j e) →
  guarded self (job_source j).1 (job_source j).2 body w
  = (inr (add_errors [str_exn e] st'.2),
     mkWorld (lineage st'.1) (calls st'.1 ++ failure_calls self j e)).
Proof.
  intros Hs Hb Hf. unfold guarded, bind at 1.
  rewrite (accepted_start j Hs). simpl.
  unfold bind, try_except. rewrite Hb.
  rewrite (accepted_failure j e Hf). done.
Qed.

Lemma run_job_guarded j :
  run_job self j = guarded self (job_source j).1 (job_source j).2 (job_body self j).
Proof. by destruct j. Qed.

Lemma body_without_tables j st doc prompt schema :
  fetched self j = Some doc →
  prompt_file self "extract_schema.txt" = inr prompt →
  extractor self (content doc) (job_source j).1 (job_source j).2 = inr schema →
  no_tables schema →
  job_body self j st
  = (inr tt,
     (mkWorld (lineage st.1)
        (calls st.1 ++ [fetch_call j; load_prompt "extract_schema.txt";
                        extract_schema (job_source j).1 (job_source j).2]),
      set_success true (add_warning "No tables found in content" st.2))).
Proof.
  intros Hf Hp He Hn. apply Is_true_true in Hn.
  destruct j; simpl in *; unfold confluence_body, jira_body, extract;
    unfold bind at 1; unfold invoke at 1; simpl; rewrite Hf;
    unfold bind, invoke; simpl; rewrite Hp, He, Hn; simpl;
    by rewrite <- !app_assoc.
Qed.

(** C8: when the fetch succeeds and the extraction returns no tables, the
    job returns [success = True] with the warning and nothing else
    happens: no call after the extraction, and the lineage graph is
    untouched. *)
Theorem empty_snapshot_is_success j w doc prompt schema :
  accepted self (start_calls self j) →
  fetched self j = Some doc →
  prompt_file self "extract_schema.txt" = inr prompt →
  extractor self (content doc) (job_source j).1 (job_source j).2 = inr schema →
  no_tables schema →
  run_job self j w
  = (inr (mkSyncResult true (job_source j).1 (job_source j).2 0 0 0 0 0 []
            ["No tables found in content"]),
     mkWorld (lineage w)
       (calls w ++ start_calls self j
        ++ [fetch_call j; load_prompt "extract_schema.txt";
            extract_schema (job_source j).1 (job_source j).2])).
Proof.
  intros Hs Hf Hp He Hn. rewrite run_job_guarded.
  rewrite (guarded_returns j _ w _ Hs
             (body_without_tables j _ doc prompt schema Hf Hp He Hn)).
  simpl. by rewrite <- !app_assoc.
Qed.

(** *** The lineage block *)

Lemma if_lineage_frame body st :
  calls (if_lineage body st).2.1 = calls st.1 ∧ (if_lineage body st).2.2 = st.2.
Proof.
  unfold if_lineage. destruct (lineage st.1) as [t|]; [|done].
  by destruct (body t).
Qed.

Lemma index_document_frame kind ident doc tabs st :
  (index_document self kind ident doc tabs st).2.2 = st.2.
Proof.
  unfold index_document, when. destruct (has_vector_store self); [|done].
  unfold bind, lift. by destruct (names_of tabs).
Qed.

Lemma body_lineage_raises j st doc prompt schema st2 st3 e :
  fetched self j = Some doc →
  prompt_file self "extract_schema.txt" = inr prompt →
  extractor self (content doc) (job_source j).1 (job_source j).2
    = inr (Some schema) →
  no_tables (Some schema) = false →
  index_document self (job_source j).1 (job_source j).2 doc
    (tables_or_empty schema) (before_lineage j (tables_or_empty schema) st)
    = (inr tt, st2) →
  track_lineage self (job_source j).1 (job_source j).2 doc
    (tables_or_empty schema) st2 = (inl e, st3) →
  job_body self j st = (inl e, st3).
Proof.
  intros Hf Hp He Hn Hi Ht. unfold before_lineage in Hi.
  destruct j; simpl in *; unfold confluence_body, jira_body, extract;
    unfold bind at 1; unfold invoke at 1; simpl; rewrite Hf;
    unfold bind at 1; unfold bind at 1; unfold invoke at 1 2; simpl;
    rewrite Hp, He, Hn; simpl;
    unfold bind at 1; unfold update at 1; simpl;
    unfold bind at 1; rewrite <- !app_assoc; simpl; rewrite Hi;
    unfold bind at 1; by rewrite Ht.
Qed.

(** C2 (amended): an error raised while the document node, the table
    nodes or the documented_in edges are registered ends the job: it is
    caught by the one handler of the job, its message is the only entry
    of [errors], [success] stays [False], and no later step of the
    pipeline runs; the only calls after the vector-store step are those
    that record the failure. *)
Theorem lineage_error_is_fatal j w doc prompt schema st2 st3 e :
  accepted self (start_calls self j) →
  fetched self j = Some doc →
  prompt_file self "extract_schema.txt" = inr prompt →
  extractor self (content doc) (job_source j).1 (job_source j).2
    = inr (Some schema) →
  no_tables (Some schema) = false →
  index_document self (job_source j).1 (job_source j).2 doc
    (tables_or_empty schema)
    (before_lineage j (tables_or_empty schema)
       (mkWorld (lineage w) (calls w ++ start_calls self j),
        new_result (job_source j).1 (job_source j).2))
    = (inr tt, st2) →
  track_lineage self (job_source j).1 (job_source j).2 doc
    (tables_or_empty schema) st2 = (inl e, st3) →
  accepted self (failure_calls self j e) →
  run_job self j w
  = (inr (mkSyncResult false (job_source j).1 (job_source j).2
            (length (tables_or_empty schema)) 0 0 0 0 [str_exn e] []),
     mkWorld (lineage st3.1) (calls st2.1 ++ failure_calls self j e)).
Proof.
  intros Hs Hf Hp He Hn Hi Ht Ha. rewrite run_job_guarded.
  rewrite (guarded_catches j _ w e st3 Hs
             (body_lineage_raises j _ doc prompt schema st2 st3 e
                Hf Hp He Hn Hi Ht) Ha).
  pose proof (if_lineage_frame
    (lineage_block self (job_source j).1 (job_source j).2 doc
       (tables_or_empty schema)) st2) as [Hc Hr].
  fold (track_lineage self (job_source j).1 (job_source j).2 doc
          (tables_or_empty schema)) in Hc, Hr.
  rewrite Ht in Hc, Hr. simpl in Hc, Hr.
  pose proof (index_document_frame (job_source j).1 (job_source j).2 doc
                (tables_or_empty schema)
                (before_lineage j (tables_or_empty schema)
                   (mkWorld (lineage w) (calls w ++ start_calls self j),
                    new_result (job_source j).1 (job_source j).2))) as Hr2.
  rewrite Hi in Hr2. simpl in Hr2.
  rewrite Hc, Hr, Hr2. done.
Qed.
End JobFacts.

(** *** A job sees of the world only what it is allowed to see *)

Lemma stable_ret {A} (a : A) : stable (ret a).
Proof. intros st st' H. by repeat split; try apply H. Qed.

Lemma stable_throw {A} e : stable (@throw JobState A e).
Proof. intros st st' H. by repeat split; try apply H. Qed.

Lemma stable_lift {A} (r : result A) : stable (lift r).
Proof. intros st st' H. by repeat split; try apply H. Qed.

Lemma stable_invoke {A} c (r : result A) : stable (invoke c r).
Proof. intros st st' [H1 H2]. by repeat split. Qed.

Lemma stable_update f : stable (update f).
Proof. intros st st' [H1 H2]. repeat split; try done. simpl. by rewrite H2. Qed.

Lemma stable_get_result : stable get_result.
Proof. intros st st' [H1 H2]. repeat split; simpl; try done; congruence. Qed.

Lemma stable_bind {A B} (m : Eff JobState A) (k : A → Eff JobState B) :
  stable m → (∀ a, stable (k a)) → stable (bind m k).
Proof.
  intros Hm Hk st st' H. destruct (Hm st st' H) as (Ho & Ha & Hd).
  unfold bind. destruct (m st) as [[e|a] s1], (m st') as [[e'|a'] s1'];
    simpl in *; try discriminate Ho.
  - split; [congruence|]. by split.
  - injection Ho as <-. destruct (Hk a s1 s1' Ha) as (Ho' & Ha' & Hd').
    repeat split; try done; try apply Ha'.
    unfold same_disk in *. congruence.
Qed.

Lemma stable_when b (m : Eff JobState unit) : stable m → stable (when b m).
Proof. intros H. destruct b; [done | apply stable_ret]. Qed.

Lemma stable_try_except {A} (body : Eff JobState A) handler :
  stable body → (∀ e, stable (handler e)) → stable (try_except body handler).
Proof.
  intros Hm Hk st st' H. destruct (Hm st st' H) as (Ho & Ha & Hd).
  unfold try_except. destruct (body st) as [[e|a] s1], (body st') as [[e'|a'] s1'];
    simpl in *; try discriminate Ho.
  - injection Ho as <-. destruct (Hk e s1 s1' Ha) as (Ho' & Ha' & Hd').
    repeat split; try done; try apply Ha'.
    unfold same_disk in *. congruence.
  - split; [congruence|]. by split.
Qed.

Lemma stable_for_each {A} (xs : list A) (body : A → Eff JobState unit) :
  (∀ x, stable (body x)) → stable (for_each xs body).
Proof.
  intros H. induction xs as [|x xs IH]; simpl; [apply stable_ret|].
  apply stable_bind; [apply H | intros _; apply IH].
Qed.

(** *** The tracker operations *)

Section Tracker.
Import Lineage.

Lemma keeps_bind {A B} (m : Eff LineageTracker A) (k : A → Eff LineageTracker B) :
  keeps_flag m → (∀ a, keeps_flag (k a)) → keeps_flag (bind m k).
Proof.
  intros Hm Hk t. unfold bind. specialize (Hm t).
  destruct (m t) as [[e|a] t1]; simpl in *; [done|]. by rewrite Hk.
Qed.

Lemma keeps_save : keeps_flag _save.
Proof. intros t. unfold _save. by destruct (writable t) eqn:E. Qed.

Lemma keeps_add_document now st sid ti u : keeps_flag (add_document now st sid ti u).
Proof.
  unfold add_document. apply keeps_bind; [done|]. intros _.
  apply keeps_bind; [apply keeps_save | done].
Qed.

Lemma keeps_add_table now n db sc o d : keeps_flag (add_table now n db sc o d).
Proof.
  unfold add_table. apply keeps_bind; [done|]. intros _.
  apply keeps_bind; [apply keeps_save | done].
Qed.

Lemma keeps_add_edge now a b rel md : keeps_flag (add_edge now a b rel md).
Proof.
  unfold add_edge. apply keeps_bind; [done|]. intros t.
  destruct (existsb _ _); [done|].
  apply keeps_bind; [done | intros _; apply keeps_save].
Qed.

Lemma keeps_for_each {A} (xs : list A) (body : A → Eff LineageTracker unit) :
  (∀ x, keeps_flag (body x)) → keeps_flag (for_each xs body).
Proof.
  intros H. induction xs as [|x xs IH]; simpl; [done|].
  apply keeps_bind; [apply H | intros _; apply IH].
Qed.

(** With writable files, the three operations return normally. *)
Lemma save_writable t : writable t = true → (_save t).1 = inr tt.
Proof. intros H. unfold _save. by rewrite H. Qed.

Lemma add_table_writable now n db sc o d t :
  writable t = true →
  (add_table now n db sc o d t).1 = inr (table_key db sc n).
Proof. intros H. unfold add_table, bind, modify, _save. simpl. by rewrite H. Qed.

Lemma add_edge_writable now a b rel md t :
  writable t = true → (add_edge now a b rel md t).1 = inr tt.
Proof.
  intros H. unfold add_edge, bind, get, modify, _save.
  destruct (existsb _ _); [done|]. simpl. by rewrite H.
Qed.
End Tracker.

Section Jobs.
Variable self : Orchestrator.

Lemma keeps_register_table kind ident table :
  keeps_flag (register_table self kind ident table).
Proof.
  unfold register_table. apply keeps_bind; [done|]. intros n.
  apply keeps_bind; [apply keeps_add_table|]. intros _.
  apply keeps_bind; [done|]. intros n'. apply keeps_add_edge.
Qed.

Lemma register_tables_writable kind ident tabs : ∀ t,
  Lineage.writable t = true →
  (for_each tabs (register_table self kind ident) t).1 = names_present tabs.
Proof.
  induction tabs as [|table tabs IH]; intros t Hw; simpl; [done|].
  unfold bind at 1.
  destruct (register_table self kind ident table t) as [[e|[]] t1] eqn:E.
  - revert E. unfold register_table, bind at 1, lift.
    destruct (table_name table) as [n|]; simpl; [|by intros [= <- _]].
    unfold bind at 1.
    pose proof (add_table_writable (clock self) n "ANALYTICS" "PUBLIC"
                  (owner table) (description table) t Hw) as Ha.
    pose proof (keeps_add_table (clock self) n "ANALYTICS" "PUBLIC"
                  (owner table) (description table) t) as Hk.
    destruct (Lineage.add_table _ _ _ _ _ _ t) as [[e1|k1] t2]; simpl in *;
      [done|].
    unfold bind at 1. simpl. unfold Lineage.link_table_to_document.
    pose proof (add_edge_writable (clock self)
                  (Lineage.table_key "ANALYTICS" "PUBLIC" n)
                  (Lineage.doc_key kind ident) "documented_in" None t2
                  ltac:(congruence)) as He.
    destruct (Lineage.add_edge _ _ _ _ _ t2) as [[e2|[]] t3]; simpl in *;
      [done|]. done.
  - assert (Ht : table_name table ≠ None).
    { intros Hn. revert E. unfold register_table, bind at 1, lift.
      rewrite Hn. simpl. done. }
    destruct (table_name table); [|done].
    pose proof (keeps_register_table kind ident table t) as Hk.
    rewrite E in Hk. simpl in *. apply IH. congruence.
Qed.

Lemma keeps_lineage_block kind ident doc tabs :
  keeps_flag (lineage_block self kind ident doc tabs).
Proof.
  unfold lineage_block. apply keeps_bind; [apply keeps_add_document|].
  intros _. apply keeps_for_each, keeps_register_table.
Qed.

(** The outcome of the lineage block depends on the tracker only through
    [writable]. *)
Lemma lineage_block_outcome kind ident doc tabs t :
  (lineage_block self kind ident doc tabs t).1
  = if Lineage.writable t then names_present tabs
    else inl (OSError "cannot write lineage files").
Proof.
  unfold lineage_block, bind at 1.
  pose proof (keeps_add_document (clock self) kind ident (title doc)
                (Some (url doc)) t) as Hk.
  destruct (Lineage.writable t) eqn:Hw.
  - assert ((Lineage.add_document (clock self) kind ident (title doc)
               (Some (url doc)) t).1 = inr (Lineage.doc_key kind ident)) as Ho.
    { unfold Lineage.add_document, bind, modify, Lineage._save. simpl.
      by rewrite Hw. }
    destruct (Lineage.add_document _ _ _ _ _ t) as [[e|k] t1]; simpl in *;
      [done|].
    apply register_tables_writable. congruence.
  - unfold Lineage.add_document, bind, modify, Lineage._save. simpl.
    by rewrite Hw.
Qed.

Lemma stable_track_lineage kind ident doc tabs :
  stable (track_lineage self kind ident doc tabs).
Proof.
  unfold track_lineage.
  intros [w r] [w' r'] [Hd Hr]. simpl in *. subst r'.
  unfold if_lineage, alike, same_disk in *. simpl in *.
  destruct (lineage w) as [t|] eqn:Ew, (lineage w') as [t'|] eqn:Ew';
    simpl in *; try discriminate Hd; [|by rewrite ?Ew, ?Ew'].
  injection Hd as Hd.
  pose proof (lineage_block_outcome kind ident doc tabs t) as Ho.
  pose proof (lineage_block_outcome kind ident doc tabs t') as Ho'.
  pose proof (keeps_lineage_block kind ident doc tabs t) as Hk.
  pose proof (keeps_lineage_block kind ident doc tabs t') as Hk'.
  destruct (lineage_block self kind ident doc tabs t) as [o t1].
  destruct (lineage_block self kind ident doc tabs t') as [o' t1'].
  simpl in *. rewrite Ho, Ho', Hd. repeat split; simpl; congruence.
Qed.

Ltac stable_step :=
  lazymatch goal with
  | |- stable (bind _ _) => apply stable_bind; [|intros ?]
  | |- stable (invoke _ _) => apply stable_invoke
  | |- stable (update _) => apply stable_update
  | |- stable get_result => apply stable_get_result
  | |- stable (ret _) => apply stable_ret
  | |- stable (throw _) => apply stable_throw
  | |- stable (lift _) => apply stable_lift
  | |- stable (when _ _) => apply stable_when
  | |- stable (for_each _ _) => apply stable_for_each; intros ?
  | |- stable (track_lineage _ _ _ _ _) => apply stable_track_lineage
  | |- stable (index_document _ _ _ _ _) => unfold index_document
  | |- stable (extract _ _ _ _) => unfold extract
  | |- stable (if ?b then _ else _) => destruct b
  | |- stable (match ?x with _ => _ end) => destruct x
  | |- stable (let _ := _ in _) => cbv zeta
  end.

Lemma stable_job_body j : stable (job_body self j).
Proof.
  destruct j; unfold job_body, confluence_body, jira_body; repeat stable_step.
Qed.

Lemma stable_on_failure kind ident e : stable (on_failure self kind ident e).
Proof. unfold on_failure. repeat stable_step. Qed.

(** A job returns the same result in two worlds that look alike to it, and
    leaves worlds that look alike, to each other and to the ones it
    started from. *)
Lemma run_job_stable j w w' :
  same_disk w w' →
  (run_job self j w).1 = (run_job self j w').1
  ∧ same_disk (run_job self j w).2 (run_job self j w').2
  ∧ same_disk w (run_job self j w).2.
Proof.
  intros H. rewrite run_job_guarded. unfold guarded.
  set (m := when (has_audit self) _ >> try_except _ _ >> get_result).
  assert (Hm : stable m).
  { unfold m. repeat stable_step.
    apply stable_try_except; [apply stable_job_body|].
    intros e. apply stable_on_failure. }
  destruct (Hm (w, new_result (job_source j).1 (job_source j).2)
               (w', new_result (job_source j).1 (job_source j).2))
    as (Ho & [Ha _] & Hd); [by split|].
  destruct (m (w, _)) as [o st], (m (w', _)) as [o' st']. simpl in *.
  by repeat split.
Qed.
End Jobs.

Section Batch.
Variable self : Orchestrator.

(** *** Batches *)

Lemma sync_source_job dry_run s :
  sync_source self dry_run s = run_job self (job_of dry_run s).
Proof. unfold sync_source, job_of. by destruct (bool_decide _). Qed.

Lemma body_fetch_fails j st :
  fetched self j = None →
  job_body self j st
  = (inl (fetch_error j),
     (mkWorld (lineage st.1) (calls st.1 ++ [fetch_call j]), st.2)).
Proof.
  intros Hf. destruct j; simpl in *; unfold confluence_body, jira_body;
    unfold bind at 1; unfold invoke at 1; simpl; by rewrite Hf.
Qed.

Lemma run_job_fetch_fails j w :
  fetched self j = None →
  accepted self (start_calls self j) →
  accepted self (failure_calls self j (fetch_error j)) →
  run_job self j w
  = (inr (failed_fetch j),
     mkWorld (lineage w)
       (calls w ++ start_calls self j ++ [fetch_call j]
        ++ failure_calls self j (fetch_error j))).
Proof.
  intros Hf Hs Ha. rewrite run_job_guarded.
  rewrite (guarded_catches self j _ w _ _ Hs (body_fetch_fails j _ Hf) Ha).
  simpl. by rewrite <- !app_assoc.
Qed.

Lemma same_disk_refl w : same_disk w w.
Proof. done. Qed.

Lemma same_disk_trans w1 w2 w3 :
  same_disk w1 w2 → same_disk w2 w3 → same_disk w1 w3.
Proof. unfold same_disk. congruence. Qed.

(** When the sinks accept the start and failure records of the failed
    job, the batch is isolated as intended: in a batch of three jobs in
    which the fetch of the second fails while the first and the third, run
    alone, succeed, [batch_sync] returns total 3, successful 2, failed 1,
    with the three results in submission order, the first and the third
    being the results of these jobs run alone. In parallel mode this is
    shown for the schedule of [submit_all] only. *)
Theorem batch_isolates_failed_fetch pages issues dry_run parallel w
    s1 s2 s3 r1 r3 :
  sources pages issues = [s1; s2; s3] →
  fetched self (job_of dry_run s2) = None →
  accepted self (start_calls self (job_of dry_run s2)) →
  accepted self (failure_calls self (job_of dry_run s2)
                   (fetch_error (job_of dry_run s2))) →
  (sync_source self dry_run s1 w).1 = inr r1 → success r1 = true →
  (sync_source self dry_run s3 w).1 = inr r3 → success r3 = true →
  (batch_sync self pages issues dry_run parallel w).1
  = inr (mkBatch 3 2 1 [r1; failed_fetch (job_of dry_run s2); r3]).
Proof.
  intros Hsrc Hf Hs Ha H1 Hr1 H3 Hr3.
  rewrite !sync_source_job in *.
  destruct (run_job_stable self (job_of dry_run s1) w w (same_disk_refl w))
    as (_ & _ & Hd1).
  destruct (run_job self (job_of dry_run s1) w) as [o1 w1] eqn:E1.
  simpl in H1, Hd1. subst o1.
  pose proof (run_job_fetch_fails (job_of dry_run s2) w1 Hf Hs Ha) as E2.
  set (w2 := mkWorld (lineage w1) _) in E2.
  assert (Hd2 : same_disk w w2) by (eapply same_disk_trans; [exact Hd1 | done]).
  destruct (run_job_stable self (job_of dry_run s3) w w2 Hd2) as (Ho3 & _ & _).
  rewrite H3 in Ho3.
  destruct (run_job self (job_of dry_run s3) w2) as [o3 w3] eqn:E3.
  simpl in Ho3. subst o3.
  unfold batch_sync. rewrite Hsrc. destruct parallel.
  - simpl. rewrite ?sync_source_job, E1. rewrite ?sync_source_job, E2.
    rewrite ?sync_source_job, E3. simpl.
    unfold tally. simpl. by rewrite Hr1, Hr3.
  - simpl. unfold bind. rewrite ?sync_source_job, E1.
    rewrite ?sync_source_job, E2. rewrite ?sync_source_job, E3. simpl.
    unfold tally. simpl. by rewrite Hr1, Hr3.
Qed.
End Batch.

Lemma accepted_by_agent cs : accepted Fixtures.agent cs.
Proof.
  unfold accepted. apply Forall_forall. intros c _. by destruct c.
Qed.

Lemma empty_snapshot_is_success_witness :
  run_job Fixtures.agent Fixtures.empty_page Fixtures.world
  = (inr (mkSyncResult true "confluence" "empty" 0 0 0 0 0 []
            ["No tables found in content"]),
     mkWorld (lineage Fixtures.world)
       (calls Fixtures.world ++ start_calls Fixtures.agent Fixtures.empty_page
        ++ [fetch_call Fixtures.empty_page; load_prompt "extract_schema.txt";
            extract_schema "confluence" "empty"])).
Proof.
  exact (empty_snapshot_is_success Fixtures.agent Fixtures.empty_page Fixtures.world
           Fixtures.source_document
           "prompt" (Some (mkSnapshot (Some [])))
           (accepted_by_agent _) eq_refl eq_refl eq_refl I).
Defined.

(** C2, as stated, fails: with lineage enabled and lineage files that
    cannot be written, the job of a page with one documented table returns
    [success = False] with the error of the lineage block, and neither the
    drift check nor the warehouse write is called; the same job with
    writable files succeeds. *)
Lemma lineage_failure_fails_job :
  let out := sync_confluence_page Fixtures.agent "42" false false false false
               Fixtures.world_read_only in
  out.1 = inr (mkSyncResult false "confluence" "42" 1 0 0 0 0
                 ["cannot write lineage files"] [])
  ∧ (drift_compare ∉ calls out.2) ∧ (write_comments ∉ calls out.2)
  ∧ succeeded (sync_confluence_page Fixtures.agent "42" false false false
                 false Fixtures.world).1 = true.
Proof.
  assert (Hc : calls (sync_confluence_page Fixtures.agent "42" false false false
                        false Fixtures.world_read_only).2
               = [audit_sync_start "confluence" "42"; get_page "42";
                  load_prompt "extract_schema.txt";
                  extract_schema "confluence" "42";
                  vector_add_document "confluence" "42" ["customers"];
                  audit_sync_failed "confluence" "42" "cannot write lineage files";
                  notify_sync_failed "confluence" "42" "cannot write lineage files"])
    by (vm_compute; reflexivity).
  cbv zeta. rewrite Hc. split; [vm_compute; reflexivity|].
  split; [|split; [|vm_compute; reflexivity]].
  - intros H. repeat (apply elem_of_cons in H as [H|H]; [discriminate H|]).
    by apply elem_of_nil in H.
  - intros H. repeat (apply elem_of_cons in H as [H|H]; [discriminate H|]).
    by apply elem_of_nil in H.
Qed.

Lemma lineage_error_is_fatal_witness :
  run_job Fixtures.agent Fixtures.customers_page Fixtures.world_read_only
  = (inr (mkSyncResult false "confluence" "42" 1 0 0 0 0
            [str_exn (OSError "cannot write lineage files")] []),
     mkWorld (lineage Fixtures.tracked.1)
       (calls Fixtures.indexed.1
        ++ failure_calls Fixtures.agent Fixtures.customers_page
             (OSError "cannot write lineage files"))).
Proof.
  apply (lineage_error_is_fatal Fixtures.agent Fixtures.customers_page
           Fixtures.world_read_only
           Fixtures.source_document
           "prompt" Fixtures.documented Fixtures.indexed Fixtures.tracked
           (OSError "cannot write lineage files")).
  - apply accepted_by_agent.
  - reflexivity.
  - reflexivity.
  - reflexivity.
  - reflexivity.
  - vm_compute. reflexivity.
  - vm_compute. reflexivity.
  - apply accepted_by_agent.
Defined.

(** C3: the code breaks the claim when the audit database rejects the
    record of the failed job. The handler of the job's [try] block calls
    [audit.log_sync_failed] without a guard, so the exception leaves the
    job whose fetch failed instead of becoming a failed result, and
    [batch_sync] raises instead of returning the three results, in
    sequential and in parallel mode, although jobs 1 and 3 succeed when
    run alone. *)
Lemma batch_aborted_by_audit_failure :
  (sync_source (Fixtures.agent_with Fixtures.audit_down) false
     ("confluence", "bad") Fixtures.world).1
  = inl (OSError "database is locked")
  ∧ (∀ parallel,
       (batch_sync (Fixtures.agent_with Fixtures.audit_down)
          (Some ["1"; "bad"; "3"]) None false parallel Fixtures.world).1
       = inl (OSError "database is locked"))
  ∧ succeeded (sync_source (Fixtures.agent_with Fixtures.audit_down) false
                 ("confluence", "1") Fixtures.world).1 = true
  ∧ succeeded (sync_source (Fixtures.agent_with Fixtures.audit_down) false
                 ("confluence", "3") Fixtures.world).1 = true.
Proof.
  split; [vm_compute; reflexivity|].
  split; [intros []; vm_compute; reflexivity|].
  split; vm_compute; reflexivity.
Qed.

Lemma batch_isolates_failed_fetch_witness :
  (batch_sync Fixtures.agent (Some ["1"; "bad"]) (Some ["J-3"]) false true
     Fixtures.world).1
  = inr (mkBatch 3 2 1
           [Fixtures.first_alone;
            failed_fetch (job_of false ("confluence", "bad"));
            Fixtures.third_alone]).
Proof.
  apply (batch_isolates_failed_fetch Fixtures.agent (Some ["1"; "bad"])
           (Some ["J-3"]) false true Fixtures.world
           ("confluence", "1") ("confluence", "bad") ("jira", "J-3")).
  - reflexivity.
  - reflexivity.
  - apply accepted_by_agent.
  - apply accepted_by_agent.
  - vm_compute. reflexivity.
  - reflexivity.
  - vm_compute. reflexivity.
  - reflexivity.
Defined.
End OrchestratorFacts.

(** ** Facts about the rest of the lineage tracker *)

Module LineageApiFacts.
Import Py Lineage LineageApi CountFacts.

(** *** Invariants of the mutating methods *)

Lemma preserves_bind I {A B} (m : Eff LineageTracker A) (k : A → Eff LineageTracker B) :
  preserves I m → (∀ a, preserves I (k a)) → preserves I (bind m k).
Proof.
  intros Hm Hk t Ht. unfold bind. specialize (Hm t Ht).
  destruct (m t) as [[e|a] t1]; simpl in *; [done|]. by apply Hk.
Qed.

Lemma preserves_ret I {A} (a : A) : preserves I (ret a).
Proof. by intros t Ht. Qed.

Lemma preserves_for_each I {A} (xs : list A) (body : A → Eff LineageTracker unit) :
  (∀ x, preserves I (body x)) → preserves I (for_each xs body).
Proof.
  intros H. induction xs as [|x xs IH]; simpl; [apply preserves_ret|].
  apply preserves_bind; [apply H | intros _; apply IH].
Qed.

Section Invariant.
Variable I : LineageTracker → Prop.

(** What an invariant needs: it does not look at the files, it survives
    the storing of a node under its own id, and the appending of an edge
    for a pair that has none. *)
Hypothesis I_files : ∀ t nf ef,
  I t → I (mkTracker (nodes t) (edges t) nf ef (writable t)).
Hypothesis I_node : ∀ t n,
  I t → I (with_nodes (insert (node_id n) n) t).
Hypothesis I_edge : ∀ t e,
  I t → existsb (same_pair (source_id e) (target_id e)) (edges t) = false →
  I (with_edges (λ es, es ++ [e]) t).

Lemma preserves_save : preserves I _save.
Proof.
  intros t Ht. unfold _save. destruct (writable t) eqn:E; [|done]. simpl.
  rewrite <- E. by apply I_files.
Qed.

Lemma preserves_store {A} (n : LineageNode) (a : A) :
  preserves I (modify (with_nodes (insert (node_id n) n)) >> _save >> ret a).
Proof.
  apply preserves_bind; [intros t Ht; by apply I_node|]. intros _.
  apply preserves_bind; [apply preserves_save | intros _; apply preserves_ret].
Qed.

Lemma preserves_add_edge now a b rel md : preserves I (add_edge now a b rel md).
Proof.
  intros t Ht. unfold add_edge, bind, get.
  destruct (existsb (same_pair a b) (edges t)) eqn:E; [done|].
  unfold modify. simpl. apply preserves_save.
  by apply (I_edge t (mkEdge a b rel (default [] md) now)).
Qed.

Lemma preserves_invoke_method now m : preserves I (invoke_method now m).
Proof.
  destruct m as [n db sc o d | n c ty db sc | st sid ti u | n ty fp
                | a b rel md | n st sid db sc | n srcs tgts ty]; simpl.
  - apply preserves_bind; [|intros; apply preserves_ret].
    apply (preserves_store (mkNode (table_key db sc n) _ _ _ _)).
  - apply preserves_bind; [|intros; apply preserves_ret].
    unfold add_column.
    apply preserves_bind;
      [intros t Ht;
       apply (I_node t (mkNode (column_key db sc n c) _ _ _ _) Ht)|].
    intros _. apply preserves_bind; [apply preserves_add_edge|]. intros _.
    apply preserves_bind; [apply preserves_save | intros _; apply preserves_ret].
  - apply preserves_bind; [|intros; apply preserves_ret].
    apply (preserves_store (mkNode (doc_key st sid) _ _ _ _)).
  - apply preserves_bind; [|intros; apply preserves_ret].
    apply (preserves_store (mkNode (transform_key ty n) _ _ _ _)).
  - apply preserves_add_edge.
  - apply preserves_add_edge.
  - unfold link_transformation. apply preserves_bind.
    + apply preserves_for_each. intros x. apply preserves_add_edge.
    + intros _. apply preserves_for_each. intros x. apply preserves_add_edge.
Qed.

Lemma preserved_after_calls ms : ∀ t, I t → I (after_calls ms t).
Proof.
  induction ms as [|[now m] ms IH]; intros t Ht; [done|].
  apply IH. by apply preserves_invoke_method.
Qed.
End Invariant.

Lemma no_pair_not_elem a b (es : list LineageEdge) :
  existsb (same_pair a b) es = false →
  (a, b) ∉ (λ e, (source_id e, target_id e)) <$> es.
Proof.
  intros H Hin. apply list_elem_of_fmap in Hin as (e & Heq & He).
  injection Heq as -> ->.
  assert (existsb (same_pair (source_id e) (target_id e)) es = true); [|congruence].
  apply existsb_exists. exists e. split; [by apply list_elem_of_In|].
  unfold same_pair. by rewrite !bool_decide_eq_true_2.
Qed.

(** X1: whatever methods are called, with whatever arguments and whether or not
    some of them raise, the graph keeps at most one edge for every ordered
    pair of node ids. *)
Theorem calls_keep_pairs_unique ms t :
  pairs_unique t → pairs_unique (after_calls ms t).
Proof.
  apply preserved_after_calls.
  - by intros t0 nf ef H.
  - by intros t0 n H.
  - intros t0 e H Hnone. unfold pairs_unique in *. simpl.
    rewrite fmap_app. apply NoDup_app. split; [done|]. split.
    + intros p Hp Hp'. apply list_elem_of_singleton in Hp' as ->.
      by apply (no_pair_not_elem _ _ _ Hnone).
    + apply NoDup_singleton.
Qed.

(** X2: whatever methods are called, every node stays stored under its own id. *)
Theorem calls_keep_keys_consistent ms t :
  keys_consistent t → keys_consistent (after_calls ms t).
Proof.
  apply preserved_after_calls.
  - by intros t0 nf ef H.
  - intros t0 n H. unfold keys_consistent in *. simpl.
    by apply map_Forall_insert_2.
  - by intros t0 e H _.
Qed.

(** *** Persistence *)

Lemma lands_bind {A B} (m : Eff LineageTracker A) (k : A → Eff LineageTracker B) :
  (∀ a, lands_persisted (k a)) → lands_persisted (bind m k).
Proof.
  intros Hk t b t' H. unfold bind in H.
  destruct (m t) as [[e|a] t1]; [done|]. by eapply Hk.
Qed.

Lemma keeps_persisted_bind {A B} (m : Eff LineageTracker A)
    (k : A → Eff LineageTracker B) :
  keeps_persisted m → (∀ a, keeps_persisted (k a)) → keeps_persisted (bind m k).
Proof.
  intros Hm Hk t b t' Ht H. unfold bind in H.
  destruct (m t) as [[e|a] t1] eqn:E; [done|].
  eapply Hk; [|exact H]. by eapply Hm.
Qed.

Lemma lands_keeps {A} (m : Eff LineageTracker A) :
  lands_persisted m → keeps_persisted m.
Proof. intros H t a t' _ Hm. by eapply H. Qed.

Lemma lands_save_ret {A} (a : A) : lands_persisted (_save >> ret a).
Proof.
  intros t b t' H. unfold bind, _save, ret in H.
  destruct (writable t); [|done]. by injection H as _ <-.
Qed.

Lemma lands_then_ret {A B} (m : Eff LineageTracker A) (b : B) :
  lands_persisted m → lands_persisted (m >> ret b).
Proof.
  intros Hm t b' t' H. unfold bind, ret in H.
  destruct (m t) as [[e|a] t1] eqn:E; [done|].
  injection H as _ <-. by eapply Hm.
Qed.

Lemma lands_save : lands_persisted _save.
Proof.
  intros t b t' H. unfold _save in H.
  destruct (writable t); [|done]. by injection H as _ <-.
Qed.

Lemma keeps_persisted_add_edge now a b rel md :
  keeps_persisted (add_edge now a b rel md).
Proof.
  intros t u t' Ht H. unfold add_edge, bind, get in H.
  destruct (existsb (same_pair a b) (edges t)).
  - by injection H as _ <-.
  - unfold modify in H. by eapply lands_save.
Qed.

Lemma keeps_persisted_for_each {A} (xs : list A)
    (body : A → Eff LineageTracker unit) :
  (∀ x, keeps_persisted (body x)) → keeps_persisted (for_each xs body).
Proof.
  intros H. induction xs as [|x xs IH]; simpl.
  - intros t a t' Ht E. by injection E as _ <-.
  - apply keeps_persisted_bind; [apply H | intros _; apply IH].
Qed.

Lemma init_persisted nf ef w : persisted (init nf ef w).
Proof. done. Qed.

(** X3: a method that returns normally on a tracker whose files hold what
    memory holds leaves such a tracker: loading the files again gives the
    graph that the method left in memory. *)
Theorem returned_call_is_persisted now m t :
  persisted t → (invoke_method now m t).1 = inr tt →
  persisted (invoke_method now m t).2.
Proof.
  intros Ht H. destruct (invoke_method now m t) as [o t'] eqn:E.
  simpl in *. subst o. revert E.
  assert (K : keeps_persisted (invoke_method now m)); [|by apply K].
  clear. destruct m as [n db sc o d | n c ty db sc | st sid ti u | n ty fp
                | a b rel md | n st sid db sc | n srcs tgts ty]; simpl.
  - apply lands_keeps, lands_then_ret.
    apply lands_bind. intros _. apply lands_save_ret.
  - apply lands_keeps, lands_then_ret.
    apply lands_bind. intros _. apply lands_bind. intros _. apply lands_save_ret.
  - apply lands_keeps, lands_then_ret.
    apply lands_bind. intros _. apply lands_save_ret.
  - apply lands_keeps, lands_then_ret.
    apply lands_bind. intros _. apply lands_save_ret.
  - apply keeps_persisted_add_edge.
  - apply keeps_persisted_add_edge.
  - unfold link_transformation. apply keeps_persisted_bind.
    + apply keeps_persisted_for_each. intros x. apply keeps_persisted_add_edge.
    + intros _. apply keeps_persisted_for_each. intros x.
      apply keeps_persisted_add_edge.
Qed.

(** *** Node keys *)

Lemma upper_app a b : upper (a +:+ b) = upper a +:+ upper b.
Proof. induction a as [|c a IH]; simpl; [done | by rewrite IH]. Qed.

Lemma upper_ascii_idemp c : upper_ascii (upper_ascii c) = upper_ascii c.
Proof.
  destruct c as [[] [] [] [] [] [] [] []]; vm_compute; reflexivity.
Qed.

Lemma upper_idemp s : upper (upper s) = upper s.
Proof.
  induction s as [|c s IH]; simpl; [done|]. by rewrite upper_ascii_idemp, IH.
Qed.

Lemma table_key_upper db1 sc1 n1 db2 sc2 n2 :
  upper db1 = upper db2 → upper sc1 = upper sc2 → upper n1 = upper n2 →
  table_key db1 sc1 n1 = table_key db2 sc2 n2.
Proof.
  intros Hd Hs Hn. unfold table_key. rewrite !upper_app. by rewrite Hd, Hs, Hn.
Qed.

(** X4: table nodes are keyed without regard to case: a second [add_table] whose
    database, schema and table name differ from the first only in case
    overwrites the node of the first, metadata included (last write wins),
    and the graph has no more nodes than after one call. *)
Theorem add_table_overwrites_same_name
    now1 now2 n1 n2 db1 db2 sc1 sc2 o1 o2 d1 d2 t :
  upper db1 = upper db2 → upper sc1 = upper sc2 → upper n1 = upper n2 →
  let t1 := (add_table now1 n1 db1 sc1 o1 d1 t).2 in
  let t2 := (add_table now2 n2 db2 sc2 o2 d2 t1).2 in
  nodes t2 = nodes (add_table now2 n2 db2 sc2 o2 d2 t).2
  ∧ nodes t2 !! table_key db1 sc1 n1
    = Some (mkNode (table_key db2 sc2 n2) "table" (upper n2)
              [("database", Some db2); ("schema", Some sc2);
               ("owner", o2); ("description", d2)] now2)
  ∧ size (nodes t2) = size (nodes t1).
Proof.
  intros Hd Hs Hn t1 t2.
  pose proof (table_key_upper _ _ _ _ _ _ Hd Hs Hn) as Hk.
  assert (Hn1 : ∀ now n db sc o d t0,
    nodes (add_table now n db sc o d t0).2
    = <[table_key db sc n :=
          mkNode (table_key db sc n) "table" (upper n)
            [("database", Some db); ("schema", Some sc);
             ("owner", o); ("description", d)] now]> (nodes t0)).
  { intros. unfold add_table, bind, modify, _save, ret. simpl.
    by destruct (writable t0). }
  unfold t2, t1. rewrite !Hn1, Hk. split; [by rewrite insert_insert_eq|].
  split; [by rewrite lookup_insert_eq|].
  rewrite insert_insert_eq.
  destruct (nodes t !! table_key db2 sc2 n2) eqn:E.
  - rewrite !map_size_insert_Some; done.
  - rewrite !map_size_insert_None; done.
Qed.

(** *** What a traversal reports *)

Section Entries.
Variables near far : LineageEdge → string.
Variable t : LineageTracker.
Variable depth : Z.

Lemma entry_of_weaken lo lo' d :
  lo' ≤ lo → entry_of far t lo depth d → entry_of far t lo' depth d.
Proof. intros Hle [Hd He]. split; [lia | done]. Qed.

Lemma traverse_entries fuel : ∀ cur cd V R st',
  traverse near far t depth fuel cur cd (V, R) = Some st' →
  ∃ Δ, st'.2 = R ++ Δ ∧ Forall (entry_of far t cd depth) Δ.
Proof.
  induction fuel as [|fuel IH]; intros cur cd V R st' H; [done|].
  simpl in H.
  destruct (bool_decide (cd > depth)) eqn:Hg; simpl in H.
  { injection H as <-. exists []. by rewrite app_nil_r. }
  apply bool_decide_eq_false in Hg.
  destruct (bool_decide (cur ∈ V)).
  { injection H as <-. exists []. by rewrite app_nil_r. }
  assert (Hloop : ∀ es V0 R0 st1, (∀ e, e ∈ es → e ∈ edges t) →
    for_edges
      (λ edge st,
         if bool_decide (near edge = cur) then
           match nodes t !! far edge with
           | Some node =>
               traverse near far t depth fuel (far edge) (cd + 1)
                 (st.1, st.2 ++ [mkDep (node_id node) (node_name node)
                                  (node_type node) (relationship edge) cd])
           | None => Some st
           end
         else Some st) es (V0, R0) = Some st1 →
    ∃ Δ, st1.2 = R0 ++ Δ ∧ Forall (entry_of far t cd depth) Δ).
  { clear H. induction es as [|e es IHes]; intros V0 R0 st1 Hes Hrun;
      simpl in Hrun.
    - injection Hrun as <-. exists []. by rewrite app_nil_r.
    - assert (Hes' : ∀ e', e' ∈ es → e' ∈ edges t)
        by (intros; apply Hes; by right).
      destruct (bool_decide (near e = cur)); [|by apply IHes in Hrun].
      destruct (nodes t !! far e) as [node|] eqn:Hnode; [|by apply IHes in Hrun].
      destruct (traverse near far t depth fuel (far e) (cd + 1) _)
        as [[V1 R1]|] eqn:Hrec; [|done].
      apply IH in Hrec as (Δ1 & HR1 & HΔ1). simpl in HR1.
      apply IHes in Hrun as (Δ2 & HR2 & HΔ2); [|done].
      exists ([mkDep (node_id node) (node_name node) (node_type node)
                 (relationship e) cd] ++ Δ1 ++ Δ2).
      split. { rewrite HR2, HR1. by rewrite <- !app_assoc. }
      apply Forall_app. split.
      + apply Forall_singleton. split; [simpl; lia|].
        exists e, node. split; [apply Hes; left | done].
      + apply Forall_app. split; [|done].
        eapply Forall_impl; [exact HΔ1|]. intros d. apply entry_of_weaken. lia. }
  by apply Hloop in H.
Qed.

Lemma run_entries fuel node r :
  run near far t depth fuel node = Some r → Forall (entry_of far t 1 depth) r.
Proof.
  unfold run. intros H.
  destruct (traverse near far t depth fuel node 1 (∅, [])) as [st|] eqn:E; [|done].
  injection H as <-. apply traverse_entries in E as (Δ & -> & HΔ). done.
Qed.

Lemma loop_grows fuel cur cd : ∀ es V1 R1 st1,
  for_edges
    (λ edge st,
       if bool_decide (near edge = cur) then
         match nodes t !! far edge with
         | Some node =>
             traverse near far t depth fuel (far edge) (cd + 1)
               (st.1, st.2 ++ [mkDep (node_id node) (node_name node)
                                (node_type node) (relationship edge) cd])
         | None => Some st
         end
       else Some st) es (V1, R1) = Some st1 →
  ∀ d, d ∈ R1 → d ∈ st1.2.
Proof.
  induction es as [|e es IH]; intros V1 R1 st1 Hrun d Hd; simpl in Hrun.
  - by injection Hrun as <-.
  - destruct (bool_decide (near e = cur)); [|by eapply IH].
    destruct (nodes t !! far e) as [n0|]; [|by eapply IH].
    destruct (traverse near far t depth fuel (far e) (cd + 1) _)
      as [[V2 R2]|] eqn:Hrec; [|done].
    apply traverse_entries in Hrec as (Δ & HR & _). simpl in HR.
    eapply IH; [exact Hrun|]. rewrite HR. set_solver.
Qed.

Lemma loop_reports fuel cur cd e n :
  near e = cur → nodes t !! far e = Some n →
  ∀ es V1 R1 st1,
  for_edges
    (λ edge st,
       if bool_decide (near edge = cur) then
         match nodes t !! far edge with
         | Some node =>
             traverse near far t depth fuel (far edge) (cd + 1)
               (st.1, st.2 ++ [mkDep (node_id node) (node_name node)
                                (node_type node) (relationship edge) cd])
         | None => Some st
         end
       else Some st) es (V1, R1) = Some st1 →
  e ∈ es →
  mkDep (node_id n) (node_name n) (node_type n) (relationship e) cd ∈ st1.2.
Proof.
  intros Hnear Hn.
  induction es as [|e' es IHes]; intros V1 R1 st1 E He;
    [by apply elem_of_nil in He|].
  simpl in E.
  apply elem_of_cons in He as [<- | He].
  - rewrite bool_decide_eq_true_2 in E by done. rewrite Hn in E.
    destruct (traverse near far t depth fuel (far e) (cd + 1) _)
      as [[V2 R2]|] eqn:Hrec; [|done].
    apply traverse_entries in Hrec as (Δ & HR & _). simpl in HR.
    eapply loop_grows; [exact E|]. rewrite HR. set_solver.
  - destruct (bool_decide (near e' = cur)); [|by eapply IHes].
    destruct (nodes t !! far e') as [n0|]; [|by eapply IHes].
    destruct (traverse near far t depth fuel (far e') (cd + 1) _)
      as [[V2 R2]|] eqn:Hrec; [|done].
    by eapply IHes.
Qed.

(** The edges of the start node whose far end is stored are all reported,
    at depth 1, as soon as the depth allows one level. *)
Lemma run_reports_neighbours fuel node r e n :
  1 ≤ depth →
  run near far t depth fuel node = Some r →
  e ∈ edges t → near e = node → nodes t !! far e = Some n →
  mkDep (node_id n) (node_name n) (node_type n) (relationship e) 1 ∈ r.
Proof.
  unfold run. intros Hdepth H He Hnear Hn.
  destruct (traverse near far t depth fuel node 1 (∅, [])) as [st|] eqn:E; [|done].
  injection H as <-. destruct fuel as [|fuel]; [done|]. simpl in E.
  rewrite bool_decide_eq_false_2 in E by lia.
  rewrite bool_decide_eq_false_2 in E by set_solver. simpl in E.
  by eapply loop_reports.
Qed.
End Entries.

(** X5: every entry of a traversal result reports a stored node reached over an
    edge of the graph, with that edge's relationship, at a depth between 1
    and the depth asked for; edges whose far end is not stored are never
    reported, and a depth below 1 gives the empty list. *)
Theorem traversal_reports_stored_nodes_in_depth t node depth :
  (∀ r, get_downstream t node depth = Some r →
        Forall (entry_of target_id t 1 depth) r ∧ (depth < 1 → r = []))
  ∧ (∀ r, get_upstream t node depth = Some r →
          Forall (entry_of source_id t 1 depth) r ∧ (depth < 1 → r = [])).
Proof.
  assert (Hnil : ∀ far (r : list Dep),
    Forall (entry_of far t 1 depth) r → depth < 1 → r = []).
  { intros far [|d r] Hr Hd; [done|].
    apply Forall_cons in Hr as [[Hdepth _] _]. lia. }
  split; intros r Hr; apply run_entries in Hr; split; eauto.
Qed.

(** X6: with a depth of at least 1, every edge that leaves the start node
    towards a stored node is reported by [get_downstream] at depth 1, and
    every edge that enters it from a stored node by [get_upstream]. *)
Theorem traversal_reports_direct_neighbours t node depth e n :
  1 ≤ depth → e ∈ edges t →
  (source_id e = node → nodes t !! target_id e = Some n →
   ∃ r, get_downstream t node depth = Some r
        ∧ mkDep (node_id n) (node_name n) (node_type n) (relationship e) 1 ∈ r)
  ∧ (target_id e = node → nodes t !! source_id e = Some n →
     ∃ r, get_upstream t node depth = Some r
          ∧ mkDep (node_id n) (node_name n) (node_type n) (relationship e) 1 ∈ r).
Proof.
  intros Hd He. split; intros Hnear Hn.
  - destruct (LineageFacts.get_downstream_total t node depth) as [r Hr].
    exists r. split; [done|].
    by eapply (run_reports_neighbours source_id target_id).
  - destruct (LineageFacts.get_upstream_total t node depth) as [r Hr].
    exists r. split; [done|].
    by eapply (run_reports_neighbours target_id source_id).
Qed.

(** *** Impact analysis *)

Lemma filter_length_count {A} (p : A → bool) (xs : list A) :
  length (List.filter p xs) = count_if p xs.
Proof.
  induction xs as [|x xs IH]; [done|]. simpl. destruct (p x); simpl; lia.
Qed.

Lemma count_three_types (r : list Dep) :
  (count_if (of_type "table") r + count_if (of_type "transformation") r
   + count_if (of_type "document") r ≤ length r)%nat
  ∧ (Forall (λ d, impact_type (dep_type d)) r →
     (count_if (of_type "table") r + count_if (of_type "transformation") r
      + count_if (of_type "document") r = length r)%nat).
Proof.
  induction r as [|d r [IHle IHeq]]; [done|]. simpl. unfold of_type in *.
  split.
  - repeat case_bool_decide; try lia; congruence.
  - intros H. apply Forall_cons in H as [Hd Hr]. specialize (IHeq Hr).
    destruct Hd as [Hd | [Hd | Hd]]; rewrite Hd;
      repeat case_bool_decide; try done; lia.
Qed.

(** X7: [impact_analysis] returns for every graph and table. Its three lists
    together never hold more entries than [total_impacted] counts, and they
    hold exactly as many when every stored node is a table, a transformation
    or a document; an entry of another type (a column) is counted in the
    total and listed nowhere. *)
Theorem impact_total_covers_the_lists t table_name database schema :
  ∃ i, impact_analysis t table_name database schema = Some i
    ∧ impact_table i = table_name
    ∧ (length (impacted_tables i) + length (impacted_transformations i)
       + length (impacted_documents i) ≤ total_impacted i)%nat
    ∧ (map_Forall (λ _ n, impact_type (node_type n)) (nodes t) →
       (length (impacted_tables i) + length (impacted_transformations i)
        + length (impacted_documents i) = total_impacted i)%nat).
Proof.
  unfold impact_analysis.
  destruct (LineageFacts.get_downstream_total t
              (table_key database schema table_name) 3) as [r Hr].
  rewrite Hr. simpl. eexists. split; [done|]. simpl.
  rewrite !filter_length_count. split; [done|].
  destruct (count_three_types r) as [Hle Heq]. split; [done|].
  intros Hall. apply Heq.
  apply run_entries in Hr.
  eapply Forall_impl; [exact Hr|]. intros d [_ (e & n & _ & Hn & ->)]. simpl.
  by apply (Hall _ _ Hn).
Qed.

(** *** Statistics *)

Lemma tally_from_lookup (ks : list string) : ∀ (m : gmap string nat) k,
  foldl count_key m ks !! k
  = (if decide (count_if (λ x, bool_decide (x = k)) ks = 0%nat) then m !! k
     else Some (default 0 (m !! k) + count_if (λ x, bool_decide (x = k)) ks)%nat).
Proof.
  induction ks as [|x ks IH]; intros m k; simpl; [done|].
  rewrite IH. generalize (count_if (λ x0, bool_decide (x0 = k)) ks). intros c.
  unfold count_key.
  case_bool_decide as Hx; simpl.
  - subst x. rewrite lookup_insert_eq. simpl.
    destruct (decide (c = 0%nat)) as [->|]; f_equal; lia.
  - rewrite lookup_insert_ne by done. done.
Qed.

Lemma tally_keys_lookup ks k :
  tally_keys ks !! k
  = (if decide (count_if (λ x, bool_decide (x = k)) ks = 0%nat) then None
     else Some (count_if (λ x, bool_decide (x = k)) ks)).
Proof. unfold tally_keys. rewrite tally_from_lookup, lookup_empty. done. Qed.

Lemma sum_counts_insert (m : gmap string nat) k c :
  (sum_counts (<[k := c]> m) + default 0 (m !! k) = sum_counts m + c)%nat.
Proof.
  unfold sum_counts.
  destruct (m !! k) as [c0|] eqn:Hk; simpl.
  - rewrite <- (insert_delete_id m k c0) at 2 by done.
    rewrite <- (insert_delete_eq m k c).
    rewrite !map_fold_insert_L; try (by rewrite lookup_delete_eq);
      try (intros; lia).
  - rewrite map_fold_insert_L; [lia | intros; lia | done].
Qed.

Lemma sum_counts_tally ks : ∀ m,
  sum_counts (foldl count_key m ks) = (sum_counts m + length ks)%nat.
Proof.
  induction ks as [|k ks IH]; intros m; simpl; [lia|].
  rewrite IH. unfold count_key.
  pose proof (sum_counts_insert m k (default 0 (m !! k) + 1)%nat). lia.
Qed.

(** X8: [get_stats] counts exactly: a node type (an edge relationship) is a key
    of its dict when some node (edge) has it, its value is then the number
    of nodes (edges) that have it, and the values of each dict add up to
    [total_nodes] ([total_edges]). *)
Theorem stats_count_every_node_and_edge t ty :
  let s := get_stats t in
  let n := count_if (λ x, bool_decide (node_type x = ty))
             (map_to_list (nodes t)).*2 in
  let e := count_if (λ x, bool_decide (relationship x = ty)) (edges t) in
  nodes_by_type s !! ty = (if decide (n = 0%nat) then None else Some n)
  ∧ edges_by_relationship s !! ty = (if decide (e = 0%nat) then None else Some e)
  ∧ sum_counts (nodes_by_type s) = total_nodes s
  ∧ sum_counts (edges_by_relationship s) = total_edges s.
Proof.
  assert (Hmap : ∀ {A} (f : A → string) (xs : list A),
    count_if (λ x, bool_decide (x = ty)) (f <$> xs)
    = count_if (λ x, bool_decide (f x = ty)) xs).
  { intros A f xs. induction xs as [|x xs IH]; [done|]. csimpl. by rewrite IH. }
  simpl. rewrite !tally_keys_lookup, !Hmap. split; [done|]. split; [done|].
  unfold tally_keys. rewrite !sum_counts_tally.
  unfold sum_counts. rewrite map_fold_empty, !length_fmap. simpl.
  by rewrite length_map_to_list.
Qed.

(** *** Examples *)

Lemma calls_keep_pairs_unique_witness :
  LineageApi.pairs_unique Examples.fresh_tracker
  ∧ LineageApi.pairs_unique
      (LineageApi.after_calls Examples.method_calls Examples.fresh_tracker).
Proof.
  assert (H : LineageApi.pairs_unique Examples.fresh_tracker) by constructor.
  split; [exact H|].
  exact (LineageApiFacts.calls_keep_pairs_unique Examples.method_calls
           Examples.fresh_tracker H).
Defined.

Lemma calls_keep_keys_consistent_witness :
  Lineage.keys_consistent Examples.fresh_tracker
  ∧ Lineage.keys_consistent
      (LineageApi.after_calls Examples.method_calls Examples.fresh_tracker).
Proof.
  assert (H : Lineage.keys_consistent Examples.fresh_tracker)
    by apply map_Forall_empty.
  split; [exact H|].
  exact (LineageApiFacts.calls_keep_keys_consistent Examples.method_calls
           Examples.fresh_tracker H).
Defined.

Lemma returned_call_is_persisted_witness :
  LineageApi.persisted Examples.fresh_tracker
  ∧ LineageApi.persisted
      (LineageApi.invoke_method "2024-01-01T00:00:01" Examples.first_call
         Examples.fresh_tracker).2.
Proof.
  assert (H : LineageApi.persisted Examples.fresh_tracker)
    by (split; reflexivity).
  split; [exact H|].
  apply (LineageApiFacts.returned_call_is_persisted "2024-01-01T00:00:01"
           Examples.first_call Examples.fresh_tracker H).
  vm_compute. reflexivity.
Defined.

Lemma add_table_overwrites_same_name_witness :
  size (Lineage.nodes
          (Lineage.add_table "2024-01-02" "CUSTOMERS" "analytics" "public"
             (Some "data team") None
             (Lineage.add_table "2024-01-01" "customers" "ANALYTICS" "PUBLIC"
                None None Examples.fresh_tracker).2).2)
  = size (Lineage.nodes
            (Lineage.add_table "2024-01-01" "customers" "ANALYTICS" "PUBLIC"
               None None Examples.fresh_tracker).2).
Proof.
  exact (proj2 (proj2
    (LineageApiFacts.add_table_overwrites_same_name
       "2024-01-01" "2024-01-02" "customers" "CUSTOMERS"
       "ANALYTICS" "analytics" "PUBLIC" "public" None (Some "data team")
       None None Examples.fresh_tracker eq_refl eq_refl eq_refl))).
Defined.

Lemma traversal_reports_direct_neighbours_witness :
  ∃ r, Lineage.get_downstream Fixtures.diamond "A" 3 = Some r
       ∧ Lineage.mkDep "B" "B" "table" "reads_from" 1 ∈ r.
Proof.
  assert (Hd : 1 ≤ 3) by lia.
  assert (He : Fixtures.edge "A" "B" "reads_from" ∈ Lineage.edges Fixtures.diamond)
    by (vm_compute; left).
  apply (proj1 (LineageApiFacts.traversal_reports_direct_neighbours
                  Fixtures.diamond "A" 3 (Fixtures.edge "A" "B" "reads_from")
                  (Fixtures.node "B") Hd He)).
  - reflexivity.
  - vm_compute. reflexivity.
Defined.
End LineageApiFacts.

(** ** More facts about the drift detector *)

Module DriftMoreFacts.
Import Py Schema Drift.

(** *** Type aliases *)

Lemma types_compatible_spec a b :
  _types_compatible a b = true
  ↔ a = b ∨ ∃ g, g ∈ type_groups ∧ a ∈ g ∧ b ∈ g.
Proof.
  unfold _types_compatible. rewrite orb_true_iff, existsb_exists.
  rewrite bool_decide_eq_true. split.
  - intros [(g & Hg & H) | ->]; [right | by left].
    apply andb_true_iff in H as [Ha Hb].
    apply bool_decide_eq_true in Ha, Hb. exists g.
    by rewrite list_elem_of_In.
  - intros [-> | (g & Hg & Ha & Hb)]; [by right | left].
    exists g. rewrite <- list_elem_of_In. split; [done|].
    apply andb_true_iff. by rewrite !bool_decide_eq_true.
Qed.

(** No type name is in two groups. *)
Lemma type_groups_disjoint g g' x :
  g ∈ type_groups → g' ∈ type_groups → x ∈ g → x ∈ g' → g = g'.
Proof.
  assert (H : forallb (λ g, forallb (λ g', forallb (λ x : string,
                implb (bool_decide (x ∈ g')) (bool_decide (g = g'))) g)
              type_groups) type_groups = true) by (vm_compute; reflexivity).
  intros Hg Hg' Hx Hx'.
  rewrite forallb_forall in H. apply list_elem_of_In, H in Hg.
  rewrite forallb_forall in Hg. apply list_elem_of_In, Hg in Hg'.
  rewrite forallb_forall in Hg'. apply list_elem_of_In, Hg' in Hx.
  rewrite (bool_decide_eq_true_2 _ Hx') in Hx. simpl in Hx.
  by apply bool_decide_eq_true in Hx.
Qed.

(** X9: [_types_compatible] is an equivalence on type names: the alias groups
    do not overlap, so being compatible is transitive as well as reflexive
    and symmetric; and whether two types conflict does not depend on which
    of them is the documented one. *)
Theorem types_compatible_is_an_equivalence a b c :
  _types_compatible a a = true
  ∧ _types_compatible a b = _types_compatible b a
  ∧ (_types_compatible a b = true → _types_compatible b c = true →
     _types_compatible a c = true)
  ∧ type_conflict a b = type_conflict b a.
Proof.
  assert (Hsym : ∀ x y, _types_compatible x y = true → _types_compatible y x = true).
  { intros x y. rewrite !types_compatible_spec.
    intros [-> | (g & ? & ? & ?)]; [by left | right; by exists g]. }
  assert (Hcomm : ∀ x y, _types_compatible x y = _types_compatible y x).
  { intros x y. destruct (_types_compatible x y) eqn:E1.
    - symmetry. by apply Hsym.
    - destruct (_types_compatible y x) eqn:E2; [|done].
      apply Hsym in E2. congruence. }
  split_and!.
  - apply types_compatible_spec. by left.
  - apply Hcomm.
  - rewrite !types_compatible_spec.
    intros [-> | (g & Hg & Ha & Hb)]; [done|].
    intros [<- | (g' & Hg' & Hb' & Hc)]; [right; by exists g|].
    assert (g = g') as <- by by apply (type_groups_disjoint g g' b).
    right. by exists g.
  - unfold type_conflict. rewrite (Hcomm a b).
    destruct (bool_decide (a ≠ "")) eqn:Ea, (bool_decide (b ≠ "")) eqn:Eb;
      simpl; try done.
    f_equal. apply bool_decide_ext. split; intros H ?; by apply H.
Qed.

(** *** Table-level issues *)



Lemma Forall_type_map (P : DriftIssue → Prop) (f : string → DriftIssue) l :
  (∀ x, P (f x)) → Forall P (map f l).
Proof.
  intros H. apply Forall_forall. intros i Hi.
  apply list_elem_of_In, in_map_iff in Hi as (x & <- & _). apply H.
Qed.

Lemma common_table_column_level doc live T iss :
  compare_common_table doc live T = inr iss →
  Forall (λ i, drift_type i ≠ TABLE_MISSING_IN_DOCS
               ∧ drift_type i ≠ TABLE_MISSING_IN_SNOWFLAKE) iss.
Proof.
  unfold compare_common_table. intros H.
  apply DriftFacts.rbind_ok in H as (dt & _ & H).
  apply DriftFacts.rbind_ok in H as (d & _ & H).
  apply DriftFacts.rbind_ok in H as (lt & _ & H).
  apply DriftFacts.rbind_ok in H as (a & _ & H).
  destruct d as [d|], a as [a|]; try (injection H as <-; constructor).
  apply DriftFacts.compare_columns_ok in H as (dm & am & common & _ & _ & Hc & ->).
  apply Forall_app. split; [by apply Forall_type_map|].
  apply Forall_app. split; [by apply Forall_type_map|].
  eapply DriftFacts.rmap_concat_Forall; [|exact Hc]. intros c y Hy. simpl in Hy.
  apply DriftFacts.rbind_ok in Hy as (dc & _ & Hy).
  apply DriftFacts.rbind_ok in Hy as (ac & _ & Hy).
  injection Hy as <-.
  unfold compare_common_column. apply Forall_app. split.
  - destruct (type_conflict _ _); repeat constructor; done.
  - destruct (bool_decide _); repeat constructor; done.
Qed.


(** *** Examples *)

End DriftMoreFacts.

(** ** Facts about the warehouse client *)

Module SnowflakeFacts.
Import Py Schema Drift Snowflake.

(** *** Quoting *)

Lemma double_quotes_empty v : double_quotes v = "" → v = "".
Proof. destruct v as [|c v]; [done|]. simpl. by case_bool_decide. Qed.

Lemma single_quotes_other c s :
  c ≠ "'"%char → single_quotes (String c s) = String c (single_quotes s).
Proof.
  intros Hc. destruct s as [|c' s]; [done|].
  change (single_quotes (String c (String c' s)))
    with (if bool_decide (c = "'"%char) && bool_decide (c' = "'"%char)
          then String "'" (single_quotes s)
          else String c (single_quotes (String c' s))).
  by rewrite bool_decide_eq_false_2.
Qed.

Lemma single_double v : single_quotes (double_quotes v) = v.
Proof.
  induction v as [|c v IH]; [done|].
  change (double_quotes (String c v))
    with (if bool_decide (c = "'"%char)
          then String "'" (String "'" (double_quotes v))
          else String c (double_quotes v)).
  case_bool_decide as Hc.
  - subst c.
    change (single_quotes (String "'" (String "'" (double_quotes v))))
      with (String "'" (single_quotes (double_quotes v))).
    by rewrite IH.
  - by rewrite single_quotes_other, IH.
Qed.

Lemma quotes_double v : quotes (double_quotes v) = (2 * quotes v)%nat.
Proof.
  induction v as [|c v IH]; [done|]. simpl.
  case_bool_decide as Hc; simpl.
  - rewrite IH. lia.
  - rewrite bool_decide_eq_false_2 by done. rewrite IH. lia.
Qed.

(** X12: [_escape_string] loses nothing: replacing the pairs of quotes of its
    result by single quotes gives the value back, so two different values
    are never escaped to the same text. Every quote of the value becomes
    two, only the empty value (or no value) gives the empty text. *)
Theorem escape_string_round_trip v w :
  single_quotes (_escape_string (Some v)) = v
  ∧ (_escape_string (Some v) = _escape_string (Some w) → v = w)
  ∧ quotes (_escape_string (Some v)) = (2 * quotes v)%nat
  ∧ (_escape_string (Some v) = "" ↔ v = "")
  ∧ _escape_string None = "".
Proof.
  simpl. split; [apply single_double|]. split.
  { intros H. apply (f_equal single_quotes) in H.
    by rewrite !single_double in H. }
  split; [apply quotes_double|]. split; [|done].
  split; [apply double_quotes_empty | by intros ->].
Qed.

(** *** [get_existing_schema] *)

Section Existing.
Variable self : Client.

Lemma column_of_named (cols : list ColumnRow) : forallb column_named (column_of <$> cols).
Proof.
  induction cols as [|c cols IH]; [done|]. exact IH.
Qed.

Lemma column_of_filled (cols : list ColumnRow) :
  fill_column <$> (column_of <$> cols) = column_of <$> cols.
Proof. induction cols as [|c cols IH]; [done|]. csimpl. by rewrite IH. Qed.

Lemma fill_table_of table_row cols :
  fill_table (table_of table_row cols) = table_of table_row cols.
Proof.
  unfold fill_table, table_of, columns_or_empty.
  cbn [columns table_name owner description default from_option].
  unfold id. by rewrite column_of_filled.
Qed.

Lemma fetch_tables_rows names : ∀ ts,
  fetch_tables self names = inr ts →
  Forall (λ t, ∃ n rows table_row cols,
            n ∈ names
            ∧ select_table self (database self) (schema self) (upper n) = inr rows
            ∧ head rows = Some table_row
            ∧ t = table_of table_row cols) ts
  ∧ (length ts ≤ length names)%nat.
Proof.
  induction names as [|n names IH]; intros ts H; simpl in H.
  - injection H as <-. split; [constructor | done].
  - destruct (select_table self _ _ (upper n)) as [e|rows] eqn:Hrows; [done|].
    simpl in H. destruct (head rows) as [table_row|] eqn:Hrow.
    + destruct (select_columns self _ _ (upper n)) as [e|cols]; [done|].
      simpl in H.
      destruct (fetch_tables self names) as [e|more]; [done|]. simpl in H.
      injection H as <-. destruct (IH more eq_refl) as [Hall Hlen].
      split; [|simpl; lia]. constructor.
      * exists n, rows, table_row, cols. split; [left|done].
      * eapply Forall_impl; [exact Hall|].
        intros t (n' & rows' & r' & cols' & Hn' & ?). exists n', rows', r', cols'.
        split; [by right | done].
    + destruct (IH ts H) as [Hall Hlen]. split; [|simpl; lia].
      eapply Forall_impl; [exact Hall|].
      intros t (n' & rows' & r' & cols' & Hn' & ?). exists n', rows', r', cols'.
      split; [by right | done].
Qed.

Lemma fetch_tables_shape names ts :
  fetch_tables self names = inr ts →
  forallb table_named ts ∧ fill_table <$> ts = ts.
Proof.
  intros H. apply fetch_tables_rows in H as [H _].
  induction H as [|t ts (n & rows & r & cols & _ & _ & _ & ->) _ [IH1 IH2]];
    [done|].
  split.
  - simpl. apply andb_True. split; [|exact IH1]. apply andb_True.
    split; [apply bool_decide_pack; by eexists | apply column_of_named].
  - by rewrite fmap_cons, fill_table_of, IH2.
Qed.

Lemma fetch_tables_total names :
  (∀ n, ∃ rows, select_table self (database self) (schema self) n = inr rows) →
  (∀ n, ∃ cols, select_columns self (database self) (schema self) n = inr cols) →
  ∃ ts, fetch_tables self names = inr ts.
Proof.
  intros Ht Hc. induction names as [|n names [ts IH]]; simpl; [by eexists|].
  destruct (Ht (upper n)) as [rows ->]. simpl.
  destruct (head rows); [|by eexists].
  destruct (Hc (upper n)) as [cols ->]. simpl.
  rewrite IH. simpl. by eexists.
Qed.

Lemma fetch_tables_asked names : ∀ ts n,
  fetch_tables self names = inr ts → n ∈ names →
  ∃ rows, select_table self (database self) (schema self) (upper n) = inr rows
          ∧ ∀ table_row, head rows = Some table_row →
              ∃ cols, table_of table_row cols ∈ ts.
Proof.
  induction names as [|n' names IH]; intros ts n H Hn;
    [by apply elem_of_nil in Hn|].
  simpl in H.
  destruct (select_table self _ _ (upper n')) as [e|rows] eqn:Hrows; [done|].
  simpl in H. destruct (head rows) as [table_row|] eqn:Hrow.
  - destruct (select_columns self _ _ (upper n')) as [e|cols]; [done|].
    simpl in H.
    destruct (fetch_tables self names) as [e|more] eqn:Hmore; [done|].
    simpl in H. injection H as <-.
    apply elem_of_cons in Hn as [-> | Hn].
    + exists rows. split; [done|]. intros r Hr. exists cols.
      rewrite Hrow in Hr. injection Hr as <-. left.
    + destruct (IH more n eq_refl Hn) as (rows' & Hrows' & Hin).
      exists rows'. split; [done|]. intros r Hr.
      destruct (Hin r Hr) as [cols' Hc]. exists cols'. by right.
  - apply elem_of_cons in Hn as [-> | Hn]; [|by eapply IH].
    exists rows. split; [done|]. intros r Hr. congruence.
Qed.

(** X13: a snapshot returned by [get_existing_schema] has every field that the
    drift detector reads: each table has its name and its column list, each
    column its name, type and nullability, so filling in the defaults of
    the detector changes nothing; and it has at most one table for each
    name asked for. *)
Theorem existing_schema_has_every_field names s :
  get_existing_schema self names = inr s →
  well_formed s ∧ fill_defaults s = s
  ∧ (length (tables_or_empty s) ≤ length names)%nat.
Proof.
  unfold get_existing_schema. intros H.
  apply DriftFacts.rbind_ok in H as (ts & Hts & H). injection H as <-.
  destruct (fetch_tables_shape _ _ Hts) as [Hnamed Hfill].
  apply fetch_tables_rows in Hts as [_ Hlen].
  split; [exact Hnamed|]. split; [|exact Hlen].
  unfold fill_defaults, tables_or_empty. simpl. by rewrite Hfill.
Qed.

(** X14: with a connection that answers every query, the drift detector run on
    this client returns a report for every documented snapshot whose tables
    and columns carry their names, whatever the rows are. *)
Theorem compare_with_client_returns doc st :
  well_formed doc →
  (∀ n, ∃ rows, select_table self (database self) (schema self) n = inr rows) →
  (∀ n, ∃ cols, select_columns self (database self) (schema self) n = inr cols) →
  ∃ r, compare (get_existing_schema self) doc st = inr r.
Proof.
  intros Hdoc Ht Hc.
  destruct (fetch_tables_total
              (requested_tables (list_to_set (upper_table_names doc)) st) Ht Hc)
    as [ts Hts].
  eapply (DriftFacts.compare_total_at _ doc (mkSnapshot (Some ts))); [done| |].
  - unfold get_existing_schema. by rewrite Hts.
  - by destruct (fetch_tables_shape _ _ Hts).
Qed.

Lemma upper_name_inv t T : upper_name t = inr T → ∃ n, T = upper n.
Proof.
  unfold upper_name. intros H. apply DriftFacts.rbind_ok in H as (n & _ & H).
  injection H as <-. eauto.
Qed.

Lemma table_names_inv s names :
  table_names s = inr names →
  (∀ T, T ∈ names → ∃ t, t ∈ tables_or_empty s ∧ upper_name t = inr T)
  ∧ (size names ≤ length (tables_or_empty s))%nat.
Proof.
  unfold table_names. intros H.
  apply DriftFacts.rbind_ok in H as (l & Hl & H). injection H as <-.
  apply DriftFacts.rmap_ok_Forall2 in Hl. split.
  - intros T HT. apply elem_of_list_to_set in HT.
    induction Hl as [|t n ts ns Ht _ IH]; [by apply elem_of_nil in HT|].
    apply elem_of_cons in HT as [-> | HT].
    + exists t. split; [left | done].
    + destruct (IH HT) as (t' & ? & ?). exists t'. split; [by right | done].
  - rewrite (Forall2_length _ _ _ Hl). clear Hl.
    induction l as [|x l IH].
    + rewrite list_to_set_nil, size_empty. simpl. lia.
    + rewrite list_to_set_cons, size_union_alt, size_singleton.
      assert (Hsub : list_to_set l ∖ {[x]} ⊆ (list_to_set l : gset string))
        by set_solver.
      apply subseteq_size in Hsub. simpl. lia.
Qed.

(** X15: when the tables to check are not given and the connection answers the
    query for a name with rows of that name, a report of the drift detector
    on this client never holds a table missing from the documentation, it
    counts no more live tables than documented ones, and every table it
    reports as missing in the warehouse is one whose query gave no row. *)
Theorem default_compare_finds_no_undocumented_table doc r :
  answers_by_name self →
  compare (get_existing_schema self) doc None = inr r →
  Forall (λ i, drift_type i ≠ TABLE_MISSING_IN_DOCS) (issues r)
  ∧ (snowflake_tables r ≤ documented_tables r)%nat
  ∧ ∀ i, i ∈ issues r → drift_type i = TABLE_MISSING_IN_SNOWFLAKE →
      ∃ rows, select_table self (database self) (schema self) (issue_table i)
              = inr rows ∧ head rows = None.
Proof.
  intros Hhonest H.
  apply DriftFacts.compare_ok in H as (dn & live & an & per & Hdn & Hlive & Han & Hper & ->).
  simpl in Hlive. unfold get_existing_schema in Hlive.
  apply DriftFacts.rbind_ok in Hlive as (ts & Hts & Hlive). injection Hlive as <-.
  destruct (table_names_inv _ _ Hdn) as [Hdn_in Hdn_size].
  destruct (table_names_inv _ _ Han) as [Han_in _].
  assert (Hupper : ∀ T, T ∈ dn → upper T = T).
  { intros T HT. destruct (Hdn_in T HT) as (t & _ & Ht).
    apply upper_name_inv in Ht as [n ->]. apply LineageApiFacts.upper_idemp. }
  assert (Hsub : an ⊆ dn).
  { intros T HT. destruct (Han_in T HT) as (t & Ht & HtT).
    simpl in Ht. unfold tables_or_empty in Ht. simpl in Ht.
    destruct (fetch_tables_rows _ _ Hts) as [Hrows _].
    rewrite Forall_forall in Hrows.
    destruct (Hrows t Ht) as (n & rows & row & cols & Hn & Hsel & Hhead & ->).
    apply elem_of_elements in Hn.
    unfold upper_name in HtT. simpl in HtT. injection HtT as <-.
    rewrite (Hhonest _ _ _ Hsel Hhead). by rewrite !(Hupper n Hn). }
  assert (Hper_col : Forall (λ i, drift_type i ≠ TABLE_MISSING_IN_DOCS ∧ drift_type i ≠ TABLE_MISSING_IN_SNOWFLAKE) (concat per)).
  { eapply DriftFacts.rmap_concat_Forall; [|exact Hper].
    apply DriftMoreFacts.common_table_column_level. }
  assert (Hnone : elements (an ∖ dn) = []).
  { apply elements_empty_iff. set_solver. }
  simpl. rewrite Hnone. simpl. split; [|split].
  - apply Forall_app. split.
    + apply Forall_forall. intros i Hi.
      by apply list_elem_of_In, in_map_iff in Hi as (x & <- & _).
    + eapply Forall_impl; [exact Hper_col|]. by intros i [? _].
  - etrans; [apply subseteq_size, Hsub | exact Hdn_size].
  - intros i Hi Hty. apply elem_of_app in Hi as [Hi | Hi].
    + apply list_elem_of_In, in_map_iff in Hi as (T & <- & HT). simpl.
      apply list_elem_of_In, elem_of_elements, elem_of_difference in HT as [HTd HTa].
      assert (HTreq : T ∈ elements dn) by by apply elem_of_elements.
      destruct (fetch_tables_asked _ _ _ Hts HTreq) as (rows & Hsel & Hin).
      rewrite (Hupper T HTd) in Hsel. exists rows. split; [done|].
      destruct (head rows) as [row|] eqn:Hhead; [|done]. exfalso.
      destruct (Hin row eq_refl) as [cols Hcols]. apply HTa.
      pose proof (Hhonest _ _ _ Hsel Hhead) as Hname.
      unfold table_names in Han. simpl in Han. unfold tables_or_empty in Han.
      simpl in Han.
      apply DriftFacts.rbind_ok in Han as (l & Hl & Han). injection Han as <-.
      apply elem_of_list_to_set.
      apply DriftFacts.rmap_ok_Forall2 in Hl.
      clear -Hl Hcols Hname HTd Hupper.
      induction Hl as [|t n ts ns Ht _ IH]; [by apply elem_of_nil in Hcols|].
      apply elem_of_cons in Hcols as [<- | Hcols].
      * apply elem_of_cons. left.
        unfold upper_name in Ht. simpl in Ht. injection Ht as <-.
        by rewrite Hname, (Hupper T HTd).
      * apply elem_of_cons. right. by apply IH.
    + exfalso. rewrite Forall_forall in Hper_col.
      by destruct (Hper_col i Hi) as [_ Hc].
Qed.
End Existing.

(** *** [write_comments] *)

Lemma keeps_mret P {A} (a : A) : keeps P (mret a).
Proof. by intros s. Qed.

Lemma keeps_mraise_or P {A} (r : Raised + A) : keeps P (mraise_or r).
Proof. by intros s. Qed.

Lemma keeps_mbind P {A B} (m : M A) (k : A → M B) :
  keeps P m → (∀ a, keeps P (k a)) → keeps P (mbind m k).
Proof.
  intros Hm Hk s Hs. unfold mbind. specialize (Hm s Hs).
  destruct (m s) as [[e|a] s']; [done|]. by apply Hk.
Qed.

Lemma keeps_lift_bind P {A B} (r : result A) (k : A → M B) :
  (∀ a, r = inr a → keeps P (k a)) → keeps P (mbind (mlift r) k).
Proof.
  intros Hk s Hs. unfold mbind, mlift, mraise_or.
  destruct r as [e|a]; [done|]. by apply Hk.
Qed.

Lemma keeps_raise_bind P {A B} (r : Raised + A) (k : A → M B) :
  (∀ a, r = inr a → keeps P (k a)) → keeps P (mbind (mraise_or r) k).
Proof.
  intros Hk s Hs. unfold mbind, mraise_or.
  destruct r as [e|a]; [done|]. by apply Hk.
Qed.

Lemma keeps_mfor P {A} (xs : list A) (body : A → M unit) :
  (∀ x, x ∈ xs → keeps P (body x)) → keeps P (mfor xs body).
Proof.
  induction xs as [|x xs IH]; intros H; simpl; [apply keeps_mret|].
  apply keeps_mbind; [apply H; left|].
  intros _. apply IH. intros y Hy. apply H. by right.
Qed.

Section Writing.
Variable self : Client.

(** One guarded statement: sent, then counted as done or as an error. *)
Lemma attempt_in_progress sql done msg :
  dry_run self = false →
  (done = table_done ∨ done = column_done) →
  keeps (in_progress self)
    (mtry (mbind (execute self sql) (λ _, update done))
          (λ e, update (add_error (msg e)))).
Proof.
  intros Hdry Hdone s (Hs & He & Hc & Hlen & Hd).
  unfold mtry, mbind, execute, update.
  destruct (execute_comment self sql) as [e|[]]; simpl;
    (split; [|split; [|split; [|split]]]); simpl; try done;
    try (intros; congruence).
  - rewrite !length_app. simpl. lia.
  - destruct Hdone as [-> | ->]; simpl; done.
  - destruct Hdone as [-> | ->]; simpl; done.
  - rewrite !length_app. destruct Hdone as [-> | ->]; simpl; lia.
Qed.

Lemma skip_in_progress msg : keeps (in_progress self) (update (skip msg)).
Proof. by intros s (Hs & He & Hc & Hlen & Hd). Qed.

Lemma write_column_in_progress T S F column :
  keeps (in_progress self) (write_column self T S F column).
Proof.
  unfold write_column. apply keeps_lift_bind. intros n _.
  case_bool_decide; [apply keeps_mret|].
  apply keeps_lift_bind. intros [] _; simpl; [|apply skip_in_progress].
  destruct (dry_run self) eqn:Hdry; [apply keeps_mret|].
  apply (attempt_in_progress _ _
           (λ e, "Column " +:+ T +:+ "." +:+ upper n +:+ ": " +:+ str_raised e));
    auto.
Qed.

Lemma write_table_in_progress table :
  keeps (in_progress self) (write_table self table).
Proof.
  unfold write_table. apply keeps_lift_bind. intros n _.
  apply keeps_raise_bind. intros S _.
  apply keeps_lift_bind. intros [] _; simpl; [|apply skip_in_progress].
  apply keeps_mbind.
  - unfold write_table_comment. case_bool_decide; [apply keeps_mret|].
    destruct (dry_run self) eqn:Hdry; [apply keeps_mret|].
    apply (attempt_in_progress _ _
             (λ e, "Table " +:+ upper n +:+ ": " +:+ str_raised e)); auto.
  - intros _. apply keeps_mfor. intros c _. apply write_column_in_progress.
Qed.

Lemma fresh_in_progress : in_progress self fresh.
Proof. by repeat split. Qed.

(** X16: [write_comments] keeps its books for every input and every behaviour of
    the connection: each statement sent is counted once, as an updated
    table, an updated column or an entry of [errors]; a dry run sends
    nothing and commits nothing; the changes are committed exactly when the
    call is not a dry run and reports success; and ["error"] is set exactly
    when [success] is false. *)
Theorem write_comments_keeps_its_books schema :
  let s := write_comments self schema in
  length (sent s)
  = (tables_updated (outcome s) + columns_updated (outcome s)
     + length (errors (outcome s)))%nat
  ∧ (dry_run self = true → sent s = [] ∧ committed s = false)
  ∧ (committed s = true ↔ dry_run self = false ∧ success (outcome s) = true)
  ∧ (success (outcome s) = false ↔ is_Some (error (outcome s))).
Proof.
  unfold write_comments, mtry, mbind.
  pose proof (keeps_mfor (in_progress self) (default [] schema) (write_table self)
                (λ t _, write_table_in_progress t) fresh fresh_in_progress) as H.
  destruct (mfor (default [] schema) (write_table self) fresh) as [[e|[]] s1];
    simpl in H; destruct H as (Hs & He & Hc & Hlen & Hd).
  - simpl. split_and!.
    + exact Hlen.
    + intros Hdry. by split; [apply Hd|].
    + rewrite Hc. split; [done | by intros [_ ?]].
    + split; [by eexists | done].
  - destruct (dry_run self) eqn:Hdry.
    + simpl. rewrite Hs, He, Hc. split_and!.
      * exact Hlen.
      * intros _. by split; [apply Hd|].
      * split; [done | by intros [? _]].
      * split; [done | by intros [? ?]].
    + unfold do_commit. destruct (commit self) as [e|[]]; simpl.
      * rewrite Hc. split_and!.
        -- exact Hlen.
        -- done.
        -- split; [done | by intros [_ ?]].
        -- split; [by eexists | done].
      * rewrite Hs, He. split_and!.
        -- exact Hlen.
        -- done.
        -- done.
        -- split; [done | by intros [? ?]].
Qed.

Lemma null_schema_raises tables table : ∀ s,
  table ∈ tables → schema_name table = Some None →
  ∃ e s', mfor tables (write_table self) s = (inl e, s').
Proof.
  induction tables as [|t tables IH]; intros s Hin Hnull;
    [by apply elem_of_nil in Hin|].
  simpl. unfold mbind at 1.
  destruct (write_table self t s) as [[e|[]] s1] eqn:Ht; [by eauto|].
  apply elem_of_cons in Hin as [-> | Hin]; [|by apply IH].
  exfalso. unfold write_table, mbind, mlift, mraise_or, table_schema_of in Ht.
  rewrite Hnull in Ht.
  destruct (subscript "table_name" (table_name (fields t))); done.
Qed.

(** X17: a table whose ["schema_name"] is null makes the whole call fail: the
    result has [success] false and an ["error"], and nothing is committed,
    whatever the other tables are. *)
Theorem null_schema_name_fails_the_call schema table :
  table ∈ default [] schema → schema_name table = Some None →
  let s := write_comments self schema in
  success (outcome s) = false ∧ is_Some (error (outcome s))
  ∧ committed s = false.
Proof.
  intros Hin Hnull. unfold write_comments, mtry, mbind.
  pose proof (keeps_mfor (in_progress self) (default [] schema) (write_table self)
                (λ t _, write_table_in_progress t) fresh fresh_in_progress) as H.
  destruct (null_schema_raises _ _ fresh Hin Hnull) as (e & s1 & Hrun).
  rewrite Hrun in *. simpl in H. destruct H as (_ & _ & Hc & _). simpl.
  split; [done|]. split; [by eexists | done].
Qed.

(** What is sent *)

Lemma sent_execute P sql :
  P sql → keeps (λ s, Forall P (sent s)) (execute self sql).
Proof.
  intros Hsql s Hs. unfold execute. simpl. apply Forall_app.
  split; [done | by apply Forall_singleton].
Qed.

Lemma sent_update P f : keeps (λ s, Forall P (sent s)) (update f).
Proof. by intros s Hs. Qed.

Lemma sent_attempt P sql done (msg : Raised → string) :
  P sql →
  keeps (λ s, Forall P (sent s))
    (mtry (mbind (execute self sql) (λ _, update done))
          (λ e, update (add_error (msg e)))).
Proof.
  intros Hsql s Hs. unfold mtry, mbind, execute, update.
  destruct (execute_comment self sql) as [e|[]]; simpl;
    (apply Forall_app; split; [done | by apply Forall_singleton]).
Qed.

Lemma write_table_sends P table :
  (∀ sql, statement_for self table sql → P sql) →
  keeps (λ s, Forall P (sent s)) (write_table self table).
Proof.
  intros HP. unfold write_table. apply keeps_lift_bind. intros n Hn.
  apply keeps_raise_bind. intros S HS.
  apply keeps_lift_bind. intros [] Hfound; simpl; [|apply sent_update].
  assert (Hname : table_name (fields table) = Some n).
  { unfold subscript, ok, raise in Hn.
    by destruct (table_name (fields table)); simplify_eq. }
  apply keeps_mbind.
  - unfold write_table_comment. case_bool_decide as Hdesc; [apply keeps_mret|].
    destruct (dry_run self); [apply keeps_mret|].
    apply sent_attempt. apply HP. exists n, S. repeat (split; [done|]). by left.
  - intros _. apply keeps_mfor. intros column Hcolumn.
    unfold write_column. apply keeps_lift_bind. intros c Hc.
    case_bool_decide as Hdesc; [apply keeps_mret|].
    apply keeps_lift_bind. intros [] Hcfound; simpl; [|apply sent_update].
    destruct (dry_run self); [apply keeps_mret|].
    apply sent_attempt. apply HP. exists n, S. repeat (split; [done|]). right.
    exists column, c. repeat (split; [done|]).
    split; [|done]. unfold subscript, ok, raise in Hc.
    by destruct (column_name column); simplify_eq.
Qed.

(** X18: every statement that [write_comments] sends is the comment on a table
    of the input that the existence check found, or on a column of such a
    table that the check found, and carries a description that is not
    empty, escaped by [_escape_string]; nothing is sent for a table or a
    column that was not found. *)
Theorem only_found_objects_are_commented schema sql :
  sql ∈ sent (write_comments self schema) →
  ∃ table, table ∈ default [] schema ∧ statement_for self table sql.
Proof.
  unfold write_comments. intros Hsql.
  set (P := λ sql, ∃ table, table ∈ default [] schema
                            ∧ statement_for self table sql).
  assert (K : keeps (λ s, Forall P (sent s))
                (mfor (default [] schema) (write_table self))).
  { apply keeps_mfor. intros t Ht. apply write_table_sends.
    intros sql' Hsql'. by exists t. }
  specialize (K fresh (Forall_nil_2 _)).
  unfold mtry, mbind in Hsql.
  destruct (mfor (default [] schema) (write_table self) fresh) as [[e|[]] s1];
    simpl in K, Hsql.
  - rewrite Forall_forall in K. by apply K.
  - destruct (dry_run self); simpl in Hsql.
    + rewrite Forall_forall in K. by apply K.
    + unfold do_commit in Hsql. destruct (commit self) as [e|[]]; simpl in Hsql;
        rewrite Forall_forall in K; by apply K.
Qed.
End Writing.

(** *** Examples *)

Lemma existing_schema_has_every_field_witness :
  Snowflake.get_existing_schema Examples.warehouse ["customers"; "orders"]
  = inr Examples.existing
  ∧ well_formed Examples.existing
  ∧ fill_defaults Examples.existing = Examples.existing
  ∧ (length (tables_or_empty Examples.existing) ≤ 2)%nat.
Proof.
  assert (H : Snowflake.get_existing_schema Examples.warehouse
                ["customers"; "orders"] = inr Examples.existing)
    by (vm_compute; reflexivity).
  split; [exact H|].
  exact (SnowflakeFacts.existing_schema_has_every_field Examples.warehouse
           ["customers"; "orders"] Examples.existing H).
Defined.

Lemma compare_with_client_returns_witness :
  ∃ r, Drift.compare (Snowflake.get_existing_schema Examples.warehouse)
         Examples.documented_two None = inr r.
Proof.
  apply (SnowflakeFacts.compare_with_client_returns Examples.warehouse
           Examples.documented_two None).
  - vm_compute. exact I.
  - intros n. eexists. reflexivity.
  - intros n. eexists. reflexivity.
Defined.

Lemma default_compare_finds_no_undocumented_table_witness :
  Snowflake.answers_by_name Examples.warehouse
  ∧ Forall (λ i, Drift.drift_type i ≠ Drift.TABLE_MISSING_IN_DOCS)
      (Drift.issues Examples.warehouse_report)
  ∧ (Drift.snowflake_tables Examples.warehouse_report
     ≤ Drift.documented_tables Examples.warehouse_report)%nat
  ∧ ∀ i, i ∈ Drift.issues Examples.warehouse_report →
      Drift.drift_type i = Drift.TABLE_MISSING_IN_SNOWFLAKE →
      ∃ rows, Snowflake.select_table Examples.warehouse
                (Snowflake.database Examples.warehouse)
                (Snowflake.schema Examples.warehouse) (Drift.issue_table i)
              = inr rows ∧ head rows = None.
Proof.
  assert (Ha : Snowflake.answers_by_name Examples.warehouse).
  { intros n rows table_row Hrows Hrow. simpl in Hrows.
    unfold Examples.is_customers in Hrows. simpl in Hrows.
    destruct (bool_decide (n = "CUSTOMERS")) eqn:E.
    - apply bool_decide_eq_true in E. injection Hrows as <-.
      injection Hrow as <-. by rewrite E.
    - injection Hrows as <-. discriminate Hrow. }
  assert (H : Drift.compare (Snowflake.get_existing_schema Examples.warehouse)
                Examples.documented_two None = inr Examples.warehouse_report)
    by (vm_compute; reflexivity).
  split; [exact Ha|].
  exact (SnowflakeFacts.default_compare_finds_no_undocumented_table
           Examples.warehouse Examples.documented_two
           Examples.warehouse_report Ha H).
Defined.

Lemma null_schema_name_fails_the_call_witness :
  Snowflake.success
    (Snowflake.outcome
       (Snowflake.write_comments Examples.warehouse
          (Some [Examples.customers_entry; Examples.orders_entry]))) = false
  ∧ is_Some (Snowflake.error
       (Snowflake.outcome
          (Snowflake.write_comments Examples.warehouse
             (Some [Examples.customers_entry; Examples.orders_entry]))))
  ∧ Snowflake.committed
      (Snowflake.write_comments Examples.warehouse
         (Some [Examples.customers_entry; Examples.orders_entry])) = false.
Proof.
  apply (SnowflakeFacts.null_schema_name_fails_the_call Examples.warehouse
           (Some [Examples.customers_entry; Examples.orders_entry])
           Examples.orders_entry).
  - simpl. right. left.
  - reflexivity.
Defined.

Lemma only_found_objects_are_commented_witness :
  Examples.table_comment
    ∈ Snowflake.sent (Snowflake.write_comments Examples.warehouse
                        (Some [Examples.customers_entry]))
  ∧ ∃ table, table ∈ [Examples.customers_entry]
             ∧ Snowflake.statement_for Examples.warehouse table
                 Examples.table_comment.
Proof.
  assert (H : Examples.table_comment
              ∈ Snowflake.sent (Snowflake.write_comments Examples.warehouse
                                  (Some [Examples.customers_entry])))
    by (vm_compute; left).
  split; [exact H|].
  exact (SnowflakeFacts.only_found_objects_are_commented Examples.warehouse
           (Some [Examples.customers_entry]) Examples.table_comment H).
Defined.
End SnowflakeFacts.

(** ** Facts about every job and every batch *)

Module PipelineFacts.
Import Py Schema Orchestrator Pipeline.

#[local] Arguments no_tables : simpl never.
#[local] Arguments sync_source : simpl never.

(** *** Rules for [holds] *)

Lemma holds_ret P {A} (a : A) : holds P (ret a).
Proof. by intros st. Qed.

Lemma holds_throw P {A} e : holds P (@throw JobState A e).
Proof. by intros st. Qed.

Lemma holds_lift P {A} (r : result A) : holds P (lift r).
Proof. by intros st. Qed.

Lemma holds_get_result P : holds P get_result.
Proof. by intros st. Qed.

Lemma holds_invoke P {A} c (r : result A) :
  (∀ st, P st → P (mkWorld (lineage st.1) (calls st.1 ++ [c]), st.2)) →
  holds P (invoke c r).
Proof. intros H st Hst. by apply H. Qed.

Lemma holds_update P f :
  (∀ st, P st → P (st.1, f st.2)) → holds P (update f).
Proof. intros H st Hst. by apply H. Qed.

Lemma holds_bind P {A B} (m : Eff JobState A) (k : A → Eff JobState B) :
  holds P m → (∀ a, holds P (k a)) → holds P (bind m k).
Proof.
  intros Hm Hk st Hst. unfold bind. specialize (Hm st Hst).
  destruct (m st) as [[e|a] s1]; [done|]. by apply Hk.
Qed.

Lemma holds_when P b (m : Eff JobState unit) : holds P m → holds P (when b m).
Proof. intros H. destruct b; [done | apply holds_ret]. Qed.

Lemma holds_for_each P {A} (xs : list A) (body : A → Eff JobState unit) :
  (∀ x, holds P (body x)) → holds P (for_each xs body).
Proof.
  intros H. induction xs as [|x xs IH]; simpl; [apply holds_ret|].
  apply holds_bind; [apply H | intros _; apply IH].
Qed.

Lemma holds_try_except P {A} (body : Eff JobState A) handler :
  holds P body → (∀ e, holds P (handler e)) → holds P (try_except body handler).
Proof.
  intros Hm Hk st Hst. unfold try_except. specialize (Hm st Hst).
  destruct (body st) as [[e|a] s1]; [by apply Hk | done].
Qed.

Lemma holds_if_lineage P body :
  (∀ st t, P st → P (mkWorld (Some t) (calls st.1), st.2)) →
  holds P (if_lineage body).
Proof.
  intros H st Hst. unfold if_lineage. destruct (lineage st.1) as [t|]; [|done].
  destruct (body t) as [o t']. by apply H.
Qed.

(** One step of a proof that a job keeps a property; [side] proves that
    logging a call, updating the result and changing the tracker keep it. *)
Ltac holds_step side :=
  lazymatch goal with
  | |- holds _ (bind _ _) => apply holds_bind; [|intros ?]
  | |- holds _ (invoke _ _) => apply holds_invoke; side
  | |- holds _ (update _) => apply holds_update; side
  | |- holds _ get_result => apply holds_get_result
  | |- holds _ (ret _) => apply holds_ret
  | |- holds _ (throw _) => apply holds_throw
  | |- holds _ (lift _) => apply holds_lift
  | |- holds _ (when _ _) => apply holds_when
  | |- holds _ (for_each _ _) => apply holds_for_each; intros ?
  | |- holds _ (track_lineage _ _ _ _ _) =>
      unfold track_lineage; apply holds_if_lineage; side
  | |- holds _ (index_document _ _ _ _ _) => unfold index_document
  | |- holds _ (extract _ _ _ _) => unfold extract
  | |- holds _ (on_failure _ _ _ _) => unfold on_failure
  | |- holds _ (if ?b then _ else _) => destruct b
  | |- holds _ (match ?x with _ => _ end) => destruct x
  | |- holds _ (let _ := _ in _) => cbv zeta
  end.

Section Jobs.
Variable self : Orchestrator.

(** *** A result names its source *)

Lemma job_keeps_identity j src :
  holds (λ st, identify st.2 = src) (job_body self j).
Proof.
  destruct j; unfold job_body, confluence_body, jira_body;
    repeat holds_step ltac:(by intros [? []]).
Qed.

Lemma failure_keeps_identity kind ident e src :
  holds (λ st, identify st.2 = src) (on_failure self kind ident e).
Proof. repeat holds_step ltac:(by intros [? []]). Qed.

Lemma run_job_identifies j w r w' :
  run_job self j w = (inr r, w') → identify r = job_source j.
Proof.
  rewrite OrchestratorFacts.run_job_guarded. unfold guarded.
  set (m := when (has_audit self) _ >> try_except _ _ >> get_result).
  assert (Hm : holds (λ st, identify st.2 = job_source j) m).
  { unfold m. repeat holds_step ltac:(by intros [? []]).
    apply holds_try_except; [apply job_keeps_identity|].
    intros e. apply failure_keeps_identity. }
  assert (Hend : ∀ st r st', m st = (inr r, st') → r = st'.2).
  { intros st r0 st'. unfold m, bind, get_result.
    destruct (when _ _ st) as [[?|?] ?]; [done|].
    destruct (try_except _ _ _) as [[?|?] ?]; [done|].
    intros H. by simplify_eq. }
  specialize (Hm (w, new_result (job_source j).1 (job_source j).2)).
  specialize (Hend (w, new_result (job_source j).1 (job_source j).2)).
  destruct (m _) as [o st]. intros H. simplify_eq.
  rewrite (Hend r st eq_refl). apply Hm. by destruct j.
Qed.

(** *** Batches *)

Lemma job_of_source dry_run s :
  s.1 = "confluence" ∨ s.1 = "jira" → job_source (job_of dry_run s) = s.
Proof.
  destruct s as [kind ident]. unfold job_of. simpl.
  intros [-> | ->]; by case_bool_decide.
Qed.

Lemma sources_kinds pages issues s :
  s ∈ sources pages issues → s.1 = "confluence" ∨ s.1 = "jira".
Proof.
  unfold sources. intros H. apply elem_of_app in H as [H | H];
    apply list_elem_of_In, in_map_iff in H as (x & <- & _); auto.
Qed.

Lemma sync_source_identifies dry_run s w r w' :
  s.1 = "confluence" ∨ s.1 = "jira" →
  sync_source self dry_run s w = (inr r, w') → identify r = s.
Proof.
  intros Hs H. rewrite OrchestratorFacts.sync_source_job in H.
  apply run_job_identifies in H. by rewrite job_of_source in H.
Qed.

Lemma tally_counts b r :
  total_sources (tally b r) = total_sources b
  ∧ (successful (tally b r) + failed (tally b r)
     = S (successful b + failed b))%nat
  ∧ successful (tally b r)
    = (successful b + count_if success [r])%nat
  ∧ results (tally b r) = results b ++ [r].
Proof. unfold tally. simpl. destruct (success r); simpl; repeat split; lia. Qed.

Lemma run_sequential_counts dry_run srcs : ∀ b w b' w',
  (∀ s, s ∈ srcs → s.1 = "confluence" ∨ s.1 = "jira") →
  run_sequential self dry_run srcs b w = (inr b', w') →
  ∃ rs, results b' = results b ++ rs
        ∧ identify <$> rs = srcs
        ∧ total_sources b' = total_sources b
        ∧ (successful b' + failed b' = successful b + failed b + length srcs)%nat
        ∧ successful b' = (successful b + count_if success rs)%nat.
Proof.
  induction srcs as [|s srcs IH]; intros b w b' w' Hk H; simpl in H.
  - unfold ret in H. simplify_eq. exists []. rewrite app_nil_r. simpl.
    repeat split; lia.
  - unfold bind in H.
    destruct (sync_source self dry_run s w) as [[e|r] w1] eqn:Hs; [done|].
    apply sync_source_identifies in Hs; [|apply Hk; left].
    apply IH in H as (rs & Hres & Hid & Htot & Hsum & Hsucc);
      [|intros; apply Hk; by right].
    destruct (tally_counts b r) as (Ht1 & Ht2 & Ht3 & Ht4).
    exists (r :: rs). rewrite Hres, Ht4, <- app_assoc. csimpl.
    rewrite Hid, Hs. repeat split; try done; simpl in *; lia.
Qed.

Lemma submit_all_futures dry_run srcs : ∀ w futures w',
  (∀ s, s ∈ srcs → s.1 = "confluence" ∨ s.1 = "jira") →
  submit_all self dry_run srcs w = (futures, w') →
  Forall2 (λ s future, ∀ r, future = inr r → identify r = s) srcs futures.
Proof.
  induction srcs as [|s srcs IH]; intros w futures w' Hk H; simpl in H.
  - simplify_eq. constructor.
  - destruct (sync_source self dry_run s w) as [future w1] eqn:Hs.
    destruct (submit_all self dry_run srcs w1) as [fs w2] eqn:Hrest.
    simplify_eq. constructor.
    + intros r ->. eapply sync_source_identifies; [|exact Hs]. apply Hk. left.
    + eapply IH; [|exact Hrest]. intros; apply Hk; by right.
Qed.

Lemma collect_counts srcs futures : ∀ b b',
  Forall2 (λ s future, ∀ r, future = inr r → identify r = s) srcs futures →
  collect futures b = inr b' →
  ∃ rs, results b' = results b ++ rs
        ∧ identify <$> rs = srcs
        ∧ total_sources b' = total_sources b
        ∧ (successful b' + failed b' = successful b + failed b + length srcs)%nat
        ∧ successful b' = (successful b + count_if success rs)%nat.
Proof.
  intros b b' H. revert b b'.
  induction H as [|s future srcs futures Hs _ IH]; intros b b' Hc; simpl in Hc.
  - unfold ok in Hc. simplify_eq. exists []. rewrite app_nil_r. simpl.
    repeat split; lia.
  - destruct future as [e|r]; [done|]. simpl in Hc.
    apply IH in Hc as (rs & Hres & Hid & Htot & Hsum & Hsucc).
    destruct (tally_counts b r) as (Ht1 & Ht2 & Ht3 & Ht4).
    exists (r :: rs). rewrite Hres, Ht4, <- app_assoc. csimpl.
    rewrite Hid, (Hs r eq_refl). repeat split; try done; simpl in *; lia.
Qed.

(** X19: every batch that [batch_sync] returns accounts for each source once,
    in both execution modes: [results] holds one result per source, in the
    order confluence pages then jira issues, each naming its source;
    [total_sources] is their number, [successful] the number of results
    that say success, and [successful + failed = total_sources]. *)
Theorem batch_accounts_for_every_source pages issues dry_run parallel w b :
  (batch_sync self pages issues dry_run parallel w).1 = inr b →
  identify <$> results b = sources pages issues
  ∧ total_sources b = length (sources pages issues)
  ∧ (successful b + failed b = total_sources b)%nat
  ∧ successful b = count_if success (results b).
Proof.
  intros H.
  destruct (batch_sync self pages issues dry_run parallel w) as [o w'] eqn:E.
  simpl in H. subst o. rename E into H. unfold batch_sync in H.
  pose proof (sources_kinds pages issues) as Hk.
  destruct (sources pages issues) as [|s srcs] eqn:Hsrc.
  { unfold ret in H. by simplify_eq. }
  set (b0 := mkBatch (length (s :: srcs)) 0 0 []) in H.
  assert (∃ rs, results b = results b0 ++ rs
        ∧ identify <$> rs = s :: srcs
        ∧ total_sources b = total_sources b0
        ∧ (successful b + failed b
           = successful b0 + failed b0 + length (s :: srcs))%nat
        ∧ successful b = (successful b0 + count_if success rs)%nat)
    as (rs & Hres & Hid & Htot & Hsum & Hsucc).
  { destruct parallel.
    - destruct (submit_all self dry_run (s :: srcs) w) as [futures w1] eqn:Hsub.
      apply submit_all_futures in Hsub; [|done].
      eapply collect_counts; [exact Hsub|]. by simplify_eq.
    - eapply run_sequential_counts; [|exact H]. done. }
  simpl in Hres. rewrite Hres, Hid, Htot, Hsum, Hsucc. simpl. done.
Qed.

(** *** Dry runs *)

Lemma quiet_log before c st :
  after_dry_run_exit c = false →
  quiet_since before st →
  quiet_since before (mkWorld (lineage st.1) (calls st.1 ++ [c]), st.2).
Proof.
  intros Hc [(new & Hnew & Hall) Hr]. split; [|done].
  exists (new ++ [c]). simpl. rewrite Hnew, app_assoc. split; [done|].
  apply Forall_app. split; [done | by apply Forall_singleton].
Qed.

Ltac quiet_side :=
  first [ intros st; by apply quiet_log
        | by intros [? []]
        | by intros [? []] ? ].

Lemma dry_body_quiet j before :
  is_dry_run j = true → holds (quiet_since before) (job_body self j).
Proof.
  destruct j; simpl; intros ->;
    unfold job_body, confluence_body, jira_body; cbv iota;
    repeat holds_step quiet_side.
Qed.

Lemma failure_quiet kind ident e before :
  holds (quiet_since before) (on_failure self kind ident e).
Proof. repeat holds_step quiet_side. Qed.

(** X20: a dry run stops before the warehouse: whatever the collaborators
    answer, the job makes no call to [write_comments], to the dbt or ER
    generators, to the quality checker or to the completion records of the
    audit log and the notifier, and a result it returns counts no updated
    table or column. *)
Theorem dry_run_stops_before_the_warehouse j w :
  is_dry_run j = true →
  (∃ new, calls (run_job self j w).2 = calls w ++ new
          ∧ Forall (λ c, after_dry_run_exit c = false) new)
  ∧ ∀ r, (run_job self j w).1 = inr r →
         tables_updated r = 0%nat ∧ columns_updated r = 0%nat.
Proof.
  intros Hdry. rewrite OrchestratorFacts.run_job_guarded. unfold guarded.
  set (m := when (has_audit self) _ >> try_except _ _ >> get_result).
  assert (Hm : holds (quiet_since (calls w)) m).
  { unfold m. repeat holds_step quiet_side.
    apply holds_try_except; [by apply dry_body_quiet|].
    intros e. apply failure_quiet. }
  assert (Hend : ∀ st r st', m st = (inr r, st') → r = st'.2).
  { intros st r0 st'. unfold m, bind, get_result.
    destruct (when _ _ st) as [[?|?] ?]; [done|].
    destruct (try_except _ _ _) as [[?|?] ?]; [done|].
    intros H. by simplify_eq. }
  specialize (Hm (w, new_result (job_source j).1 (job_source j).2)).
  specialize (Hend (w, new_result (job_source j).1 (job_source j).2)).
  destruct (m _) as [o st]. simpl.
  destruct Hm as [Hcalls Hr].
  { split; [|done]. exists []. by rewrite app_nil_r. }
  split; [exact Hcalls|]. intros r ->. by rewrite (Hend r st eq_refl).
Qed.

(** *** What a dry run still does *)

Lemma same_lineage_refl {A} (m : Eff JobState A) : same_lineage m m.
Proof. by intros st. Qed.

Lemma same_lineage_bind {A B C} (m : Eff JobState A)
    (k1 : A → Eff JobState B) (k2 : A → Eff JobState C) :
  (∀ a, same_lineage (k1 a) (k2 a)) → same_lineage (bind m k1) (bind m k2).
Proof.
  intros H st. unfold bind. destruct (m st) as [[e|a] s1]; [done | apply H].
Qed.

Lemma same_lineage_kept {A B} (m1 : Eff JobState A) (m2 : Eff JobState B) :
  (∀ L, holds (λ st, lineage st.1 = L) m1) →
  (∀ L, holds (λ st, lineage st.1 = L) m2) →
  same_lineage m1 m2.
Proof.
  intros H1 H2 st. rewrite (H1 (lineage st.1) st eq_refl).
  by rewrite (H2 (lineage st.1) st eq_refl).
Qed.

Lemma same_lineage_try {A} (b1 b2 : Eff JobState unit) handler
    (k : Eff JobState A) :
  same_lineage b1 b2 →
  (∀ e L, holds (λ st, lineage st.1 = L) (handler e)) →
  (∀ L, holds (λ st, lineage st.1 = L) k) →
  same_lineage (bind (try_except b1 handler) (λ _, k))
               (bind (try_except b2 handler) (λ _, k)).
Proof.
  intros Hb Hh Hk st.
  assert (Hone : ∀ b : Eff JobState unit,
            lineage (bind (try_except b handler) (λ _, k) st).2.1
            = lineage (b st).2.1).
  { intros b. unfold bind, try_except.
    destruct (b st) as [[e|a] s1]; simpl.
    - pose proof (Hh e (lineage s1.1) s1 eq_refl) as He.
      destruct (handler e s1) as [[e'|a'] s2]; simpl in *; [done|].
      by rewrite (Hk (lineage s2.1) s2 eq_refl).
    - by rewrite (Hk (lineage s1.1) s1 eq_refl). }
  by rewrite !Hone.
Qed.

Ltac kept_side := first [ by intros [? ?] | by intros [? ?] ? ].

Ltac same_lineage_step :=
  lazymatch goal with
  | |- same_lineage (bind ?m _) (bind ?m _) =>
      apply same_lineage_bind; intros ?
  | |- same_lineage (match ?x with _ => _ end) (match ?x with _ => _ end) =>
      destruct x
  | |- same_lineage (if ?b then _ else _) (if ?b then _ else _) =>
      destruct b
  | |- same_lineage (let _ := _ in _) _ => cbv zeta
  | |- same_lineage ?m ?m => apply same_lineage_refl
  end.

Lemma rest_keeps_lineage_failure kind ident e L :
  holds (λ st, lineage st.1 = L) (on_failure self kind ident e).
Proof. repeat holds_step kept_side. Qed.

Lemma dry_and_real_body j :
  same_lineage (job_body self (with_dry_run true j))
               (job_body self (with_dry_run false j)).
Proof.
  destruct j; unfold with_dry_run, job_body, confluence_body, jira_body;
    cbv iota; repeat same_lineage_step;
    (apply same_lineage_kept; intros L; repeat holds_step kept_side).
Qed.

Lemma guarded_world kind ident body w :
  (guarded self kind ident body w).2
  = ((when (has_audit self)
        (invoke (audit_sync_start kind ident)
           (audit self (audit_sync_start kind ident))) >>
      try_except body (on_failure self kind ident) >> get_result)
       (w, new_result kind ident)).2.1.
Proof.
  unfold guarded.
  by destruct ((when (has_audit self)
        (invoke (audit_sync_start kind ident)
           (audit self (audit_sync_start kind ident))) >>
      try_except body (on_failure self kind ident) >> get_result)
       (w, new_result kind ident)).
Qed.

(** X21: a dry run spares the warehouse, not the lineage graph: the tracker
    that a job leaves (its nodes, its edges and what it wrote to its
    files) is the same whether the job runs with [dry_run] or without, for
    every job, world and behaviour of the collaborators. *)
Theorem dry_run_leaves_the_same_lineage j w :
  lineage (run_job self (with_dry_run true j) w).2
  = lineage (run_job self (with_dry_run false j) w).2.
Proof.
  rewrite !OrchestratorFacts.run_job_guarded, !guarded_world.
  assert (Hsrc : ∀ b, job_source (with_dry_run b j) = job_source j)
    by (intros b; by destruct j).
  rewrite !Hsrc.
  apply (same_lineage_bind _ _ _ (λ _, same_lineage_try _ _ _ _
           (dry_and_real_body j)
           (λ e L, rest_keeps_lineage_failure _ _ e L)
           (λ L, holds_get_result _))).
Qed.

(** *** Failure is never silent *)

Lemma ends_throw P {A} e : ends P (@throw JobState A e).
Proof. by intros st a st'. Qed.

Lemma ends_bind_last P {A B} (m : Eff JobState A) (k : A → Eff JobState B) :
  (∀ a, ends P (k a)) → ends P (bind m k).
Proof.
  intros Hk st b st'. unfold bind.
  destruct (m st) as [[e|a] s1]; [done | apply Hk].
Qed.

Lemma ends_after P {A B} (m : Eff JobState A) (k : A → Eff JobState B) :
  ends P m → (∀ a, holds P (k a)) → ends P (bind m k).
Proof.
  intros Hm Hk st b st'. unfold bind.
  destruct (m st) as [[e|a] s1] eqn:E; [done|]. intros H.
  pose proof (Hk a s1 (Hm st a s1 E)) as Hs. by rewrite H in Hs.
Qed.

Lemma ends_set_success : ends (λ st, success st.2 = true) (update (set_success true)).
Proof. intros st a st' H. unfold update in H. by simplify_eq. Qed.

Ltac ends_step :=
  lazymatch goal with
  | |- ends _ (bind (update (set_success true)) _) =>
      apply ends_after;
      [apply ends_set_success | intros ?; repeat holds_step kept_side]
  | |- ends _ (bind _ _) => apply ends_bind_last; intros ?
  | |- ends _ (update (set_success true)) => apply ends_set_success
  | |- ends _ (throw _) => apply ends_throw
  | |- ends _ (if ?b then _ else _) => destruct b
  | |- ends _ (match ?x with _ => _ end) => destruct x
  | |- ends _ (let _ := _ in _) => cbv zeta
  end.

Lemma body_ends_in_success j :
  ends (λ st, success st.2 = true) (job_body self j).
Proof.
  destruct j; unfold job_body, confluence_body, jira_body; repeat ends_step.
Qed.

Lemma failure_appends_error kind ident e st o st' :
  on_failure self kind ident e st = (o, st') →
  errors st'.2 = errors st.2 ++ [str_exn e] ∧ success st'.2 = success st.2.
Proof.
  unfold on_failure. intros H.
  unfold bind at 1 in H. unfold update at 1 in H. simpl in H.
  match type of H with ?m ?s0 = _ =>
    assert (Hrest : holds (λ x, x.2 = add_errors [str_exn e] st.2) m)
      by (repeat holds_step kept_side);
    specialize (Hrest s0 eq_refl)
  end.
  rewrite H in Hrest. simpl in Hrest. by rewrite Hrest.
Qed.

(** X22: a job never fails silently: a result it returns with [success] false
    carries at least one error, the last one being the message of the
    exception that ended its pipeline; a pipeline that runs to its end, or
    to one of its early exits, always reports success. *)
Theorem failed_result_carries_its_error j w r :
  (run_job self j w).1 = inr r → success r = false →
  ∃ e st, (job_body self j st).1 = inl e ∧ last (errors r) = Some (str_exn e).
Proof.
  intros H. destruct (run_job self j w) as [o w'] eqn:E.
  simpl in H. subst o. revert E.
  rewrite OrchestratorFacts.run_job_guarded. unfold guarded.
  set (st0 := (w, new_result (job_source j).1 (job_source j).2)).
  unfold bind at 1.
  match goal with
  | |- context [when (has_audit self) ?m st0] =>
      destruct (when (has_audit self) m st0) as [[e0|[]] st1]; [done|]
  end.
  unfold bind, try_except, get_result.
  destruct (job_body self j st1) as [[e|[]] st2] eqn:Hbody.
  - destruct (on_failure self _ _ e st2) as [[e'|[]] st3] eqn:Hfail; [done|].
    apply failure_appends_error in Hfail as [Herr _].
    intros H _. simplify_eq. exists e, st1. rewrite Hbody. split; [done|].
    rewrite Herr. apply last_snoc.
  - intros H Hs. simplify_eq.
    pose proof (body_ends_in_success j st1 tt st2 Hbody) as Hok. simpl in Hok.
    congruence.
Qed.

(** *** What the lineage block leaves in the graph *)

Lemma append_inv_head (a b c : string) : a +:+ b = a +:+ c → b = c.
Proof. induction a as [|x a IH]; simpl; [done|]. intros [= H]. by apply IH. Qed.

Lemma table_key_inv db sc a b :
  Lineage.table_key db sc a = Lineage.table_key db sc b → upper a = upper b.
Proof.
  unfold Lineage.table_key. rewrite !LineageApiFacts.upper_app.
  intros H. by do 5 apply append_inv_head in H.
Qed.

Lemma table_key_not_doc_key db sc n kind ident :
  Lineage.table_key db sc n ≠ Lineage.doc_key kind ident.
Proof. done. Qed.

Lemma register_table_effect kind ident table n t :
  Lineage.writable t = true → table_name table = Some n →
  ∃ t', register_table self kind ident table t = (inr tt, t')
    ∧ Lineage.writable t' = true
    ∧ Lineage.nodes t'
      = <[Lineage.table_key "ANALYTICS" "PUBLIC" n :=
            Lineage.mkNode (Lineage.table_key "ANALYTICS" "PUBLIC" n) "table"
              (upper n)
              [("database", Some "ANALYTICS"); ("schema", Some "PUBLIC");
               ("owner", owner table); ("description", description table)]
              (clock self)]> (Lineage.nodes t)
    ∧ (∀ e, e ∈ Lineage.edges t → e ∈ Lineage.edges t')
    ∧ linked_to_document t' n kind ident.
Proof.
  intros Hw Hn. unfold register_table, Lineage.link_table_to_document.
  rewrite Hn. unfold bind, lift, Lineage.add_table, Lineage.add_edge, bind,
    modify, get, Lineage._save, ret. simpl. rewrite Hw. simpl.
  destruct (existsb _ (Lineage.edges t)) eqn:E; simpl.
  - eexists. split; [done|]. simpl. split; [done|]. split; [done|].
    split; [done|].
    apply existsb_exists in E as (e & He & Hp). unfold Lineage.same_pair in Hp.
    apply andb_true_iff in Hp as [Ha Hb].
    apply bool_decide_eq_true in Ha, Hb.
    exists e. simpl. by rewrite list_elem_of_In.
  - eexists. split; [done|]. simpl. split; [done|]. split; [done|].
    split; [intros e He; apply elem_of_app; by left|].
    eexists. split; [apply elem_of_app; right; left|]. done.
Qed.

Lemma registered_table_kept t t' n table n' :
  Lineage.nodes t'
  = <[Lineage.table_key "ANALYTICS" "PUBLIC" n' :=
        Lineage.mkNode (Lineage.table_key "ANALYTICS" "PUBLIC" n') "table"
          (upper n')
          [("database", Some "ANALYTICS"); ("schema", Some "PUBLIC");
           ("owner", owner table); ("description", description table)]
          (clock self)]> (Lineage.nodes t) →
  registered_table t n → registered_table t' n.
Proof.
  intros Hnodes (node & Hk & Hty & Hname). unfold registered_table.
  rewrite Hnodes.
  destruct (decide (Lineage.table_key "ANALYTICS" "PUBLIC" n'
                    = Lineage.table_key "ANALYTICS" "PUBLIC" n)) as [E|E].
  - rewrite <- E, lookup_insert_eq. eexists. split; [done|]. simpl.
    split; [done | by apply table_key_inv in E].
  - rewrite lookup_insert_ne by done. by exists node.
Qed.

Lemma register_tables_effect kind ident ti tabs : ∀ t,
  Lineage.writable t = true →
  Forall (λ table, is_Some (table_name table)) tabs →
  let t' := (for_each tabs (register_table self kind ident) t).2 in
  (registered_document t kind ident ti → registered_document t' kind ident ti)
  ∧ (∀ n, registered_table t n → registered_table t' n)
  ∧ (∀ e, e ∈ Lineage.edges t → e ∈ Lineage.edges t')
  ∧ ∀ table n, table ∈ tabs → table_name table = Some n →
      registered_table t' n ∧ linked_to_document t' n kind ident.
Proof.
  induction tabs as [|tab tabs IH]; intros t Hw Hall; simpl.
  { split_and!; try done. intros ? ? H. by apply elem_of_nil in H. }
  apply Forall_cons in Hall as [[n Hn] Hall].
  destruct (register_table_effect kind ident tab n t Hw Hn)
    as (t1 & Hrun & Hw1 & Hnodes & Hedges & Hlink).
  cbv zeta. unfold bind. rewrite Hrun.
  destruct (IH t1 Hw1 Hall) as (IHd & IHt & IHe & IHall).
  split_and!.
  - intros (node & Hk & Hd). apply IHd. exists node. split; [|done].
    rewrite Hnodes, lookup_insert_ne; [done|]. apply table_key_not_doc_key.
  - intros n0 H0. apply IHt.
    exact (registered_table_kept t t1 n0 tab n Hnodes H0).
  - intros e He. by apply IHe, Hedges.
  - intros table0 n0 Hin Hn0. apply elem_of_cons in Hin as [-> | Hin].
    + assert (n0 = n) as -> by congruence. split.
      * apply IHt. unfold registered_table. rewrite Hnodes, lookup_insert_eq.
        by eexists.
      * destruct Hlink as (e & He & Hs & Ht). exists e. split; [by apply IHe|done].
    + exact (IHall table0 n0 Hin Hn0).
Qed.

(** X23: with writable lineage files and tables that carry their names, the
    lineage block of a job returns and leaves in the graph the node of the
    document, with its title, and for every table of the snapshot a table
    node under its upper-cased key and an edge from that node to the
    document. *)
Theorem lineage_block_registers_every_table kind ident doc tabs t :
  Lineage.writable t = true →
  Forall (λ table, is_Some (table_name table)) tabs →
  (lineage_block self kind ident doc tabs t).1 = inr tt
  ∧ registered_document (lineage_block self kind ident doc tabs t).2
      kind ident (title doc)
  ∧ ∀ table n, table ∈ tabs → table_name table = Some n →
      registered_table (lineage_block self kind ident doc tabs t).2 n
      ∧ linked_to_document (lineage_block self kind ident doc tabs t).2
          n kind ident.
Proof.
  intros Hw Hall. split.
  { rewrite OrchestratorFacts.lineage_block_outcome, Hw.
    induction Hall as [|table tabs [n Hn] _ IH]; simpl; [done|]. by rewrite Hn. }
  assert (Hblock : ∃ t1,
    lineage_block self kind ident doc tabs t
    = for_each tabs (register_table self kind ident) t1
    ∧ Lineage.writable t1 = true
    ∧ registered_document t1 kind ident (title doc)).
  { unfold lineage_block, Lineage.add_document, bind, modify, Lineage._save, ret.
    simpl. rewrite Hw. eexists. split; [done|]. split; [done|].
    eexists. split; [apply lookup_insert_eq | done]. }
  destruct Hblock as (t1 & -> & Hw1 & Hdoc).
  destruct (register_tables_effect kind ident (title doc) tabs t1 Hw1 Hall)
    as (Hd & _ & _ & Htabs).
  split; [by apply Hd | exact Htabs].
Qed.
End Jobs.

(** *** Examples *)

Lemma batch_accounts_for_every_source_witness :
  (Orchestrator.batch_sync Fixtures.agent (Some ["1"; "bad"]) (Some ["J-3"])
     false true Fixtures.world).1 = inr Examples.batch
  ∧ Pipeline.identify <$> Orchestrator.results Examples.batch
    = [("confluence", "1"); ("confluence", "bad"); ("jira", "J-3")]
  ∧ Orchestrator.total_sources Examples.batch = 3%nat
  ∧ (Orchestrator.successful Examples.batch + Orchestrator.failed Examples.batch
     = Orchestrator.total_sources Examples.batch)%nat
  ∧ Orchestrator.successful Examples.batch
    = count_if Orchestrator.success (Orchestrator.results Examples.batch).
Proof.
  assert (H : (Orchestrator.batch_sync Fixtures.agent (Some ["1"; "bad"])
                 (Some ["J-3"]) false true Fixtures.world).1
              = inr Examples.batch) by (vm_compute; reflexivity).
  split; [exact H|].
  exact (PipelineFacts.batch_accounts_for_every_source Fixtures.agent
           (Some ["1"; "bad"]) (Some ["J-3"]) false true Fixtures.world
           Examples.batch H).
Defined.

Lemma dry_run_stops_before_the_warehouse_witness :
  (∃ new, Orchestrator.calls
            (Orchestrator.run_job Fixtures.agent Examples.dry_customers_page
               Fixtures.world).2
          = Orchestrator.calls Fixtures.world ++ new
          ∧ Forall (λ c, Pipeline.after_dry_run_exit c = false) new)
  ∧ ∀ r, (Orchestrator.run_job Fixtures.agent Examples.dry_customers_page
            Fixtures.world).1 = inr r →
         Orchestrator.tables_updated r = 0%nat
         ∧ Orchestrator.columns_updated r = 0%nat.
Proof.
  exact (PipelineFacts.dry_run_stops_before_the_warehouse Fixtures.agent
           Examples.dry_customers_page Fixtures.world eq_refl).
Defined.

Lemma failed_result_carries_its_error_witness :
  (Orchestrator.run_job Fixtures.agent Examples.bad_page Fixtures.world).1
  = inr Examples.bad_result
  ∧ Orchestrator.success Examples.bad_result = false
  ∧ ∃ e st, (Orchestrator.job_body Fixtures.agent Examples.bad_page st).1 = inl e
            ∧ last (Orchestrator.errors Examples.bad_result) = Some (str_exn e).
Proof.
  assert (H : (Orchestrator.run_job Fixtures.agent Examples.bad_page
                 Fixtures.world).1 = inr Examples.bad_result)
    by (vm_compute; reflexivity).
  split; [exact H|]. split; [reflexivity|].
  exact (PipelineFacts.failed_result_carries_its_error Fixtures.agent
           Examples.bad_page Fixtures.world Examples.bad_result H eq_refl).
Defined.

Lemma lineage_block_registers_every_table_witness :
  (Orchestrator.lineage_block Fixtures.agent "confluence" "42"
     Fixtures.source_document (tables_or_empty Fixtures.documented)
     Examples.fresh_tracker).1 = inr tt
  ∧ Pipeline.registered_document
      (Orchestrator.lineage_block Fixtures.agent "confluence" "42"
         Fixtures.source_document (tables_or_empty Fixtures.documented)
         Examples.fresh_tracker).2 "confluence" "42" "Customers"
  ∧ ∀ table n, table ∈ tables_or_empty Fixtures.documented →
      table_name table = Some n →
      Pipeline.registered_table
        (Orchestrator.lineage_block Fixtures.agent "confluence" "42"
           Fixtures.source_document (tables_or_empty Fixtures.documented)
           Examples.fresh_tracker).2 n
      ∧ Pipeline.linked_to_document
          (Orchestrator.lineage_block Fixtures.agent "confluence" "42"
             Fixtures.source_document (tables_or_empty Fixtures.documented)
             Examples.fresh_tracker).2 n "confluence" "42".
Proof.
  apply (PipelineFacts.lineage_block_registers_every_table Fixtures.agent
           "confluence" "42" Fixtures.source_document
           (tables_or_empty Fixtures.documented) Examples.fresh_tracker).
  - reflexivity.
  - repeat constructor. by eexists.
Defined.
End PipelineFacts.

(** ** Facts about the text report *)

Module DriftTextFacts.
Import Py Schema Drift DriftText.

Lemma issue_line_listed i : lists_an_issue (issue_line i) = true.
Proof. by apply bool_decide_eq_true. Qed.

Lemma filter_issue_lines (l : list DriftIssue) :
  List.filter lists_an_issue (map issue_line l) = map issue_line l.
Proof.
  induction l as [|i l IH]; [done|].
  change (List.filter lists_an_issue (map issue_line (i :: l)))
    with (if lists_an_issue (issue_line i)
          then issue_line i :: List.filter lists_an_issue (map issue_line l)
          else List.filter lists_an_issue (map issue_line l)).
  rewrite issue_line_listed. by rewrite IH.
Qed.

Lemma filter_cons_not {A} (p : A → bool) h t :
  p h = false → List.filter p (h :: t) = List.filter p t.
Proof. simpl. by intros ->. Qed.

Lemma severity_lines_listed report s :
  List.filter lists_an_issue (severity_lines report s)
  = map issue_line (List.filter (has_severity s) (issues report)).
Proof.
  unfold severity_lines. cbv zeta.
  destruct (List.filter (has_severity s) (issues report)) as [|i l]; [done|].
  destruct s; rewrite filter_cons_not by (vm_compute; reflexivity);
    apply filter_issue_lines.
Qed.

Lemma by_severity_permutation (l : list DriftIssue) :
  List.filter (has_severity HIGH) l ++ List.filter (has_severity MEDIUM) l
  ++ List.filter (has_severity LOW) l ≡ₚ l.
Proof.
  induction l as [|i l IH]; [done|]. simpl. unfold has_severity at 1 4 7.
  destruct (severity i); simpl.
  - by rewrite IH.
  - by rewrite <- Permutation_middle, IH.
  - by rewrite app_assoc, <- Permutation_middle, <- app_assoc, IH.
Qed.

(** X11: the text report lists every issue of the report exactly once, under
    its severity: the lines that list an issue are the messages of the
    HIGH issues, then of the MEDIUM ones, then of the LOW ones, each group
    in the order of the report; and the line that says that no drift was
    detected is printed exactly when the report has no issue. *)
Theorem report_lists_every_issue_once generated_at report :
  List.filter lists_an_issue (report_lines generated_at report)
  = map issue_line
      (List.filter (has_severity HIGH) (issues report)
       ++ List.filter (has_severity MEDIUM) (issues report)
       ++ List.filter (has_severity LOW) (issues report))
  ∧ List.filter lists_an_issue (report_lines generated_at report)
    ≡ₚ map issue_line (issues report)
  ∧ ("No drift detected. Schema is in sync!" ∈ report_lines generated_at report
     ↔ issues report = []).
Proof.
  assert (Hlines :
    List.filter lists_an_issue (report_lines generated_at report)
    = map issue_line
        (List.filter (has_severity HIGH) (issues report)
         ++ List.filter (has_severity MEDIUM) (issues report)
         ++ List.filter (has_severity LOW) (issues report))).
  { unfold report_lines. rewrite List.filter_app.
    match goal with |- List.filter _ ?h ++ _ = _ =>
      assert (List.filter lists_an_issue h = []) as -> by done
    end.
    destruct (issues report) as [|i l] eqn:E; [done|].
    rewrite <- E. rewrite !List.filter_app, !severity_lines_listed.
    by rewrite !map_app. }
  split; [exact Hlines|]. split.
  { rewrite Hlines. by rewrite by_severity_permutation. }
  unfold report_lines. rewrite elem_of_app. split.
  - intros [H | H].
    + exfalso. repeat (apply elem_of_cons in H as [H | H]; [discriminate H|]).
      by apply elem_of_nil in H.
    + destruct (issues report) as [|i l] eqn:E; [done|]. exfalso.
      assert (Hsec : ∀ s, "No drift detected. Schema is in sync!"
                          ∉ severity_lines report s).
      { intros s Hs. unfold severity_lines in Hs. cbv zeta in Hs.
        destruct (List.filter (has_severity s) (issues report)) as [|i' l'];
          [by apply elem_of_nil in Hs|].
        apply elem_of_cons in Hs as [Hs | Hs]; [by destruct s|].
        apply list_elem_of_In, in_map_iff in Hs as (x & Hx & _).
        discriminate Hx. }
      repeat (apply elem_of_app in H as [H | H]);
        try (by eapply Hsec).
      repeat (apply elem_of_cons in H as [H | H]; [discriminate H|]).
      by apply elem_of_nil in H.
  - intros ->. right. left.
Qed.
End DriftTextFacts.
